(** * ChannelDetector: pivot/candle window and line validation

    A shallow embedding of [src/channel_detector.py] (class
    [ChannelDetector]) and the properties of its sliding window, its line
    factory, its three-stage validator and its incremental engine.

    Conventions of the embedding.
    - Python numbers (int and float) are exact rationals [Q]; [int(x)] is
      truncation towards zero.  Rounding, NaN and infinities of IEEE floats
      are outside the model.
    - A raised exception is [None] in the [option] monad: [IndexError] of
      [list[-1]] on an empty list, [ValueError] of [list.remove],
      [ZeroDivisionError] of [/].  A sequence of calls ([run]) ends at the
      first call that raises.
    - [max_pivots] is a count, a natural number; the candle of a record is
      optional ([if candle:]), and so is its pivot.
    - A candle timestamp is a dynamic value: a number or any other object
      (a datetime string in the driver).  Pivot timestamps and prices are
      numbers, as the docstring of [add_pivot] has them.
    - [print] calls are dropped; the formatted reason strings of the
      validator are constructors that carry the interpolated values. *)

From Stdlib Require Import QArith Qabs Qminmax Lqa.
From stdpp Require Import gmap strings list sorting.

Local Open Scope Q_scope.
#[local] Set Warnings "-clear-no-such-hyp".

(** ** Numbers *)

Definition Qltb (x y : Q) : bool := negb (Qle_bool y x).

(** [int(x)] on a number: truncation towards zero. *)
Definition py_int (x : Q) : Z := Z.quot (Qnum x) (Z.pos (Qden x)).

(** [a / b]: raises [ZeroDivisionError] when [b == 0]. *)
Definition py_div (a b : Q) : option Q :=
  if Qeq_bool b 0 then None else Some (a / b).

(** [min(a, b)] and [max(a, b)] of Python: the first argument wins ties. *)
Definition py_min (a b : Q) : Q := if Qltb b a then b else a.
Definition py_max (a b : Q) : Q := if Qltb a b then b else a.

(** ** Data model *)

Inductive pivot_type := peak | trough.
Inductive line_type := upper | lower.

(** A timestamp as it arrives with a candle. *)
Inductive pyval :=
| PyNum (x : Q)
| PyObj (s : string).

Record candle := Candle {
  c_timestamp : pyval;
  c_open : Q;
  c_high : Q;
  c_low : Q;
  c_close : Q;
  c_volume : Q
}.

(** The ['pivot'] entry of a record, before an id is assigned. *)
Record raw_pivot := RawPivot {
  r_timestamp : Q;
  r_price : Q;
  r_type : pivot_type
}.

(** [pivot_full] of [add_pivot]. *)
Record pivot := Pivot {
  p_id : nat;
  p_timestamp : Q;
  p_price : Q;
  p_type : pivot_type
}.

(** The dict built by [create_line].  The string ['line_{id1}_{id2}'] is
    kept as the pair of ids it is formatted from. *)
Record line := Line {
  l_id : nat * nat;
  l_point1 : pivot;
  l_point2 : pivot;
  l_slope : Q;
  l_intercept : Q;
  l_type : line_type;
  l_point_ids : nat * nat
}.

Record zigzag_output := ZigZag {
  zz_candle : option candle;
  zz_pivot : option raw_pivot
}.

Record config := Config {
  max_pivots : nat;
  max_age_ms : option Q;
  cfg_H : Q;
  cfg_point : Q;
  max_slope : option Q;
  min_distance_candles : Q;
  max_penetration_pct : Q;
  max_penetrating_candles : Z
}.

Definition dH (cfg : config) : Q := cfg_H cfg * cfg_point cfg.

(** [self.candle_interval_ms = 15 * 60 * 1000] *)
Definition candle_interval_ms : Q := 15 * 60 * 1000.

Record detector := Detector {
  peaks_list : list pivot;
  troughs_list : list pivot;
  candles_list : list candle;
  next_pivot_id : nat;
  upper_lines : list line;
  lower_lines : list line;
  valid_combinations : list (line * line);
  created_line_pairs : gset (nat * nat);
  created_combinations : gset ((nat * nat) * (nat * nat))
}.

(** [__init__] *)
Definition init : detector :=
  {| peaks_list := []; troughs_list := []; candles_list := [];
     next_pivot_id := 0; upper_lines := []; lower_lines := [];
     valid_combinations := []; created_line_pairs := ∅;
     created_combinations := ∅ |}.

(** [reset] *)
Definition reset (st : detector) : detector :=
  {| peaks_list := []; troughs_list := []; candles_list := [];
     upper_lines := []; lower_lines := []; valid_combinations := [];
     created_line_pairs := ∅; created_combinations := ∅;
     next_pivot_id := 0 |}.

(** The reason returned next to the verdict. *)
Inductive reason :=
| OK
| SlopeTooLarge (slope bound : Q)
| TooClose (num_candles : Q) (bound : Q)
| TooManyPenetrating (n : nat) (bound : Z)
| PenetrationTooStrong (pct bound : Q).

(** ** Equality of dicts ([==]), as [list.remove] uses it *)

Definition pivot_type_eqb (a b : pivot_type) : bool :=
  match a, b with peak, peak | trough, trough => true | _, _ => false end.

Definition line_type_eqb (a b : line_type) : bool :=
  match a, b with upper, upper | lower, lower => true | _, _ => false end.

Definition pair_eqb (a b : nat * nat) : bool :=
  Nat.eqb a.1 b.1 && Nat.eqb a.2 b.2.

Definition pivot_eqb (a b : pivot) : bool :=
  Nat.eqb (p_id a) (p_id b) && Qeq_bool (p_timestamp a) (p_timestamp b)
  && Qeq_bool (p_price a) (p_price b) && pivot_type_eqb (p_type a) (p_type b).

Definition line_eqb (a b : line) : bool :=
  pair_eqb (l_id a) (l_id b)
  && pivot_eqb (l_point1 a) (l_point1 b) && pivot_eqb (l_point2 a) (l_point2 b)
  && Qeq_bool (l_slope a) (l_slope b) && Qeq_bool (l_intercept a) (l_intercept b)
  && line_type_eqb (l_type a) (l_type b)
  && pair_eqb (l_point_ids a) (l_point_ids b).

(** ** List primitives of Python *)

Section ListOps.
Context {A : Type} (eqb : A → A → bool).

(** [l.remove(x)]: drops the first element equal to [x]; [ValueError]
    when there is none. *)
Fixpoint list_remove (x : A) (l : list A) : option (list A) :=
  match l with
  | [] => None
  | y :: l' =>
      if eqb y x then Some l'
      else match list_remove x l' with
           | Some r => Some (y :: r)
           | None => None
           end
  end.

(** [for x in xs: l.remove(x)] *)
Fixpoint remove_each (xs : list A) (l : list A) : option (list A) :=
  match xs with
  | [] => Some l
  | x :: xs' =>
      match list_remove x l with
      | Some l' => remove_each xs' l'
      | None => None
      end
  end.
End ListOps.

(** [l[-1]]: [IndexError] on the empty list. *)
Definition py_last {A} (l : list A) : option A := last l.

(** ** The detector *)

Section Detector.
(** [int(pd.to_datetime(ts).timestamp() * 1000)] of pandas, with [None]
    when the call raises. *)
Variable to_datetime_ms : string → option Z.

(** The local [to_ms] of [_cleanup_old_candles]: a number is truncated, a
    parseable object is converted, anything else (bare [except]) is 0. *)
Definition cleanup_to_ms (ts : pyval) : Z :=
  match ts with
  | PyNum x => py_int x
  | PyObj s => match to_datetime_ms s with Some ms => ms | None => 0%Z end
  end.

(** The local [to_ms] of [_check_line_penetration]. *)
Definition penetration_to_ms (ts : pyval) : Z :=
  match ts with
  | PyNum x => py_int x
  | PyObj s => match to_datetime_ms s with Some ms => ms | None => 0%Z end
  end.

(** *** Record updates *)

Definition set_pivots (pk tr : list pivot) (st : detector) : detector :=
  {| peaks_list := pk; troughs_list := tr; candles_list := candles_list st;
     next_pivot_id := next_pivot_id st; upper_lines := upper_lines st;
     lower_lines := lower_lines st;
     valid_combinations := valid_combinations st;
     created_line_pairs := created_line_pairs st;
     created_combinations := created_combinations st |}.

Definition set_candles (cs : list candle) (st : detector) : detector :=
  {| peaks_list := peaks_list st; troughs_list := troughs_list st;
     candles_list := cs;
     next_pivot_id := next_pivot_id st; upper_lines := upper_lines st;
     lower_lines := lower_lines st;
     valid_combinations := valid_combinations st;
     created_line_pairs := created_line_pairs st;
     created_combinations := created_combinations st |}.

Definition set_next_id (n : nat) (st : detector) : detector :=
  {| peaks_list := peaks_list st; troughs_list := troughs_list st;
     candles_list := candles_list st;
     next_pivot_id := n; upper_lines := upper_lines st;
     lower_lines := lower_lines st;
     valid_combinations := valid_combinations st;
     created_line_pairs := created_line_pairs st;
     created_combinations := created_combinations st |}.

Definition set_lines (up lo : list line) (cr : gset (nat * nat))
    (st : detector) : detector :=
  {| peaks_list := peaks_list st; troughs_list := troughs_list st;
     candles_list := candles_list st;
     next_pivot_id := next_pivot_id st; upper_lines := up;
     lower_lines := lo;
     valid_combinations := valid_combinations st;
     created_line_pairs := cr;
     created_combinations := created_combinations st |}.

(** *** [_cleanup_old_lines] *)

Definition touches (removed : gset nat) (l : line) : bool :=
  bool_decide (p_id (l_point1 l) ∈ removed)
  || bool_decide (p_id (l_point2 l) ∈ removed).

(** [for line in lines_to_remove: lines.remove(line);
    created_line_pairs.discard(line['point_ids'])] *)
Fixpoint remove_lines (to_remove ls : list line) (cr : gset (nat * nat))
    : option (list line * gset (nat * nat)) :=
  match to_remove with
  | [] => Some (ls, cr)
  | l :: rest =>
      ls' ← list_remove line_eqb l ls;
      remove_lines rest ls' (cr ∖ {[l_point_ids l]})
  end.

Definition cleanup_old_lines (removed_pivot_ids : list nat) (st : detector)
    : option detector :=
  let removed_ids_set : gset nat := list_to_set removed_pivot_ids in
  '(up, cr) ← remove_lines (filter (touches removed_ids_set) (upper_lines st))
                (upper_lines st) (created_line_pairs st);
  '(lo, cr') ← remove_lines (filter (touches removed_ids_set) (lower_lines st))
                 (lower_lines st) cr;
  Some (set_lines up lo cr' st).

(** *** [_cleanup_old_candles] *)

Definition oldest_pivot_ts (st : detector) : option Q :=
  match peaks_list st, troughs_list st with
  | p :: _, t :: _ => Some (py_min (p_timestamp p) (p_timestamp t))
  | p :: _, [] => Some (p_timestamp p)
  | [], t :: _ => Some (p_timestamp t)
  | [], [] => None
  end.

Definition cleanup_old_candles (st : detector) : detector :=
  match candles_list st with
  | [] => st
  | _ :: _ =>
      match oldest_pivot_ts st with
      | None => st
      | Some ts =>
          let oldest_pivot_ms := cleanup_to_ms (PyNum ts) in
          set_candles
            (filter (λ c, (oldest_pivot_ms <=? cleanup_to_ms (c_timestamp c))%Z)
                    (candles_list st)) st
      end
  end.

(** *** [_cleanup_old_pivots] *)

(** [while len(l) > max_pivots: removed = l.pop(0); removed_ids.append(..)] *)
Fixpoint count_rule (cap : nat) (l : list pivot) (removed_ids : list nat)
    : list pivot * list nat :=
  match l with
  | [] => (l, removed_ids)
  | p :: l' =>
      if cap <? length l then count_rule cap l' (removed_ids ++ [p_id p])
      else (l, removed_ids)
  end.

Definition age_rule (age : option Q) (l : list pivot) (removed_ids : list nat)
    : option (list pivot * list nat) :=
  match age with
  | None => Some (l, removed_ids)
  | Some a =>
      latest ← py_last l;
      let cutoff_timestamp := p_timestamp latest - a in
      let old := filter (λ p, Qltb (p_timestamp p) cutoff_timestamp) l in
      l' ← remove_each pivot_eqb old l;
      Some (l', removed_ids ++ (p_id <$> old))
  end.

Definition evict_list (cfg : config) (l : list pivot) (removed_ids : list nat)
    : option (list pivot * list nat) :=
  if 0 <? length l then
    let '(l1, r1) := count_rule (max_pivots cfg) l removed_ids in
    age_rule (max_age_ms cfg) l1 r1
  else Some (l, removed_ids).

(** Returns the new state together with the local [removed_ids]. *)
Definition cleanup_old_pivots (cfg : config) (st : detector)
    : option (detector * list nat) :=
  '(pk, r1) ← evict_list cfg (peaks_list st) [];
  '(tr, removed_ids) ← evict_list cfg (troughs_list st) r1;
  let st1 := set_pivots pk tr st in
  if 0 <? length removed_ids then
    st2 ← cleanup_old_lines removed_ids st1;
    Some (cleanup_old_candles st2, removed_ids)
  else Some (st1, removed_ids).

(** *** [create_line] *)

(** [None] here is the returned [None] (equal timestamps), not an error. *)
Definition create_line (point1 point2 : pivot) : option line :=
  let x1 := p_timestamp point1 in
  let y1 := p_price point1 in
  let x2 := p_timestamp point2 in
  let y2 := p_price point2 in
  if Qeq_bool x2 x1 then None
  else
    let slope := (y2 - y1) / (x2 - x1) in
    let intercept := y1 - slope * x1 in
    let line_type := match p_type point1 with peak => upper | trough => lower end in
    Some {| l_id := (p_id point1, p_id point2);
            l_point1 := point1; l_point2 := point2;
            l_slope := slope; l_intercept := intercept;
            l_type := line_type;
            l_point_ids := (p_id point1, p_id point2) |}.

(** *** [_check_line_penetration] *)

Definition line_price (l : line) (candle_ts : Z) : Q :=
  l_slope l * inject_Z candle_ts + l_intercept l.

(** [start_ts < candle_ts < end_ts] *)
Definition is_between (l : line) (c : candle) : bool :=
  let ts1 := p_timestamp (l_point1 l) in
  let ts2 := p_timestamp (l_point2 l) in
  let start_ts := py_min ts1 ts2 in
  let end_ts := py_max ts1 ts2 in
  let candle_ts := inject_Z (penetration_to_ms (c_timestamp c)) in
  Qltb start_ts candle_ts && Qltb candle_ts end_ts.

Definition penetrates (l : line) (c : candle) : bool :=
  let lp := line_price l (penetration_to_ms (c_timestamp c)) in
  match l_type l with
  | upper => Qltb lp (c_high c)
  | lower => Qltb (c_low c) lp
  end.

Definition penetration_pct (l : line) (c : candle) : option Q :=
  let lp := line_price l (penetration_to_ms (c_timestamp c)) in
  match l_type l with
  | upper => q ← py_div (c_high c - lp) lp; Some (q * 100)
  | lower => q ← py_div (lp - c_low c) lp; Some (q * 100)
  end.

(** The loop that fills [penetrating_candles]. *)
Fixpoint penetrating_candles (l : line) (candles_between : list candle)
    : option (list (pyval * Q)) :=
  match candles_between with
  | [] => Some []
  | c :: rest =>
      if penetrates l c then
        pct ← penetration_pct l c;
        pens ← penetrating_candles l rest;
        Some ((c_timestamp c, pct) :: pens)
      else penetrating_candles l rest
  end.

Definition check_line_penetration (cfg : config) (candles : list candle)
    (l : line) : option (bool * reason) :=
  match candles with
  | [] => Some (true, OK)
  | _ :: _ =>
      let candles_between := filter (is_between l) candles in
      match candles_between with
      | [] => Some (true, OK)
      | _ :: _ =>
          pens ← penetrating_candles l candles_between;
          if (max_penetrating_candles cfg <? Z.of_nat (length pens))%Z then
            Some (false, TooManyPenetrating (length pens)
                                            (max_penetrating_candles cfg))
          else
            match List.find (λ pen, Qltb (max_penetration_pct cfg) pen.2) pens with
            | Some pen =>
                Some (false, PenetrationTooStrong pen.2 (max_penetration_pct cfg))
            | None => Some (true, OK)
            end
      end
  end.

(** *** [validate_single_line] *)

(** Check 1, [None] when the line passes it: [max_slope] is set and
    [abs(slope) > max_slope]. *)
Definition slope_check (cfg : config) (l : line) : option reason :=
  match max_slope cfg with
  | Some m =>
      if Qltb m (Qabs (l_slope l)) then Some (SlopeTooLarge (l_slope l) m)
      else None
  | None => None
  end.

Definition num_candles (l : line) : Q :=
  Qabs (p_timestamp (l_point2 l) - p_timestamp (l_point1 l)) / candle_interval_ms.

Definition validate_single_line (cfg : config) (candles : list candle)
    (l : line) : option (bool * reason) :=
  match slope_check cfg l with
  | Some why => Some (false, why)
  | None =>
      if Qltb (num_candles l) (min_distance_candles cfg) then
        Some (false, TooClose (num_candles l) (min_distance_candles cfg))
      else
        match check_line_penetration cfg candles l with
        | Some (is_valid, why) =>
            if is_valid then Some (true, OK) else Some (false, why)
        | None => None
        end
  end.

(** *** [_update_valid_lines] *)

(** One filtering loop: valid lines are kept in order, the pair of every
    rejected line is discarded from [created_line_pairs]. *)
Fixpoint keep_valid (cfg : config) (candles : list candle) (ls : list line)
    (cr : gset (nat * nat)) : option (list line * gset (nat * nat)) :=
  match ls with
  | [] => Some ([], cr)
  | l :: rest =>
      match validate_single_line cfg candles l with
      | Some (is_valid, _) =>
          if is_valid then
            '(valid, cr') ← keep_valid cfg candles rest cr;
            Some (l :: valid, cr')
          else keep_valid cfg candles rest (cr ∖ {[l_point_ids l]})
      | None => None
      end
  end.

Definition update_valid_lines (cfg : config) (st : detector) : option detector :=
  '(valid_upper, cr) ← keep_valid cfg (candles_list st) (upper_lines st)
                         (created_line_pairs st);
  '(valid_lower, cr') ← keep_valid cfg (candles_list st) (lower_lines st) cr;
  Some (set_lines valid_upper valid_lower cr' st).

(** *** [_generate_new_lines] *)

Definition find_pivot (i : nat) (l : list pivot) : option pivot :=
  List.find (λ p, Nat.eqb (p_id p) i) l.

(** [tuple(sorted([a, b]))] *)
Definition sorted_pair (a b : nat) : nat * nat :=
  if b <? a then (b, a) else (a, b).

(** [for old_pivot in pivot_list: ...] *)
Fixpoint pair_with (new_pivot_id : nat) (new_pivot : pivot)
    (pivot_list : list pivot) (new_lines : list line) (cr : gset (nat * nat))
    : list line * gset (nat * nat) :=
  match pivot_list with
  | [] => (new_lines, cr)
  | old_pivot :: rest =>
      if Nat.eqb (p_id old_pivot) new_pivot_id then
        pair_with new_pivot_id new_pivot rest new_lines cr
      else
        let pair := sorted_pair (p_id old_pivot) (p_id new_pivot) in
        if bool_decide (pair ∈ cr) then
          pair_with new_pivot_id new_pivot rest new_lines cr
        else
          match create_line old_pivot new_pivot with
          | Some l =>
              pair_with new_pivot_id new_pivot rest (new_lines ++ [l])
                        ({[pair]} ∪ cr)
          | None => pair_with new_pivot_id new_pivot rest new_lines cr
          end
  end.

(** [for line in new_lines: (upper_lines | lower_lines).append(line)] *)
Fixpoint store_lines (new_lines up lo : list line) : list line * list line :=
  match new_lines with
  | [] => (up, lo)
  | l :: rest =>
      match l_type l with
      | upper => store_lines rest (up ++ [l]) lo
      | lower => store_lines rest up (lo ++ [l])
      end
  end.

(** The new pivot and the list it lives in. *)
Definition locate (new_pivot_id : nat) (st : detector)
    : option (pivot * list pivot) :=
  match find_pivot new_pivot_id (peaks_list st) with
  | Some p => Some (p, peaks_list st)
  | None =>
      match find_pivot new_pivot_id (troughs_list st) with
      | Some t => Some (t, troughs_list st)
      | None => None
      end
  end.

(** The candidate lines of a call and the pairs set after the loop. *)
Definition candidates (new_pivot_id : nat) (st : detector)
    : list line * gset (nat * nat) :=
  match locate new_pivot_id st with
  | None => ([], created_line_pairs st)
  | Some (new_pivot, pivot_list) =>
      pair_with new_pivot_id new_pivot pivot_list [] (created_line_pairs st)
  end.

Definition generate_new_lines (cfg : config) (new_pivot_id : nat)
    (st : detector) : option detector :=
  match locate new_pivot_id st with
  | None => Some st
  | Some (new_pivot, pivot_list) =>
      let '(new_lines, cr) :=
        pair_with new_pivot_id new_pivot pivot_list [] (created_line_pairs st) in
      let '(up, lo) := store_lines new_lines (upper_lines st) (lower_lines st) in
      let st1 := set_lines up lo cr st in
      if 0 <? length new_lines then update_valid_lines cfg st1 else Some st1
  end.

(** *** [add_pivot] *)

Definition ingest_candle (c : option candle) (st : detector) : detector :=
  match c with
  | Some c => set_candles (candles_list st ++ [c]) st
  | None => st
  end.

Definition ingest_pivot (pv : raw_pivot) (st : detector) : detector :=
  let pivot_id := next_pivot_id st in
  let pivot_full := {| p_id := pivot_id; p_timestamp := r_timestamp pv;
                       p_price := r_price pv; p_type := r_type pv |} in
  let st1 := set_next_id (S pivot_id) st in
  match r_type pv with
  | peak => set_pivots (peaks_list st1 ++ [pivot_full]) (troughs_list st1) st1
  | trough => set_pivots (peaks_list st1) (troughs_list st1 ++ [pivot_full]) st1
  end.

(** [add_pivot] with the ids it evicted: the state after the call, the
    returned id and the [removed_ids] of [_cleanup_old_pivots]. *)
Definition add_pivot_log (cfg : config) (st : detector) (rec : zigzag_output)
    : option (detector * option nat * list nat) :=
  let st0 := ingest_candle (zz_candle rec) st in
  match zz_pivot rec with
  | None => Some (st0, None, [])
  | Some pv =>
      let pivot_id := next_pivot_id st0 in
      let st1 := ingest_pivot pv st0 in
      '(st2, removed_ids) ← cleanup_old_pivots cfg st1;
      st3 ← generate_new_lines cfg pivot_id st2;
      Some (st3, Some pivot_id, removed_ids)
  end.

Definition add_pivot (cfg : config) (st : detector) (rec : zigzag_output)
    : option (detector * option nat) :=
  fst <$> add_pivot_log cfg st rec.

(** A sequence of calls on one instance; [None] as soon as a call raises. *)
Fixpoint run (cfg : config) (st : detector) (recs : list zigzag_output)
    : option detector :=
  match recs with
  | [] => Some st
  | rec :: rest =>
      '(st', _) ← add_pivot cfg st rec;
      run cfg st' rest
  end.

(** The same, with the returned ids and every evicted id. *)
Fixpoint run_log (cfg : config) (st : detector) (recs : list zigzag_output)
    : option (detector * list (option nat) * list nat) :=
  match recs with
  | [] => Some (st, [], [])
  | rec :: rest =>
      '(st', ret, removed) ← add_pivot_log cfg st rec;
      '(st'', rets, evicted) ← run_log cfg st' rest;
      Some (st'', ret :: rets, removed ++ evicted)
  end.

(** *** The penetration stage in the words of the specification *)

(** Magnitude of a penetration, in percent of the line price:
    [((high - linePrice) / linePrice) * 100] for an upper line and
    [((linePrice - low) / linePrice) * 100] for a lower one. *)
Definition penetration_magnitude (l : line) (c : candle) : Q :=
  let lp := line_price l (penetration_to_ms (c_timestamp c)) in
  match l_type l with
  | upper => ((c_high c - lp) / lp) * 100
  | lower => ((lp - c_low c) / lp) * 100
  end.

(** The candles the stage looks at, and those among them that penetrate. *)
Definition between (l : line) (candles : list candle) : list candle :=
  filter (is_between l) candles.

Definition penetrators (l : line) (candles : list candle) : list candle :=
  filter (penetrates l) (between l candles).

(** The rejection rule: too many penetrating candles, or one too deep. *)
Definition penetration_rejects (cfg : config) (l : line) (candles : list candle)
    : Prop :=
  (max_penetrating_candles cfg < Z.of_nat (length (penetrators l candles)))%Z
  ∨ ∃ c, c ∈ penetrators l candles
         ∧ max_penetration_pct cfg < penetration_magnitude l c.

(** *** Well-formed states *)

Definition resident (st : detector) : list pivot :=
  peaks_list st ++ troughs_list st.

Definition lines (st : detector) : list line :=
  upper_lines st ++ lower_lines st.

(** The unordered pair of endpoint ids of a line, as a sorted tuple. *)
Definition endpoint_pair (l : line) : nat * nat :=
  sorted_pair (p_id (l_point1 l)) (p_id (l_point2 l)).

(** [wf b st]: ids of resident pivots are fresh and distinct; every resident
    line joins two resident pivots, the older one first, its second endpoint
    below [b]; stored pairs are distinct and recorded in
    [created_line_pairs]. *)
Record wf (b : nat) (st : detector) : Prop := {
  wf_ids_lt : ∀ p, p ∈ resident st → (p_id p < next_pivot_id st)%nat;
  wf_ids_nodup : NoDup (p_id <$> resident st);
  wf_endpoints : ∀ l, l ∈ lines st →
      p_id (l_point1 l) ∈ (p_id <$> resident st)
      ∧ p_id (l_point2 l) ∈ (p_id <$> resident st)
      ∧ (p_id (l_point2 l) < b)%nat;
  wf_ordered : ∀ l, l ∈ lines st →
      (p_id (l_point1 l) < p_id (l_point2 l))%nat
      ∧ l_point_ids l = (p_id (l_point1 l), p_id (l_point2 l));
  wf_pairs_nodup : NoDup (l_point_ids <$> lines st);
  wf_created : ∀ l, l ∈ lines st → l_point_ids l ∈ created_line_pairs st
}.

(** The candidate lines ([new_lines]) of one call; none for a candle-only
    record. *)
Definition generated (cfg : config) (st : detector) (rec : zigzag_output)
    : list line :=
  match zz_pivot rec with
  | None => []
  | Some pv =>
      let st0 := ingest_candle (zz_candle rec) st in
      match cleanup_old_pivots cfg (ingest_pivot pv st0) with
      | Some (st2, _) => (candidates (next_pivot_id st0) st2).1
      | None => []
      end
  end.

(** The verdict of the validator on a line, as two tests. *)
Definition accepted (cfg : config) (candles : list candle) (l : line) : bool :=
  match validate_single_line cfg candles l with
  | Some (true, _) => true
  | _ => false
  end.

Definition rejected (cfg : config) (candles : list candle) (l : line) : bool :=
  match validate_single_line cfg candles l with
  | Some (false, _) => true
  | _ => false
  end.

(** The state once the candidates of a call are stored, before any
    re-validation. *)
Definition with_candidates (new_pivot_id : nat) (st : detector) : detector :=
  let new_lines := (candidates new_pivot_id st).1 in
  let stored := store_lines new_lines (upper_lines st) (lower_lines st) in
  set_lines stored.1 stored.2 (candidates new_pivot_id st).2 st.

(** The count cap on both pivot lists. *)
Definition bounded (cfg : config) (st : detector) : Prop :=
  length (peaks_list st) ≤ max_pivots cfg
  ∧ length (troughs_list st) ≤ max_pivots cfg.

(** An id that was handed out and is not resident any more. *)
Definition gone_for_good (st : detector) (i : nat) : Prop :=
  (i < next_pivot_id st)%nat ∧ i ∉ (p_id <$> resident st).

(** *** Normal form of candle timestamps *)

(** A candle with its timestamp replaced by the epoch milliseconds it is
    read as. *)
Definition normalize_candle (c : candle) : candle :=
  {| c_timestamp := PyNum (inject_Z (cleanup_to_ms (c_timestamp c)));
     c_open := c_open c; c_high := c_high c; c_low := c_low c;
     c_close := c_close c; c_volume := c_volume c |}.

Definition normalize (st : detector) : detector :=
  set_candles (normalize_candle <$> candles_list st) st.

Definition normalize_record (rec : zigzag_output) : zigzag_output :=
  {| zz_candle := normalize_candle <$> zz_candle rec; zz_pivot := zz_pivot rec |}.

Definition with_timestamp (ts : pyval) (c : candle) : candle :=
  {| c_timestamp := ts;
     c_open := c_open c; c_high := c_high c; c_low := c_low c;
     c_close := c_close c; c_volume := c_volume c |}.

(** *** [get_state] *)

(** The dict returned by [get_state]. *)
Record state_info := StateInfo {
  gs_num_peaks : nat;
  gs_num_troughs : nat;
  gs_num_candles : nat;
  gs_num_upper_lines : nat;
  gs_num_lower_lines : nat;
  gs_num_combinations : nat;
  gs_next_pivot_id : nat;
  gs_peaks_ids : list nat;
  gs_troughs_ids : list nat
}.

Definition get_state (st : detector) : state_info :=
  {| gs_num_peaks := length (peaks_list st);
     gs_num_troughs := length (troughs_list st);
     gs_num_candles := length (candles_list st);
     gs_num_upper_lines := length (upper_lines st);
     gs_num_lower_lines := length (lower_lines st);
     gs_num_combinations := length (valid_combinations st);
     gs_next_pivot_id := next_pivot_id st;
     gs_peaks_ids := p_id <$> peaks_list st;
     gs_troughs_ids := p_id <$> troughs_list st |}.

(** *** What a sequence of records is expected to leave *)

(** The pivots of a sequence of records with the ids [add_pivot] hands out,
    counting from [n]. *)
Fixpoint stamped (n : nat) (recs : list zigzag_output) : list pivot :=
  match recs with
  | [] => []
  | rec :: rest =>
      match zz_pivot rec with
      | Some pv =>
          {| p_id := n; p_timestamp := r_timestamp pv; p_price := r_price pv;
             p_type := r_type pv |} :: stamped (S n) rest
      | None => stamped n rest
      end
  end.

(** The ids a sequence of calls is expected to return, counting from [n]. *)
Fixpoint returned (n : nat) (recs : list zigzag_output) : list (option nat) :=
  match recs with
  | [] => []
  | rec :: rest =>
      match zz_pivot rec with
      | Some _ => Some n :: returned (S n) rest
      | None => None :: returned n rest
      end
  end.

Definition is_peak (p : pivot) : bool := pivot_type_eqb (p_type p) peak.
Definition is_trough (p : pivot) : bool := pivot_type_eqb (p_type p) trough.

(** The last [cap] elements of a list. *)
Definition keep_last {A} (cap : nat) (l : list A) : list A :=
  drop (length l - cap) l.

(** Every resident line passes the validator against the current window. *)
Definition all_valid (cfg : config) (st : detector) : Prop :=
  ∀ l, l ∈ lines st →
       validate_single_line cfg (candles_list st) l = Some (true, OK).

(** Pivot lists hold one type each, in increasing id order; a resident line
    joins two pivots of the list of its type. *)
Record typed (st : detector) : Prop := {
  typed_peaks : ∀ p, p ∈ peaks_list st → p_type p = peak;
  typed_troughs : ∀ p, p ∈ troughs_list st → p_type p = trough;
  typed_peaks_sorted : StronglySorted lt (p_id <$> peaks_list st);
  typed_troughs_sorted : StronglySorted lt (p_id <$> troughs_list st);
  typed_upper : ∀ l, l ∈ upper_lines st →
      l_type l = upper ∧ l_point1 l ∈ peaks_list st ∧ l_point2 l ∈ peaks_list st;
  typed_lower : ∀ l, l ∈ lower_lines st →
      l_type l = lower ∧ l_point1 l ∈ troughs_list st
      ∧ l_point2 l ∈ troughs_list st
}.

(** All ordered pairs of a list, first component before the second. *)
Fixpoint all_pairs (ids : list nat) : list (nat * nat) :=
  match ids with
  | [] => []
  | i :: rest => (pair i <$> rest) ++ all_pairs rest
  end.

(** Every recorded pair is the pair of a resident line. *)
Definition pairs_exact (st : detector) : Prop :=
  ∀ pr, pr ∈ created_line_pairs st → pr ∈ (l_point_ids <$> lines st).

(** *** Streams in time order *)

(** The candle is dated at or after [ts]. *)
Definition dated_from (ts : Q) (c : candle) : bool :=
  negb (Qltb (inject_Z (penetration_to_ms (c_timestamp c))) ts).

(** No candle is dated before a pivot that an earlier record delivered;
    [seen] holds the timestamps of the pivots delivered so far. *)
Fixpoint time_ordered_from (seen : list Q) (recs : list zigzag_output) : bool :=
  match recs with
  | [] => true
  | rec :: rest =>
      match zz_candle rec with
      | Some c => forallb (λ ts, dated_from ts c) seen
      | None => true
      end
      && time_ordered_from
           (match zz_pivot rec with
            | Some pv => r_timestamp pv :: seen
            | None => seen
            end) rest
  end.

Definition time_ordered (recs : list zigzag_output) : bool :=
  time_ordered_from [] recs.

(** ** Properties *)

(** *** Booleans of [Q] *)

Lemma Qltb_lt (x y : Q) : Qltb x y = true ↔ x < y.
Proof.
  unfold Qltb. rewrite negb_true_iff.
  destruct (Qle_bool y x) eqn:E.
  - apply Qle_bool_iff in E. split; [discriminate|].
    intros H. exfalso. exact (Qlt_not_le _ _ H E).
  - split; [intros _|reflexivity].
    apply Qnot_le_lt. intros H. apply Qle_bool_iff in H. congruence.
Qed.

Lemma Qltb_ge (x y : Q) : Qltb x y = false ↔ y <= x.
Proof.
  unfold Qltb. rewrite negb_false_iff. apply Qle_bool_iff.
Qed.

Lemma Qltb_proper (x x' y y' : Q) : x == x' → y == y' → Qltb x y = Qltb x' y'.
Proof.
  intros Hx Hy.
  destruct (Qltb x' y') eqn:E.
  - apply Qltb_lt. apply Qltb_lt in E. by rewrite Hx, Hy.
  - apply Qltb_ge. apply Qltb_ge in E. by rewrite Hx, Hy.
Qed.

Lemma Qeq_bool_refl (x : Q) : Qeq_bool x x = true.
Proof. apply Qeq_bool_iff. reflexivity. Qed.

(** *** Filters with boolean tests *)

Lemma filter_cons_bool {A} (f : A → bool) (x : A) (l : list A) :
  filter f (x :: l) = if f x then x :: filter f l else filter f l.
Proof.
  rewrite filter_cons. destruct (f x) eqn:E.
  - by rewrite decide_True.
  - rewrite decide_False; [done|]. by intros [].
Qed.

Lemma elem_of_filter_bool {A} (f : A → bool) (x : A) (l : list A) :
  x ∈ filter f l ↔ f x = true ∧ x ∈ l.
Proof. rewrite list_elem_of_filter. by rewrite Is_true_true. Qed.

Lemma filter_split_bool {A} (f : A → bool) (l : list A) :
  l ≡ₚ filter f l ++ filter (λ x, negb (f x)) l.
Proof.
  induction l as [|x l IH]; [done|].
  rewrite !filter_cons_bool. destruct (f x); simpl.
  - by f_equiv.
  - rewrite <- Permutation_middle. by f_equiv.
Qed.

(** *** The validator on a single line *)

Lemma create_line_Some (p1 p2 : pivot) :
  ¬ p_timestamp p2 == p_timestamp p1 →
  ∃ l, create_line p1 p2 = Some l
       ∧ l_point1 l = p1 ∧ l_point2 l = p2
       ∧ l_point_ids l = (p_id p1, p_id p2)
       ∧ l_type l = match p_type p1 with peak => upper | trough => lower end.
Proof.
  intros Hne. unfold create_line.
  destruct (Qeq_bool (p_timestamp p2) (p_timestamp p1)) eqn:E.
  - apply Qeq_bool_iff in E. contradiction.
  - eexists. split; [reflexivity|]. simpl. auto.
Qed.

Lemma create_line_inv (p1 p2 : pivot) (l : line) :
  create_line p1 p2 = Some l →
  l_point1 l = p1 ∧ l_point2 l = p2 ∧ l_point_ids l = (p_id p1, p_id p2)
  ∧ l_type l = match p_type p1 with peak => upper | trough => lower end.
Proof.
  unfold create_line.
  destruct (Qeq_bool (p_timestamp p2) (p_timestamp p1)); [discriminate|].
  intros [= <-]. simpl. auto.
Qed.

(** C3, as the code has it: two troughs half a candle interval apart, with
    [min_distance_candles = 2], give a line that validation rejects; the
    reason is the spacing one when the slope check passes (no [max_slope], or
    [|slope| <= max_slope]) and the slope one when it does not, since the
    slope check runs first. *)
Theorem spacing_rejection_after_slope (cfg : config) (candles : list candle)
    (p1 p2 : pivot) :
  p_type p1 = trough → p_type p2 = trough →
  Qabs (p_timestamp p2 - p_timestamp p1) == (1 # 2) * candle_interval_ms →
  min_distance_candles cfg == 2 →
  ∃ l, create_line p1 p2 = Some l ∧ l_type l = lower ∧
       validate_single_line cfg candles l =
         Some (false,
               match slope_check cfg l with
               | Some slope_reason => slope_reason
               | None => TooClose (num_candles l) (min_distance_candles cfg)
               end).
Proof.
  intros Ht1 _ Hd Hmin.
  destruct (create_line_Some p1 p2) as (l & Hl & H1 & H2 & _ & Hty).
  { intros Heq. rewrite Heq in Hd.
    assert (Hz : p_timestamp p1 - p_timestamp p1 == 0) by ring.
    rewrite Hz in Hd. vm_compute in Hd. discriminate. }
  exists l. split; [done|]. split; [by rewrite Hty, Ht1|].
  unfold validate_single_line.
  destruct (slope_check cfg l); [done|].
  assert (Hn : Qltb (num_candles l) (min_distance_candles cfg) = true).
  { apply Qltb_lt. unfold num_candles. rewrite H1, H2, Hd, Hmin. reflexivity. }
  by rewrite Hn.
Qed.

(** *** The penetration stage *)

Lemma py_div_Some (a b : Q) : ¬ b == 0 → py_div a b = Some (a / b).
Proof.
  intros H. unfold py_div. destruct (Qeq_bool b 0) eqn:E; [|done].
  apply Qeq_bool_iff in E. contradiction.
Qed.

Lemma py_div_None (a b : Q) : py_div a b = None ↔ b == 0.
Proof.
  unfold py_div. destruct (Qeq_bool b 0) eqn:E.
  - apply Qeq_bool_iff in E. done.
  - split; [done|]. intros H. apply Qeq_bool_iff in H. congruence.
Qed.

Lemma penetration_pct_Some (l : line) (c : candle) :
  ¬ line_price l (penetration_to_ms (c_timestamp c)) == 0 →
  penetration_pct l c = Some (penetration_magnitude l c).
Proof.
  intros H. unfold penetration_pct, penetration_magnitude.
  destruct (l_type l); by rewrite py_div_Some.
Qed.

Lemma penetration_pct_None (l : line) (c : candle) :
  penetration_pct l c = None ↔
  line_price l (penetration_to_ms (c_timestamp c)) == 0.
Proof.
  unfold penetration_pct. rewrite <- (py_div_None
    (match l_type l with
     | upper => c_high c - line_price l (penetration_to_ms (c_timestamp c))
     | lower => line_price l (penetration_to_ms (c_timestamp c)) - c_low c
     end)).
  destruct (l_type l);
    match goal with |- context [py_div ?a ?b] => destruct (py_div a b) end;
    simpl; split; congruence.
Qed.

(** Without a zero line price under a penetrating candle, the loop yields
    one entry per penetrating candle, in window order. *)
Lemma penetrating_candles_Some (l : line) (cs : list candle) :
  (∀ c, c ∈ filter (penetrates l) cs →
        ¬ line_price l (penetration_to_ms (c_timestamp c)) == 0) →
  penetrating_candles l cs =
    Some ((λ c, (c_timestamp c, penetration_magnitude l c))
            <$> filter (penetrates l) cs).
Proof.
  induction cs as [|c cs IH]; intros Hnz; [done|].
  simpl. rewrite filter_cons_bool in Hnz |- *.
  destruct (penetrates l c) eqn:Hp.
  - rewrite penetration_pct_Some by (apply Hnz; left).
    simpl. rewrite IH; [done|]. intros c' Hc'. apply Hnz. by right.
  - by apply IH.
Qed.

(** The loop raises exactly when some penetrating candle sits on a zero
    line price. *)
Lemma penetrating_candles_None (l : line) (cs : list candle) :
  penetrating_candles l cs = None ↔
  ∃ c, c ∈ filter (penetrates l) cs
       ∧ line_price l (penetration_to_ms (c_timestamp c)) == 0.
Proof.
  induction cs as [|c cs IH]; simpl.
  - split; [done|]. intros (c & Hc & _). by apply elem_of_nil in Hc.
  - rewrite filter_cons_bool. destruct (penetrates l c) eqn:Hp; [|done].
    destruct (penetration_pct l c) as [q|] eqn:Hq; simpl.
    + assert (Hnz : ¬ line_price l (penetration_to_ms (c_timestamp c)) == 0).
      { intros Hz. apply penetration_pct_None in Hz. congruence. }
      destruct (penetrating_candles l cs) as [pens|]; simpl.
      * split; [done|]. intros (c' & Hc' & Hz).
        apply elem_of_cons in Hc' as [->|Hc']; [done|].
        destruct IH as [_ IH]. by discriminate IH; eauto.
      * split; [intros _|done].
        destruct IH as [IH _]. destruct (IH eq_refl) as (c' & Hc' & Hz).
        exists c'. split; [by right|done].
    + split; [intros _|done]. exists c. split; [by left|].
      by apply penetration_pct_None.
Qed.

Lemma py_min_Qmin (a b : Q) : py_min a b == Qmin a b.
Proof.
  unfold py_min. destruct (Qltb b a) eqn:E.
  - apply Qltb_lt in E. symmetry. apply Q.min_r. by apply Qlt_le_weak.
  - apply Qltb_ge in E. symmetry. by apply Q.min_l.
Qed.

Lemma py_max_Qmax (a b : Q) : py_max a b == Qmax a b.
Proof.
  unfold py_max. destruct (Qltb a b) eqn:E.
  - apply Qltb_lt in E. symmetry. apply Q.max_r. by apply Qlt_le_weak.
  - apply Qltb_ge in E. symmetry. by apply Q.max_l.
Qed.

Lemma is_between_spec (l : line) (c : candle) :
  is_between l c = true ↔
  Qmin (p_timestamp (l_point1 l)) (p_timestamp (l_point2 l))
    < inject_Z (penetration_to_ms (c_timestamp c))
  ∧ inject_Z (penetration_to_ms (c_timestamp c))
    < Qmax (p_timestamp (l_point1 l)) (p_timestamp (l_point2 l)).
Proof.
  unfold is_between. rewrite andb_true_iff, !Qltb_lt.
  by rewrite py_min_Qmin, py_max_Qmax.
Qed.

Lemma penetrates_spec (l : line) (c : candle) :
  penetrates l c = true ↔
  match l_type l with
  | upper => line_price l (penetration_to_ms (c_timestamp c)) < c_high c
  | lower => c_low c < line_price l (penetration_to_ms (c_timestamp c))
  end.
Proof. unfold penetrates. destruct (l_type l); apply Qltb_lt. Qed.

Lemma check_line_penetration_unfold (cfg : config) (candles : list candle)
    (l : line) :
  between l candles ≠ [] →
  check_line_penetration cfg candles l =
    pens ← penetrating_candles l (between l candles);
    if (max_penetrating_candles cfg <? Z.of_nat (length pens))%Z then
      Some (false, TooManyPenetrating (length pens) (max_penetrating_candles cfg))
    else
      match List.find (λ pen, Qltb (max_penetration_pct cfg) pen.2) pens with
      | Some pen =>
          Some (false, PenetrationTooStrong pen.2 (max_penetration_pct cfg))
      | None => Some (true, OK)
      end.
Proof.
  unfold check_line_penetration, between. intros Hne.
  destruct candles as [|c0 cs]; [done|].
  by destruct (filter (is_between l) (c0 :: cs)).
Qed.

Lemma check_line_penetration_empty (cfg : config) (candles : list candle)
    (l : line) :
  between l candles = [] → check_line_penetration cfg candles l = Some (true, OK).
Proof.
  unfold check_line_penetration, between. intros He.
  destruct candles as [|c0 cs]; [done|]. by rewrite He.
Qed.

Lemma elem_of_between (l : line) (candles : list candle) (c : candle) :
  c ∈ between l candles ↔
  c ∈ candles
  ∧ Qmin (p_timestamp (l_point1 l)) (p_timestamp (l_point2 l))
      < inject_Z (penetration_to_ms (c_timestamp c))
  ∧ inject_Z (penetration_to_ms (c_timestamp c))
      < Qmax (p_timestamp (l_point1 l)) (p_timestamp (l_point2 l)).
Proof. unfold between. rewrite elem_of_filter_bool, is_between_spec. tauto. Qed.

(** The stage raises exactly on a penetrating candle over a zero line
    price. *)
Lemma check_line_penetration_None (cfg : config) (candles : list candle)
    (l : line) :
  check_line_penetration cfg candles l = None ↔
  ∃ c, c ∈ penetrators l candles
       ∧ line_price l (penetration_to_ms (c_timestamp c)) == 0.
Proof.
  destruct (between l candles) as [|b bs] eqn:Hb.
  - rewrite check_line_penetration_empty by done.
    split; [done|]. intros (c & Hc & _).
    unfold penetrators in Hc. rewrite Hb in Hc. by apply elem_of_nil in Hc.
  - rewrite check_line_penetration_unfold by (by rewrite Hb).
    unfold penetrators. rewrite <- penetrating_candles_None, Hb.
    destruct (penetrating_candles l (b :: bs)) as [pens|]; simpl; [|done].
    split; [|done].
    destruct (_ <? _)%Z; [done|]. by destruct (List.find _ _).
Qed.

(** C2, as the code has it.  Timestamps are the normalised ones (the local
    [to_ms]), and a penetrating candle on a line price of zero makes the
    stage raise instead of answering. *)
Theorem penetration_stage_spec (cfg : config) (candles : list candle) (l : line) :
  (∀ c, c ∈ between l candles ↔
        c ∈ candles
        ∧ Qmin (p_timestamp (l_point1 l)) (p_timestamp (l_point2 l))
            < inject_Z (penetration_to_ms (c_timestamp c))
        ∧ inject_Z (penetration_to_ms (c_timestamp c))
            < Qmax (p_timestamp (l_point1 l)) (p_timestamp (l_point2 l)))
  ∧ (between l candles = [] →
     check_line_penetration cfg candles l = Some (true, OK))
  ∧ (∀ c, c ∈ penetrators l candles ↔
          c ∈ between l candles
          ∧ match l_type l with
            | upper => line_price l (penetration_to_ms (c_timestamp c)) < c_high c
            | lower => c_low c < line_price l (penetration_to_ms (c_timestamp c))
            end)
  ∧ (check_line_penetration cfg candles l = None ↔
     ∃ c, c ∈ penetrators l candles
          ∧ line_price l (penetration_to_ms (c_timestamp c)) == 0)
  ∧ (between l candles ≠ [] →
     (∀ c, c ∈ penetrators l candles →
           ¬ line_price l (penetration_to_ms (c_timestamp c)) == 0) →
     (penetration_rejects cfg l candles →
      ∃ why, check_line_penetration cfg candles l = Some (false, why) ∧ why ≠ OK)
     ∧ (¬ penetration_rejects cfg l candles →
        check_line_penetration cfg candles l = Some (true, OK))).
Proof.
  split; [|split; [|split; [|split]]].
  - intros c. apply elem_of_between.
  - apply check_line_penetration_empty.
  - intros c. unfold penetrators.
    rewrite elem_of_filter_bool, penetrates_spec. tauto.
  - apply check_line_penetration_None.
  - intros Hne Hnz.
    rewrite check_line_penetration_unfold by done.
    rewrite penetrating_candles_Some by done. simpl.
    fold (penetrators l candles). rewrite length_fmap.
    unfold penetration_rejects.
    destruct (_ <? _)%Z eqn:Hcnt.
    + apply Z.ltb_lt in Hcnt. split; [|tauto].
      intros _. eexists. split; [reflexivity|done].
    + apply Z.ltb_ge in Hcnt.
      destruct (List.find _ _) as [pen|] eqn:Hf.
      * apply find_some in Hf as [Hin Hpct].
        apply list_elem_of_In, list_elem_of_fmap in Hin as (c & -> & Hc).
        simpl in Hpct. apply Qltb_lt in Hpct.
        split; [intros _; eexists; split; [reflexivity|done]|].
        intros Hno. exfalso. apply Hno. right. eauto.
      * split; [|done]. intros [Hc|(c & Hc & Hpct)]; [lia|]. exfalso.
        pose proof (find_none _ _ Hf (c_timestamp c, penetration_magnitude l c))
          as Hn.
        simpl in Hn. apply Qltb_lt in Hpct. rewrite Hpct in Hn.
        discriminate Hn. apply list_elem_of_In, list_elem_of_fmap. eauto.
Qed.

(** *** [list.remove] in a loop is a filter *)

Section RemoveEach.
Context {A : Type} (eqb : A → A → bool) (P : A → bool).
Hypothesis eqb_refl : ∀ x, eqb x x = true.
Hypothesis eqb_P : ∀ x y, eqb x y = true → P x = P y.

Lemma list_remove_skip (pre : list A) (x : A) (l : list A) :
  (∀ y, y ∈ pre → P y = false) → P x = true →
  list_remove eqb x (pre ++ x :: l) = Some (pre ++ l).
Proof using eqb_refl eqb_P.
  intros Hpre Hx. induction pre as [|y pre IH]; simpl.
  - by rewrite eqb_refl.
  - destruct (eqb y x) eqn:E.
    + apply eqb_P in E. rewrite Hpre in E by left. congruence.
    + rewrite IH; [done|]. intros z Hz. apply Hpre. by right.
Qed.

Lemma remove_each_filter_from (pre l : list A) :
  (∀ y, y ∈ pre → P y = false) →
  remove_each eqb (filter P l) (pre ++ l) =
    Some (pre ++ filter (λ x, negb (P x)) l).
Proof using eqb_refl eqb_P.
  revert pre. induction l as [|x l IH]; intros pre Hpre; [done|].
  rewrite !filter_cons_bool. destruct (P x) eqn:Hx; simpl.
  - rewrite list_remove_skip by done. by apply IH.
  - replace (pre ++ x :: l) with ((pre ++ [x]) ++ l) by by rewrite <- app_assoc.
    rewrite IH; [by rewrite <- app_assoc|].
    intros y [Hy| ->%list_elem_of_singleton]%elem_of_app; auto.
Qed.

Lemma remove_each_filter (l : list A) :
  remove_each eqb (filter P l) l = Some (filter (λ x, negb (P x)) l).
Proof using eqb_refl eqb_P.
  apply (remove_each_filter_from []). by intros y Hy%elem_of_nil.
Qed.
End RemoveEach.

Lemma pivot_type_eqb_refl (a : pivot_type) : pivot_type_eqb a a = true.
Proof. by destruct a. Qed.

Lemma pivot_eqb_refl (p : pivot) : pivot_eqb p p = true.
Proof.
  unfold pivot_eqb.
  by rewrite Nat.eqb_refl, !Qeq_bool_refl, pivot_type_eqb_refl.
Qed.

Lemma pivot_eqb_id (p q : pivot) : pivot_eqb p q = true → p_id p = p_id q.
Proof.
  unfold pivot_eqb. rewrite !andb_true_iff. intros [[[H _] _] _].
  by apply Nat.eqb_eq.
Qed.

Lemma pivot_eqb_timestamp (p q : pivot) :
  pivot_eqb p q = true → p_timestamp p == p_timestamp q.
Proof.
  unfold pivot_eqb. rewrite !andb_true_iff. intros [[[_ H] _] _].
  by apply Qeq_bool_iff.
Qed.

Lemma line_eqb_refl (l : line) : line_eqb l l = true.
Proof.
  unfold line_eqb, pair_eqb.
  rewrite !Nat.eqb_refl, !pivot_eqb_refl, !Qeq_bool_refl. by destruct (l_type l).
Qed.

Lemma line_eqb_touches (removed : gset nat) (l k : line) :
  line_eqb l k = true → touches removed l = touches removed k.
Proof.
  unfold line_eqb. rewrite !andb_true_iff.
  intros [[[[[[_ H1] H2] _] _] _] _].
  apply pivot_eqb_id in H1, H2. unfold touches. by rewrite H1, H2.
Qed.

(** *** Eviction of pivots *)

Lemma count_rule_spec (cap : nat) (l : list pivot) (removed_ids : list nat) :
  count_rule cap l removed_ids =
    (drop (length l - cap) l,
     removed_ids ++ (p_id <$> take (length l - cap) l)).
Proof.
  revert removed_ids. induction l as [|p l IH]; intros removed_ids.
  - simpl. by rewrite app_nil_r.
  - cbn [count_rule]. destruct (cap <? length (p :: l)) eqn:E.
    + apply Nat.ltb_lt in E. simpl in E.
      rewrite IH.
      replace (length (p :: l) - cap)%nat with (S (length l - cap)) by (simpl; lia).
      simpl. by rewrite <- app_assoc.
    + apply Nat.ltb_ge in E.
      replace (length (p :: l) - cap)%nat with 0%nat by lia.
      simpl. by rewrite app_nil_r.
Qed.

(** What one list goes through: the survivors keep their order, and the ids
    reported are those of the pivots that left. *)
Lemma evict_list_spec (cfg : config) (l : list pivot) (removed_ids : list nat)
    (l' : list pivot) (removed_ids' : list nat) :
  evict_list cfg l removed_ids = Some (l', removed_ids') →
  ∃ gone, removed_ids' = removed_ids ++ (p_id <$> gone)
          ∧ l ≡ₚ gone ++ l'
          ∧ l' `sublist_of` l
          ∧ length l' ≤ max_pivots cfg.
Proof.
  unfold evict_list. destruct (0 <? length l) eqn:Hlen.
  - rewrite count_rule_spec. set (k := (length l - max_pivots cfg)%nat).
    assert (Hdrop : length (drop k l) ≤ max_pivots cfg).
    { rewrite length_drop. unfold k. lia. }
    unfold age_rule. destruct (max_age_ms cfg) as [age|].
    + destruct (py_last (drop k l)) as [latest|]; [|done]. simpl.
      set (old := λ p : pivot, Qltb (p_timestamp p) (p_timestamp latest - age)).
      rewrite (remove_each_filter pivot_eqb old).
      * simpl. intros [= <- <-].
        exists (take k l ++ filter old (drop k l)).
        split; [by rewrite fmap_app, app_assoc|].
        split; [|split].
        -- rewrite <- app_assoc.
           rewrite <- (take_drop k l) at 1. f_equiv.
           apply filter_split_bool.
        -- etrans; [apply sublist_filter|apply sublist_drop].
        -- etrans; [apply length_filter|done].
      * apply pivot_eqb_refl.
      * intros x y Hxy. unfold old.
        apply Qltb_proper; [by apply pivot_eqb_timestamp|reflexivity].
    + intros [= <- <-]. exists (take k l).
      split; [done|]. split; [by rewrite take_drop|].
      split; [apply sublist_drop|done].
  - intros [= <- <-]. exists []. apply Nat.ltb_ge in Hlen.
    split; [by rewrite app_nil_r|]. split; [done|]. split; [done|lia].
Qed.

(** *** Eviction of lines *)

Lemma remove_lines_spec (to_remove ls : list line) (cr : gset (nat * nat)) :
  remove_lines to_remove ls cr =
    (λ ls', (ls', cr ∖ list_to_set (l_point_ids <$> to_remove)))
      <$> remove_each line_eqb to_remove ls.
Proof.
  revert ls cr. induction to_remove as [|l rest IH]; intros ls cr; simpl.
  - f_equal. f_equal. set_solver.
  - destruct (list_remove line_eqb l ls) as [ls'|]; simpl; [|done].
    rewrite IH. destruct (remove_each line_eqb rest ls'); simpl; [|done].
    f_equal. f_equal. set_solver.
Qed.

Lemma remove_lines_touching (removed : gset nat) (ls : list line)
    (cr : gset (nat * nat)) :
  remove_lines (filter (touches removed) ls) ls cr =
    Some (filter (λ l, negb (touches removed l)) ls,
          cr ∖ list_to_set (l_point_ids <$> filter (touches removed) ls)).
Proof.
  rewrite remove_lines_spec.
  rewrite (remove_each_filter line_eqb (touches removed)); [done|..].
  - apply line_eqb_refl.
  - apply line_eqb_touches.
Qed.

Lemma cleanup_old_lines_spec (removed_pivot_ids : list nat) (st : detector) :
  let removed : gset nat := list_to_set removed_pivot_ids in
  cleanup_old_lines removed_pivot_ids st =
    Some (set_lines
            (filter (λ l, negb (touches removed l)) (upper_lines st))
            (filter (λ l, negb (touches removed l)) (lower_lines st))
            (created_line_pairs st
               ∖ list_to_set (l_point_ids <$> filter (touches removed) (upper_lines st))
               ∖ list_to_set (l_point_ids <$> filter (touches removed) (lower_lines st)))
            st).
Proof.
  intros removed. unfold cleanup_old_lines. fold removed.
  rewrite remove_lines_touching. simpl.
  by rewrite remove_lines_touching.
Qed.

Lemma filter_all_true {A} (f : A → bool) (l : list A) :
  (∀ x, x ∈ l → f x = true) → filter f l = l.
Proof.
  induction l as [|x l IH]; intros H; [done|].
  rewrite filter_cons_bool, H by left. f_equal. apply IH.
  intros y Hy. apply H. by right.
Qed.

Lemma filter_all_false {A} (f : A → bool) (l : list A) :
  (∀ x, x ∈ l → f x = false) → filter f l = [].
Proof.
  induction l as [|x l IH]; intros H; [done|].
  rewrite filter_cons_bool, H by left. apply IH.
  intros y Hy. apply H. by right.
Qed.

Lemma touches_spec (removed : gset nat) (l : line) :
  touches removed l = true ↔
  p_id (l_point1 l) ∈ removed ∨ p_id (l_point2 l) ∈ removed.
Proof.
  unfold touches. by rewrite orb_true_iff, !bool_decide_eq_true.
Qed.

Lemma touches_empty (l : line) : touches ∅ l = false.
Proof.
  apply not_true_iff_false. rewrite touches_spec. set_solver.
Qed.

Lemma cleanup_old_candles_sublist (st : detector) :
  candles_list (cleanup_old_candles st) `sublist_of` candles_list st.
Proof.
  unfold cleanup_old_candles. destruct (candles_list st) eqn:E; [by rewrite E|].
  destruct (oldest_pivot_ts st); [|by rewrite E]. simpl. apply sublist_filter.
Qed.

Lemma cleanup_old_candles_other (st : detector) :
  set_candles (candles_list st) (cleanup_old_candles st) = st.
Proof.
  unfold cleanup_old_candles. destruct st as [pk tr cs n up lo vc cr cc]. simpl.
  destruct cs; [done|]. by destruct (oldest_pivot_ts _).
Qed.

(** [_cleanup_old_pivots] as a whole. *)
Lemma cleanup_old_pivots_spec (cfg : config) (st st' : detector)
    (removed_ids : list nat) :
  cleanup_old_pivots cfg st = Some (st', removed_ids) →
  ∃ (gone : list pivot) (removed : gset nat),
    removed = list_to_set removed_ids
    ∧ removed_ids = p_id <$> gone
    ∧ resident st ≡ₚ gone ++ resident st'
    ∧ peaks_list st' `sublist_of` peaks_list st
    ∧ troughs_list st' `sublist_of` troughs_list st
    ∧ length (peaks_list st') ≤ max_pivots cfg
    ∧ length (troughs_list st') ≤ max_pivots cfg
    ∧ next_pivot_id st' = next_pivot_id st
    ∧ upper_lines st' = filter (λ l, negb (touches removed l)) (upper_lines st)
    ∧ lower_lines st' = filter (λ l, negb (touches removed l)) (lower_lines st)
    ∧ created_line_pairs st' =
        created_line_pairs st
          ∖ list_to_set (l_point_ids <$> filter (touches removed) (upper_lines st))
          ∖ list_to_set (l_point_ids <$> filter (touches removed) (lower_lines st))
    ∧ candles_list st' `sublist_of` candles_list st.
Proof.
  unfold cleanup_old_pivots.
  destruct (evict_list cfg (peaks_list st) []) as [[pk r1]|] eqn:E1; [|done].
  simpl.
  destruct (evict_list cfg (troughs_list st) r1) as [[tr r2]|] eqn:E2; [|done].
  apply evict_list_spec in E1 as (g1 & -> & Hp1 & Hs1 & Hl1).
  apply evict_list_spec in E2 as (g2 & -> & Hp2 & Hs2 & Hl2).
  simpl. intros H. exists (g1 ++ g2).
  assert (Hperm : resident st ≡ₚ (g1 ++ g2) ++ pk ++ tr).
  { unfold resident. rewrite Hp1, Hp2. rewrite <- !app_assoc. f_equiv.
    rewrite !app_assoc. f_equiv. apply Permutation_app_comm. }
  destruct (0 <? length ((p_id <$> g1) ++ (p_id <$> g2))) eqn:Hlen.
  - rewrite cleanup_old_lines_spec in H. simpl in H.
    injection H as <- <-. eexists. split; [reflexivity|].
    set (removed := list_to_set ((p_id <$> g1) ++ (p_id <$> g2)) : gset nat).
    set (st2 := set_lines _ _ _ _).
    pose proof (cleanup_old_candles_sublist st2) as Hc.
    pose proof (cleanup_old_candles_other st2) as Ho.
    destruct (cleanup_old_candles st2) as [pk' tr' cs' n' up' lo' vc' cr' cc'].
    unfold st2 in *. simpl in *. injection Ho as -> -> -> -> -> -> -> ->.
    by rewrite fmap_app.
  - injection H as <- <-. apply Nat.ltb_ge in Hlen.
    assert (Hnil : (p_id <$> g1) ++ (p_id <$> g2) = []).
    { destruct ((p_id <$> g1) ++ (p_id <$> g2)); [done|simpl in Hlen; lia]. }
    exists ∅. rewrite Hnil. simpl.
    rewrite !(filter_all_true (λ l, negb (touches ∅ l)))
      by (intros; by rewrite touches_empty).
    rewrite !(filter_all_false (touches ∅)) by (intros; by rewrite touches_empty).
    repeat split; try done; [by rewrite fmap_app, Hnil|set_solver].
Qed.

(** *** Well-formedness is kept by every step *)

Lemma NoDup_fmap_eq {A B} (f : A → B) (l : list A) (x y : A) :
  NoDup (f <$> l) → x ∈ l → y ∈ l → f x = f y → x = y.
Proof.
  induction l as [|a l IH]; simpl; [by intros _ ?%elem_of_nil|].
  rewrite NoDup_cons. intros [Ha Hl] Hx Hy Hf.
  apply elem_of_cons in Hx as [->|Hx]; apply elem_of_cons in Hy as [->|Hy];
    [done|..|by apply IH].
  - exfalso. apply Ha. rewrite Hf. by apply list_elem_of_fmap_2.
  - exfalso. apply Ha. rewrite <- Hf. by apply list_elem_of_fmap_2.
Qed.

Lemma wf_init : wf (next_pivot_id init) init.
Proof.
  split; simpl; try (by intros ? ?%elem_of_nil); constructor.
Qed.

Lemma wf_mono (b b' : nat) (st : detector) : b ≤ b' → wf b st → wf b' st.
Proof.
  intros Hb [H1 H2 H3 H4 H5 H6]. split; try done.
  intros l Hl. destruct (H3 l Hl) as (?&?&?). repeat split; [done..|lia].
Qed.

Lemma wf_set_candles (b : nat) (cs : list candle) (st : detector) :
  wf b st → wf b (set_candles cs st).
Proof. by intros [H1 H2 H3 H4 H5 H6]. Qed.

Lemma wf_ingest_candle (b : nat) (c : option candle) (st : detector) :
  wf b st → wf b (ingest_candle c st).
Proof. destruct c; [apply wf_set_candles|done]. Qed.

Lemma resident_ingest_pivot (pv : raw_pivot) (st : detector) :
  resident (ingest_pivot pv st) ≡ₚ
    resident st ++ [{| p_id := next_pivot_id st; p_timestamp := r_timestamp pv;
                       p_price := r_price pv; p_type := r_type pv |}].
Proof.
  unfold ingest_pivot, resident. destruct (r_type pv); simpl.
  - rewrite <- !app_assoc. f_equiv. apply Permutation_app_comm.
  - by rewrite app_assoc.
Qed.

Lemma ingest_pivot_other (pv : raw_pivot) (st : detector) :
  next_pivot_id (ingest_pivot pv st) = S (next_pivot_id st)
  ∧ lines (ingest_pivot pv st) = lines st
  ∧ created_line_pairs (ingest_pivot pv st) = created_line_pairs st
  ∧ candles_list (ingest_pivot pv st) = candles_list st.
Proof. unfold ingest_pivot, lines. by destruct (r_type pv). Qed.

Lemma wf_ingest_pivot (pv : raw_pivot) (st : detector) :
  wf (next_pivot_id st) st → wf (next_pivot_id st) (ingest_pivot pv st).
Proof.
  intros [H1 H2 H3 H4 H5 H6].
  destruct (ingest_pivot_other pv st) as (Hn & Hl & Hc & _).
  pose proof (resident_ingest_pivot pv st) as Hr.
  split; rewrite ?Hl, ?Hc, ?Hn; try done.
  - intros p. rewrite Hr, elem_of_app, list_elem_of_singleton.
    intros [Hp| ->]; [apply H1 in Hp; lia|simpl; lia].
  - rewrite Hr, fmap_app. apply NoDup_app. split; [done|].
    split; [|apply NoDup_singleton].
    intros i (p & -> & Hp)%list_elem_of_fmap Heq%list_elem_of_singleton.
    apply H1 in Hp. simpl in Heq. lia.
  - intros l Hl'. destruct (H3 l Hl') as (Ha & Hb & Hlt).
    rewrite Hr, fmap_app, !elem_of_app. auto.
Qed.

Lemma cleaned_lines (removed : gset nat) (st st' : detector) (l : line) :
  upper_lines st' = filter (λ l, negb (touches removed l)) (upper_lines st) →
  lower_lines st' = filter (λ l, negb (touches removed l)) (lower_lines st) →
  l ∈ lines st' ↔ l ∈ lines st ∧ touches removed l = false.
Proof.
  intros Hu Hl. unfold lines. rewrite Hu, Hl, !elem_of_app, !elem_of_filter_bool.
  rewrite negb_true_iff. tauto.
Qed.

Lemma wf_cleanup_old_pivots (cfg : config) (b : nat) (st st' : detector)
    (removed_ids : list nat) :
  wf b st → cleanup_old_pivots cfg st = Some (st', removed_ids) → wf b st'.
Proof.
  intros [H1 H2 H3 H4 H5 H6] Hc.
  apply cleanup_old_pivots_spec in Hc
    as (gone & removed & Hset & Hrem & Hperm & _ & _ & _ & _ & Hn & Hu & Hl & Hcr & _).
  assert (Hlines : ∀ l, l ∈ lines st' → l ∈ lines st ∧ touches removed l = false)
    by (intros l; by apply cleaned_lines).
  assert (Hres : ∀ p, p ∈ resident st' → p ∈ resident st).
  { intros p Hp. rewrite Hperm, elem_of_app. by right. }
  assert (Hstay : ∀ i, i ∈ (p_id <$> resident st) → i ∉ removed →
                       i ∈ (p_id <$> resident st')).
  { intros i. rewrite Hperm, fmap_app, elem_of_app. intros [Hi|Hi] Hni; [|done].
    exfalso. apply Hni. rewrite Hset, Hrem. by apply elem_of_list_to_set. }
  split.
  - intros p Hp. rewrite Hn. auto.
  - rewrite Hperm, fmap_app in H2. by apply NoDup_app in H2 as (_ & _ & ?).
  - intros l [Hin Ht]%Hlines.
    destruct (H3 l Hin) as (Ha & Hb & Hlt).
    apply not_true_iff_false in Ht. rewrite touches_spec in Ht.
    repeat split; [apply Hstay..|]; tauto.
  - intros l [Hin Ht]%Hlines. auto.
  - assert (Hsub : lines st' `sublist_of` lines st).
    { unfold lines. rewrite Hu, Hl. apply sublist_app; apply sublist_filter. }
    apply (sublist_NoDup _ (l_point_ids <$> lines st)); [done|].
    by apply fmap_sublist.
  - intros l [Hin Ht]%Hlines. rewrite Hcr.
    assert (Hnot : ∀ ls, ls `sublist_of` lines st →
              l_point_ids l ∉ (list_to_set (l_point_ids <$> filter (touches removed) ls)
                                : gset (nat * nat))).
    { intros ls Hls. rewrite elem_of_list_to_set.
      intros (k & Hk & [Htk Hkin]%elem_of_filter_bool)%list_elem_of_fmap.
      assert (k ∈ lines st) as Hkl by by eapply elem_of_sublist.
      assert (l = k) as -> by by eapply (NoDup_fmap_eq l_point_ids).
      congruence. }
    pose proof (Hnot (upper_lines st)) as Hnu.
    pose proof (Hnot (lower_lines st)) as Hnl.
    apply elem_of_difference. split; [apply elem_of_difference; split|].
    + by apply H6.
    + apply Hnu. by apply sublist_inserts_r.
    + apply Hnl. by apply sublist_inserts_l.
Qed.

(** *** Re-validation *)

Lemma validate_true_OK (cfg : config) (candles : list candle) (l : line)
    (why : reason) :
  validate_single_line cfg candles l = Some (true, why) → why = OK.
Proof.
  unfold validate_single_line.
  destruct (slope_check cfg l); [done|].
  destruct (Qltb _ _); [done|].
  destruct (check_line_penetration cfg candles l) as [[[] ?]|]; congruence.
Qed.

Lemma accepted_spec (cfg : config) (candles : list candle) (l : line) :
  accepted cfg candles l = true ↔
  validate_single_line cfg candles l = Some (true, OK).
Proof.
  unfold accepted.
  destruct (validate_single_line cfg candles l) as [[[] why]|] eqn:E;
    split; try done.
  intros _. by rewrite (validate_true_OK _ _ _ _ E).
Qed.

Lemma keep_valid_spec (cfg : config) (candles : list candle) (ls : list line)
    (cr : gset (nat * nat)) (ls' : list line) (cr' : gset (nat * nat)) :
  keep_valid cfg candles ls cr = Some (ls', cr') →
  ls' = filter (accepted cfg candles) ls
  ∧ cr' = cr ∖ list_to_set (l_point_ids <$> filter (rejected cfg candles) ls)
  ∧ ∀ l, l ∈ ls → accepted cfg candles l = negb (rejected cfg candles l).
Proof.
  revert cr ls' cr'. induction ls as [|l ls IH]; intros cr ls' cr'; simpl.
  - intros [= <- <-]. split; [done|]. split; [set_solver|].
    by intros ? ?%elem_of_nil.
  - rewrite !filter_cons_bool.
    assert (Hl : ∀ v, validate_single_line cfg candles l = Some v →
                      accepted cfg candles l = v.1
                      ∧ rejected cfg candles l = negb v.1).
    { intros [[] ?] Hv; unfold accepted, rejected; by rewrite Hv. }
    destruct (validate_single_line cfg candles l) as [[ok why]|]; [|done].
    destruct (Hl _ eq_refl) as [-> ->]. simpl.
    assert (Hcons : ∀ k, (∀ k, k ∈ ls → accepted cfg candles k
                                          = negb (rejected cfg candles k)) →
              k ∈ l :: ls →
              accepted cfg candles k = negb (rejected cfg candles k)).
    { intros k Hall [->|Hk]%elem_of_cons; [|by apply Hall].
      destruct (Hl _ eq_refl) as [-> ->]. by destruct ok. }
    destruct ok; simpl.
    + destruct (keep_valid cfg candles ls cr) as [[v c]|] eqn:E; [|done].
      simpl. intros [= <- <-]. destruct (IH _ _ _ E) as (-> & -> & Hall).
      repeat split; try done. intros k. by apply Hcons.
    + intros E. destruct (IH _ _ _ E) as (-> & -> & Hall).
      split; [done|]. split; [set_solver|]. intros k. by apply Hcons.
Qed.

Lemma update_valid_lines_spec (cfg : config) (st st' : detector) :
  update_valid_lines cfg st = Some st' →
  st' = set_lines
          (filter (accepted cfg (candles_list st)) (upper_lines st))
          (filter (accepted cfg (candles_list st)) (lower_lines st))
          (created_line_pairs st
             ∖ list_to_set (l_point_ids <$>
                 filter (rejected cfg (candles_list st)) (upper_lines st))
             ∖ list_to_set (l_point_ids <$>
                 filter (rejected cfg (candles_list st)) (lower_lines st)))
          st
  ∧ ∀ l, l ∈ lines st →
         accepted cfg (candles_list st) l = negb (rejected cfg (candles_list st) l).
Proof.
  unfold update_valid_lines.
  destruct (keep_valid cfg (candles_list st) (upper_lines st) _)
    as [[vu c1]|] eqn:E1; [|done]. simpl.
  destruct (keep_valid cfg (candles_list st) (lower_lines st) c1)
    as [[vl c2]|] eqn:E2; [|done]. simpl.
  intros [= <-].
  apply keep_valid_spec in E1 as (-> & -> & H1).
  apply keep_valid_spec in E2 as (-> & -> & H2).
  split; [done|]. intros l [?|?]%elem_of_app; auto.
Qed.

(** Dropping lines, and the pairs of the dropped ones, keeps a state
    well-formed. *)
Lemma wf_drop_lines (b : nat) (keep drop : line → bool) (st : detector) :
  (∀ l, l ∈ lines st → keep l = negb (drop l)) →
  wf b st →
  wf b (set_lines (filter keep (upper_lines st)) (filter keep (lower_lines st))
          (created_line_pairs st
             ∖ list_to_set (l_point_ids <$> filter drop (upper_lines st))
             ∖ list_to_set (l_point_ids <$> filter drop (lower_lines st)))
          st).
Proof.
  intros Hkd [H1 H2 H3 H4 H5 H6].
  assert (Hin : ∀ l, l ∈ filter keep (upper_lines st) ++ filter keep (lower_lines st)
                     → l ∈ lines st ∧ keep l = true).
  { intros l. unfold lines. rewrite !elem_of_app, !elem_of_filter_bool. tauto. }
  split; try done; unfold lines at 1; simpl.
  - intros l [Hl _]%Hin. auto.
  - intros l [Hl _]%Hin. auto.
  - apply (sublist_NoDup _ (l_point_ids <$> lines st)); [done|].
    apply fmap_sublist, sublist_app; apply sublist_filter.
  - intros l [Hl Hk]%Hin.
    assert (Hnot : ∀ ls, ls `sublist_of` lines st →
              l_point_ids l ∉ (list_to_set (l_point_ids <$> filter drop ls)
                                : gset (nat * nat))).
    { intros ls Hls. rewrite elem_of_list_to_set.
      intros (k & Hk' & [Hdk Hkin]%elem_of_filter_bool)%list_elem_of_fmap.
      assert (k ∈ lines st) as Hkl by by eapply elem_of_sublist.
      assert (l = k) as -> by by eapply (NoDup_fmap_eq l_point_ids).
      rewrite Hkd, Hdk in Hk by done. done. }
    apply elem_of_difference. split; [apply elem_of_difference; split|].
    + by apply H6.
    + apply Hnot. by apply sublist_inserts_r.
    + apply Hnot. by apply sublist_inserts_l.
Qed.

Lemma wf_update_valid_lines (cfg : config) (b : nat) (st st' : detector) :
  wf b st → update_valid_lines cfg st = Some st' → wf b st'.
Proof.
  intros Hwf (-> & Hall)%update_valid_lines_spec. by apply wf_drop_lines.
Qed.

(** After a re-validation every resident line passes against the window. *)
Lemma update_valid_lines_valid (cfg : config) (st st' : detector) (l : line) :
  update_valid_lines cfg st = Some st' → l ∈ lines st' →
  validate_single_line cfg (candles_list st') l = Some (true, OK).
Proof.
  intros (-> & _)%update_valid_lines_spec. unfold lines. simpl.
  rewrite elem_of_app, !elem_of_filter_bool, !accepted_spec. tauto.
Qed.

(** *** Generation of candidate lines *)

Lemma find_pivot_Some (i : nat) (l : list pivot) (p : pivot) :
  find_pivot i l = Some p → p ∈ l ∧ p_id p = i.
Proof.
  intros [Hin Heq]%find_some. split; [by apply list_elem_of_In|].
  by apply Nat.eqb_eq.
Qed.

Lemma locate_Some (i : nat) (st : detector) (np : pivot) (pl : list pivot) :
  locate i st = Some (np, pl) →
  np ∈ pl ∧ p_id np = i ∧ (pl = peaks_list st ∨ pl = troughs_list st).
Proof.
  unfold locate.
  destruct (find_pivot i (peaks_list st)) as [p|] eqn:E1.
  - intros [= <- <-]. apply find_pivot_Some in E1 as [? ?]. auto.
  - destruct (find_pivot i (troughs_list st)) as [q|] eqn:E2; [|done].
    intros [= <- <-]. apply find_pivot_Some in E2 as [? ?]. auto.
Qed.

Lemma sorted_pair_lt (a b : nat) : (a < b)%nat → sorted_pair a b = (a, b).
Proof.
  intros H. unfold sorted_pair. destruct (b <? a) eqn:E; [|done].
  apply Nat.ltb_lt in E. lia.
Qed.

(** The loop over the pivot list: what it appends and what it records. *)
Lemma pair_with_spec (nid : nat) (np : pivot) (pl : list pivot)
    (nl : list line) (cr : gset (nat * nat)) (nl' : list line)
    (cr' : gset (nat * nat)) :
  pair_with nid np pl nl cr = (nl', cr') →
  ∃ news,
    nl' = nl ++ news
    ∧ cr ⊆ cr'
    ∧ ((p_id ∘ l_point1) <$> news) `sublist_of` (p_id <$> pl)
    ∧ ∀ l, l ∈ news →
        ∃ old, old ∈ pl ∧ p_id old ≠ nid ∧ create_line old np = Some l
               ∧ sorted_pair (p_id old) (p_id np) ∈ cr'.
Proof.
  revert nl cr. induction pl as [|old pl IH]; intros nl cr.
  - intros [= <- <-]. exists []. rewrite app_nil_r.
    repeat split; [done..|]. by intros ? ?%elem_of_nil.
  - assert (Hskip : pair_with nid np pl nl cr = (nl', cr') →
      ∃ news, nl' = nl ++ news ∧ cr ⊆ cr'
        ∧ ((p_id ∘ l_point1) <$> news) `sublist_of` (p_id <$> old :: pl)
        ∧ ∀ l, l ∈ news →
            ∃ o, o ∈ old :: pl ∧ p_id o ≠ nid ∧ create_line o np = Some l
                 ∧ sorted_pair (p_id o) (p_id np) ∈ cr').
    { intros (news & H1 & H2 & H3 & H4)%IH.
      exists news. split; [done|]. split; [done|].
      split; [by apply sublist_cons|].
      intros l Hl. destruct (H4 l Hl) as (o & ? & ? & ? & ?).
      exists o. split; [by right|done]. }
    cbn [pair_with]. destruct (p_id old =? nid) eqn:Eid; [done|].
    destruct (bool_decide _) eqn:Ecr; [done|].
    destruct (create_line old np) as [l0|] eqn:Ecl; [|done].
    intros (news & H1 & H2 & H3 & H4)%IH.
    exists (l0 :: news). rewrite H1, <- app_assoc. split; [done|].
    split; [set_solver|]. split.
    + simpl. destruct (create_line_inv _ _ _ Ecl) as (-> & _).
      by apply sublist_skip.
    + intros l [->|Hl]%elem_of_cons.
      * exists old. split; [by left|]. apply Nat.eqb_neq in Eid.
        repeat split; [done..|]. apply H2. set_solver.
      * destruct (H4 l Hl) as (o & ? & ? & ? & ?).
        exists o. split; [by right|done].
Qed.

Lemma store_lines_spec (new_lines up lo : list line) :
  store_lines new_lines up lo =
    (up ++ filter (λ l, line_type_eqb (l_type l) upper) new_lines,
     lo ++ filter (λ l, negb (line_type_eqb (l_type l) upper)) new_lines).
Proof.
  revert up lo. induction new_lines as [|l ls IH]; intros up lo; simpl.
  - by rewrite !app_nil_r.
  - rewrite !filter_cons_bool.
    destruct (l_type l); simpl; rewrite IH; by rewrite <- app_assoc.
Qed.

Lemma store_lines_perm (new_lines up lo : list line) :
  (store_lines new_lines up lo).1 ++ (store_lines new_lines up lo).2
    ≡ₚ (up ++ lo) ++ new_lines.
Proof.
  rewrite store_lines_spec. simpl.
  rewrite (filter_split_bool (λ l, line_type_eqb (l_type l) upper) new_lines) at 3.
  rewrite <- !app_assoc. f_equiv. rewrite !app_assoc. f_equiv.
  apply Permutation_app_comm.
Qed.

Lemma set_lines_id (st : detector) :
  set_lines (upper_lines st) (lower_lines st) (created_line_pairs st) st = st.
Proof. by destruct st. Qed.

Lemma generate_new_lines_unfold (cfg : config) (n : nat) (st : detector) :
  generate_new_lines cfg n st =
    if 0 <? length (candidates n st).1
    then update_valid_lines cfg (with_candidates n st)
    else Some (with_candidates n st).
Proof.
  unfold generate_new_lines, with_candidates, candidates.
  destruct (locate n st) as [[np pl]|]; simpl.
  - destruct (pair_with n np pl [] (created_line_pairs st)) as [news cr].
    simpl. by destruct (store_lines news _ _).
  - by rewrite set_lines_id.
Qed.

Lemma wf_with_candidates (n : nat) (st : detector) :
  wf n st → next_pivot_id st = S n → wf (S n) (with_candidates n st).
Proof.
  intros Hwf Hn. unfold with_candidates, candidates.
  destruct (locate n st) as [[np pl]|] eqn:Hloc; simpl.
  2: { rewrite set_lines_id. apply (wf_mono n); [lia|done]. }
  apply locate_Some in Hloc as (Hnp & Hid & Hpl).
  destruct (pair_with n np pl [] (created_line_pairs st)) as [nl cr] eqn:Hpw.
  apply pair_with_spec in Hpw as (news & -> & Hcr & Hsub & Hnews). simpl in *.
  destruct Hwf as [H1 H2 H3 H4 H5 H6].
  assert (Hres : ∀ p, p ∈ pl → p ∈ resident st).
  { intros p Hp. unfold resident. rewrite elem_of_app.
    destruct Hpl as [<-| <-]; auto. }
  assert (Hnew : ∀ l, l ∈ news →
            l_point2 l = np ∧ l_point1 l ∈ pl
            ∧ (p_id (l_point1 l) < n)%nat
            ∧ l_point_ids l = (p_id (l_point1 l), n)
            ∧ l_point_ids l ∈ cr).
  { intros l (old & Hold & Hne & Hcl & Hpair)%Hnews.
    destruct (create_line_inv _ _ _ Hcl) as (-> & -> & -> & _).
    assert (p_id old < n)%nat as Hlt.
    { pose proof (H1 old (Hres _ Hold)). lia. }
    rewrite Hid in *. rewrite sorted_pair_lt in Hpair by done. done. }
  pose proof (store_lines_perm news (upper_lines st) (lower_lines st)) as Hperm.
  fold (lines st) in Hperm.
  split; simpl; try done; unfold lines at 1; simpl.
  - intros l. rewrite Hperm, elem_of_app. intros [Hl|Hl].
    + destruct (H3 l Hl) as (? & ? & ?). repeat split; [done..|lia].
    + destruct (Hnew l Hl) as (-> & Hp1 & _ & _ & _).
      repeat split; [by apply list_elem_of_fmap_2, Hres..|lia].
  - intros l. rewrite Hperm, elem_of_app. intros [Hl|Hl]; [auto|].
    destruct (Hnew l Hl) as (-> & _ & ? & ? & _). by rewrite Hid.
  - rewrite Hperm, fmap_app. apply NoDup_app. split; [done|]. split.
    + intros pr (l & -> & Hl)%list_elem_of_fmap (k & Heq & Hk)%list_elem_of_fmap.
      destruct (Hnew k Hk) as (_ & _ & _ & Hpk & _).
      destruct (H3 l Hl) as (_ & _ & Hlt). destruct (H4 l Hl) as (_ & Hpl').
      rewrite Hpl', Hpk in Heq. injection Heq as _ Heq. lia.
    + assert (Hmap : l_point_ids <$> news
                     = (λ i, (i, n)) <$> ((p_id ∘ l_point1) <$> news)).
      { rewrite <- list_fmap_compose. apply list_fmap_ext.
        intros i l Hil. simpl. apply list_elem_of_lookup_2 in Hil.
        by destruct (Hnew l Hil) as (_ & _ & _ & -> & _). }
      rewrite Hmap. apply NoDup_fmap_2; [by intros ?? [= ->]|].
      apply (sublist_NoDup _ (p_id <$> pl)); [|done].
      apply (sublist_NoDup _ (p_id <$> resident st)); [done|].
      apply fmap_sublist. unfold resident.
      destruct Hpl as [-> | ->];
        [by apply sublist_inserts_r|by apply sublist_inserts_l].
  - intros l. rewrite Hperm, elem_of_app. intros [Hl|Hl].
    + apply Hcr. auto.
    + by destruct (Hnew l Hl) as (_ & _ & _ & _ & ?).
Qed.

Lemma wf_generate_new_lines (cfg : config) (n : nat) (st st' : detector) :
  wf n st → next_pivot_id st = S n →
  generate_new_lines cfg n st = Some st' → wf (S n) st'.
Proof.
  intros Hwf Hn. rewrite generate_new_lines_unfold.
  pose proof (wf_with_candidates n st Hwf Hn) as Hwc.
  destruct (0 <? _).
  - by apply wf_update_valid_lines.
  - by intros [= <-].
Qed.

(** *** One call of [add_pivot] *)

Lemma generate_new_lines_other (cfg : config) (n : nat) (st st' : detector) :
  generate_new_lines cfg n st = Some st' →
  peaks_list st' = peaks_list st ∧ troughs_list st' = troughs_list st
  ∧ candles_list st' = candles_list st ∧ next_pivot_id st' = next_pivot_id st.
Proof.
  rewrite generate_new_lines_unfold. destruct (0 <? _).
  - by intros (-> & _)%update_valid_lines_spec.
  - by intros [= <-].
Qed.

Lemma ingest_candle_other (c : option candle) (st : detector) :
  peaks_list (ingest_candle c st) = peaks_list st
  ∧ troughs_list (ingest_candle c st) = troughs_list st
  ∧ next_pivot_id (ingest_candle c st) = next_pivot_id st
  ∧ upper_lines (ingest_candle c st) = upper_lines st
  ∧ lower_lines (ingest_candle c st) = lower_lines st
  ∧ created_line_pairs (ingest_candle c st) = created_line_pairs st
  ∧ length (candles_list (ingest_candle c st)) ≤ S (length (candles_list st)).
Proof.
  destruct c; simpl; repeat split; try lia. rewrite length_app. simpl. lia.
Qed.

(** Everything the invariants need to know about one call. *)
Lemma add_pivot_log_step (cfg : config) (st st' : detector) (rec : zigzag_output)
    (ret : option nat) (removed_ids : list nat) :
  wf (next_pivot_id st) st →
  add_pivot_log cfg st rec = Some (st', ret, removed_ids) →
  wf (next_pivot_id st') st'
  ∧ next_pivot_id st ≤ next_pivot_id st'
  ∧ (∀ i, i ∈ (p_id <$> resident st') →
          i ∈ (p_id <$> resident st) ∨ i = next_pivot_id st)
  ∧ (∀ i, i ∈ removed_ids → gone_for_good st' i)
  ∧ (bounded cfg st → bounded cfg st')
  ∧ length (candles_list st') ≤ S (length (candles_list st))
  ∧ ret = (λ _, next_pivot_id st) <$> zz_pivot rec.
Proof.
  intros Hwf. unfold add_pivot_log.
  destruct (ingest_candle_other (zz_candle rec) st)
    as (Hpk & Htr & Hn & Hup & Hlo & Hcr & Hlen).
  pose proof (wf_ingest_candle _ (zz_candle rec) _ Hwf) as Hwf0.
  set (st0 := ingest_candle (zz_candle rec) st) in *.
  assert (Hres0 : resident st0 = resident st) by (unfold resident; congruence).
  destruct (zz_pivot rec) as [pv|]; simpl.
  2: { intros [= <- <- <-]. rewrite Hn, Hres0. unfold bounded.
       rewrite Hpk, Htr. split; [done|]. split; [done|].
       split; [auto|]. split; [by intros ? ?%elem_of_nil|]. done. }
  rewrite <- Hn in Hwf0. apply (wf_ingest_pivot pv) in Hwf0.
  destruct (ingest_pivot_other pv st0) as (Hn1 & _ & _ & Hc1).
  pose proof (resident_ingest_pivot pv st0) as Hres1.
  set (st1 := ingest_pivot pv st0) in *.
  destruct (cleanup_old_pivots cfg st1) as [[st2 rem]|] eqn:Hcl; [|done]. simpl.
  pose proof (wf_cleanup_old_pivots _ _ _ _ _ Hwf0 Hcl) as Hwf2.
  apply cleanup_old_pivots_spec in Hcl
    as (gone & removed & _ & Hrem & Hperm & _ & _ & Hb1 & Hb2 & Hn2 & _ & _ & _ & Hc2).
  destruct (generate_new_lines cfg (next_pivot_id st0) st2) as [st3|] eqn:Hg;
    [|done]. simpl.
  intros [= <- <- <-].
  destruct (generate_new_lines_other _ _ _ _ Hg) as (Hpk3 & Htr3 & Hc3 & Hn3).
  assert (Hres3 : resident st3 = resident st2) by (unfold resident; congruence).
  apply wf_generate_new_lines in Hg; [|done|congruence].
  rewrite Hn3, Hn2, Hn1, Hn, Hres3.
  split; [by rewrite Hn in Hg|]. split; [lia|]. split; [|split; [|split; [|split]]].
  - intros i (p & -> & Hp)%list_elem_of_fmap.
    assert (p ∈ resident st1) as Hp1 by (rewrite Hperm, elem_of_app; by right).
    rewrite Hres1, elem_of_app, list_elem_of_singleton in Hp1.
    destruct Hp1 as [Hp1| ->]; [left|right; simpl; congruence].
    rewrite <- Hres0. by apply list_elem_of_fmap_2.
  - intros i Hi. rewrite Hrem in Hi. destruct Hwf0 as [H1 H2 _ _ _ _].
    rewrite Hperm, fmap_app in H2. apply NoDup_app in H2 as (_ & Hdisj & _).
    unfold gone_for_good. rewrite Hres3, Hn3, Hn2.
    split; [|by apply Hdisj].
    apply list_elem_of_fmap in Hi as (p & -> & Hp).
    apply H1. rewrite Hperm, elem_of_app. by left.
  - intros _. unfold bounded. by rewrite Hpk3, Htr3.
  - rewrite Hc3. apply sublist_length in Hc2. rewrite Hc1 in Hc2. lia.
  - done.
Qed.

(** *** Sequences of calls *)

Lemma run_run_log (cfg : config) (recs : list zigzag_output) (st : detector) :
  run cfg st recs = (λ r, r.1.1) <$> run_log cfg st recs.
Proof.
  revert st. induction recs as [|rec rest IH]; intros st; [done|].
  simpl. unfold add_pivot.
  destruct (add_pivot_log cfg st rec) as [[[st1 ret] rem]|]; [|done]. simpl.
  rewrite IH. by destruct (run_log cfg st1 rest) as [[[? ?] ?]|].
Qed.

Lemma run_Some_log (cfg : config) (recs : list zigzag_output) (st st' : detector) :
  run cfg st recs = Some st' →
  ∃ rets evicted, run_log cfg st recs = Some (st', rets, evicted).
Proof.
  rewrite run_run_log.
  destruct (run_log cfg st recs) as [[[? ?] ?]|]; [|done].
  intros [= <-]. eauto.
Qed.

Lemma gone_for_good_step (cfg : config) (st st' : detector) (rec : zigzag_output)
    (ret : option nat) (removed_ids : list nat) (i : nat) :
  wf (next_pivot_id st) st →
  add_pivot_log cfg st rec = Some (st', ret, removed_ids) →
  gone_for_good st i → gone_for_good st' i.
Proof.
  intros Hwf Hstep [Hlt Hni].
  destruct (add_pivot_log_step _ _ _ _ _ _ Hwf Hstep) as (_ & Hn & Hids & _).
  split; [lia|]. intros [?| ->]%Hids; [done|lia].
Qed.

(** The invariants along a whole sequence of calls. *)
Lemma run_log_invariant (cfg : config) (recs : list zigzag_output)
    (st st' : detector) (rets : list (option nat)) (evicted : list nat) :
  wf (next_pivot_id st) st →
  run_log cfg st recs = Some (st', rets, evicted) →
  wf (next_pivot_id st') st'
  ∧ (bounded cfg st → bounded cfg st')
  ∧ length (candles_list st') ≤ length (candles_list st) + length recs
  ∧ (∀ i, gone_for_good st i → gone_for_good st' i)
  ∧ (∀ i, i ∈ evicted → gone_for_good st' i).
Proof.
  revert st rets evicted.
  induction recs as [|rec rest IH]; intros st rets evicted Hwf; simpl.
  - intros [= <- <- <-]. split; [done|]. split; [done|]. split; [lia|].
    split; [done|]. by intros ? ?%elem_of_nil.
  - destruct (add_pivot_log cfg st rec) as [[[st1 ret] rem]|] eqn:Hstep; [|done].
    simpl.
    destruct (run_log cfg st1 rest) as [[[st2 rets2] ev2]|] eqn:Hrun; [|done].
    simpl. intros [= <- <- <-].
    destruct (add_pivot_log_step _ _ _ _ _ _ Hwf Hstep)
      as (Hwf1 & _ & _ & Hrem & Hb & Hc & _).
    destruct (IH _ _ _ Hwf1 Hrun) as (Hwf2 & Hb2 & Hc2 & Hg2 & Hev2).
    split; [done|]. split; [auto|]. split; [lia|]. split.
    + intros i Hi. apply Hg2. exact (gone_for_good_step _ _ _ _ _ _ _ Hwf Hstep Hi).
    + intros i [Hi|Hi]%elem_of_app; auto.
Qed.

(** *** The window *)

(** C5: after any sequence of calls on a fresh instance, neither pivot list
    is longer than [max_pivots]. *)
Theorem bounded_window (cfg : config) (recs : list zigzag_output) (st : detector) :
  run cfg init recs = Some st →
  length (peaks_list st) ≤ max_pivots cfg
  ∧ length (troughs_list st) ≤ max_pivots cfg.
Proof.
  intros (rets & ev & Hrun)%run_Some_log.
  destruct (run_log_invariant _ _ _ _ _ _ wf_init Hrun) as (_ & Hb & _).
  apply Hb. unfold bounded. simpl. lia.
Qed.

(** C4, as the code has it: the pivot lists are capped by [max_pivots], but
    the candle list is only capped by the number of records processed, one
    candle at most being added per call. *)
Theorem candles_bounded_by_calls (cfg : config) (recs : list zigzag_output)
    (st : detector) :
  run cfg init recs = Some st →
  length (peaks_list st) ≤ max_pivots cfg
  ∧ length (troughs_list st) ≤ max_pivots cfg
  ∧ length (candles_list st) ≤ length recs.
Proof.
  intros (rets & ev & Hrun)%run_Some_log.
  destruct (run_log_invariant _ _ _ _ _ _ wf_init Hrun) as (_ & Hb & Hc & _).
  destruct Hb as [? ?]; [unfold bounded; simpl; lia|]. simpl in Hc. done.
Qed.

(** *** The resident lines *)

Lemma wf_endpoint_pair (b : nat) (st : detector) (l : line) :
  wf b st → l ∈ lines st → l_point_ids l = endpoint_pair l.
Proof.
  intros Hwf Hl. destruct (wf_ordered _ _ Hwf l Hl) as [Hlt ->].
  unfold endpoint_pair. by rewrite sorted_pair_lt.
Qed.

(** C6: after any sequence of calls, no two lines of [upper_lines] have the
    same unordered pair of endpoint ids, and neither do two of
    [lower_lines]. *)
Theorem no_duplicate_lines (cfg : config) (recs : list zigzag_output)
    (st : detector) :
  run cfg init recs = Some st →
  NoDup (endpoint_pair <$> upper_lines st)
  ∧ NoDup (endpoint_pair <$> lower_lines st).
Proof.
  intros (rets & ev & Hrun)%run_Some_log.
  destruct (run_log_invariant _ _ _ _ _ _ wf_init Hrun) as (Hwf & _).
  assert (Heq : endpoint_pair <$> lines st = l_point_ids <$> lines st).
  { apply list_fmap_ext. intros i l Hl%list_elem_of_lookup_2.
    symmetry. by eapply wf_endpoint_pair. }
  pose proof (wf_pairs_nodup _ _ Hwf) as Hnd. rewrite <- Heq in Hnd.
  unfold lines in Hnd. rewrite fmap_app in Hnd.
  by apply NoDup_app in Hnd as (? & _ & ?).
Qed.

(** C7: no resident line has an endpoint whose id was evicted by any call
    so far. *)
Theorem eviction_cascade (cfg : config) (recs : list zigzag_output)
    (st : detector) (rets : list (option nat)) (evicted : list nat) :
  run_log cfg init recs = Some (st, rets, evicted) →
  ∀ l, l ∈ upper_lines st ++ lower_lines st →
       (p_id (l_point1 l) ∉ evicted) ∧ (p_id (l_point2 l) ∉ evicted).
Proof.
  intros Hrun l Hl.
  destruct (run_log_invariant _ _ _ _ _ _ wf_init Hrun) as (Hwf & _ & _ & _ & Hev).
  destruct (wf_endpoints _ _ Hwf l Hl) as (H1 & H2 & _).
  split; intros [_ Hgone]%Hev; done.
Qed.

(** When a call generated at least one candidate line, every line resident
    after it passes the three checks against the candle window of the
    resulting state, whatever the state before the call. *)
Lemma all_valid_after_generation (cfg : config) (st st' : detector)
    (rec : zigzag_output) (ret : option nat) :
  add_pivot cfg st rec = Some (st', ret) →
  generated cfg st rec ≠ [] →
  ∀ l, l ∈ upper_lines st' ++ lower_lines st' →
       validate_single_line cfg (candles_list st') l = Some (true, OK).
Proof.
  unfold add_pivot, add_pivot_log, generated.
  destruct (zz_pivot rec) as [pv|]; [|done].
  destruct (cleanup_old_pivots cfg _) as [[st2 rem]|]; [|done]. simpl.
  rewrite generate_new_lines_unfold.
  destruct (candidates _ st2).1 as [|l0 news] eqn:Hc; [done|]. simpl.
  destruct (update_valid_lines cfg _) as [st3|] eqn:Hu; [|done]. simpl.
  intros [= <- <-] _ l Hl. by eapply update_valid_lines_valid.
Qed.

(** *** Reset *)

Lemma reset_init (st : detector) : reset st = init.
Proof. done. Qed.

(** C8: after [reset], the same sequence of records gives the same final
    state (so the same resident lines) and the same returned ids, and the
    ids start again at zero. *)
Theorem reset_idempotence (cfg : config) (recs : list zigzag_output)
    (st : detector) (rets : list (option nat)) (evicted : list nat) :
  run_log cfg init recs = Some (st, rets, evicted) →
  run_log cfg (reset st) recs = Some (st, rets, evicted)
  ∧ next_pivot_id (reset st) = 0%nat
  ∧ ∀ rec st1 ret1 ev1,
      add_pivot_log cfg (reset st) rec = Some (st1, ret1, ev1) →
      ret1 = (λ _, 0%nat) <$> zz_pivot rec.
Proof.
  intros Hrun. rewrite reset_init. split; [done|]. split; [done|].
  intros rec st1 ret1 ev1 Hstep.
  by destruct (add_pivot_log_step _ _ _ _ _ _ wf_init Hstep)
    as (_ & _ & _ & _ & _ & _ & ->).
Qed.

(** *** Timestamps are only read through [to_ms] *)

Lemma py_int_inject_Z (z : Z) : py_int (inject_Z z) = z.
Proof. unfold py_int, inject_Z. simpl. apply Z.quot_1_r. Qed.

Lemma penetration_to_ms_eq (ts : pyval) : penetration_to_ms ts = cleanup_to_ms ts.
Proof. done. Qed.

Lemma to_ms_normalize (c : candle) :
  cleanup_to_ms (c_timestamp (normalize_candle c)) = cleanup_to_ms (c_timestamp c).
Proof. simpl. apply py_int_inject_Z. Qed.

Lemma filter_fmap_bool {A B} (f : B → bool) (g : A → B) (l : list A) :
  filter f (g <$> l) = g <$> filter (λ x, f (g x)) l.
Proof.
  induction l as [|x l IH]; [done|].
  rewrite fmap_cons, !filter_cons_bool. destruct (f (g x)); simpl; by rewrite IH.
Qed.

Lemma filter_ext_bool {A} (f g : A → bool) (l : list A) :
  (∀ x, f x = g x) → filter f l = filter g l.
Proof.
  intros H. induction l as [|x l IH]; [done|].
  by rewrite !filter_cons_bool, H, IH.
Qed.

Lemma is_between_normalize (l : line) (c : candle) :
  is_between l (normalize_candle c) = is_between l c.
Proof.
  unfold is_between. by rewrite !penetration_to_ms_eq, to_ms_normalize.
Qed.

Lemma penetrates_normalize (l : line) (c : candle) :
  penetrates l (normalize_candle c) = penetrates l c.
Proof.
  unfold penetrates. by rewrite !penetration_to_ms_eq, to_ms_normalize.
Qed.

Lemma penetration_pct_normalize (l : line) (c : candle) :
  penetration_pct l (normalize_candle c) = penetration_pct l c.
Proof.
  unfold penetration_pct. by rewrite !penetration_to_ms_eq, to_ms_normalize.
Qed.

Lemma penetrating_candles_normalize (l : line) (cs : list candle) :
  (λ pens : list (pyval * Q), pens.*2)
    <$> penetrating_candles l (normalize_candle <$> cs)
  = (λ pens : list (pyval * Q), pens.*2) <$> penetrating_candles l cs.
Proof.
  induction cs as [|c cs IH]; [done|].
  rewrite fmap_cons. cbn [penetrating_candles].
  rewrite penetrates_normalize, penetration_pct_normalize.
  destruct (penetrates l c); [|done].
  destruct (penetration_pct l c) as [pct|]; [|done]. simpl.
  destruct (penetrating_candles l (normalize_candle <$> cs)) as [p1|],
           (penetrating_candles l cs) as [p2|]; try done.
  injection IH as IH. simpl. f_equal. f_equal. exact IH.
Qed.

Lemma find_snd {A B} (f : B → bool) (l : list (A * B)) :
  snd <$> List.find (λ p, f p.2) l = List.find f l.*2.
Proof.
  induction l as [|[a b] l IH]; [done|]. simpl. by destruct (f b).
Qed.

(** The verdict of the penetration check is a function of the percentages. *)
Lemma penetration_verdict_snd (cfg : config) (p1 p2 : list (pyval * Q)) :
  p1.*2 = p2.*2 →
  (if (max_penetrating_candles cfg <? Z.of_nat (length p1))%Z then
     Some (false, TooManyPenetrating (length p1) (max_penetrating_candles cfg))
   else
     match List.find (λ pen, Qltb (max_penetration_pct cfg) pen.2) p1 with
     | Some pen => Some (false, PenetrationTooStrong pen.2 (max_penetration_pct cfg))
     | None => Some (true, OK)
     end)
  = (if (max_penetrating_candles cfg <? Z.of_nat (length p2))%Z then
     Some (false, TooManyPenetrating (length p2) (max_penetrating_candles cfg))
   else
     match List.find (λ pen, Qltb (max_penetration_pct cfg) pen.2) p2 with
     | Some pen => Some (false, PenetrationTooStrong pen.2 (max_penetration_pct cfg))
     | None => Some (true, OK)
     end).
Proof.
  intros Heq.
  assert (length p1 = length p2) as ->.
  { by rewrite <- (length_fmap snd p1), Heq, length_fmap. }
  destruct (_ <? _)%Z; [done|].
  pose proof (find_snd (Qltb (max_penetration_pct cfg)) p1) as H1.
  pose proof (find_snd (Qltb (max_penetration_pct cfg)) p2) as H2.
  rewrite Heq, <- H2 in H1.
  destruct (List.find _ p1) as [pen1|], (List.find _ p2) as [pen2|];
    simpl in H1; try done. by injection H1 as ->.
Qed.

Lemma between_normalize (l : line) (cs : list candle) :
  between l (normalize_candle <$> cs) = normalize_candle <$> between l cs.
Proof.
  unfold between. rewrite filter_fmap_bool. f_equal.
  apply filter_ext_bool, is_between_normalize.
Qed.

Lemma check_line_penetration_normalize (cfg : config) (cs : list candle)
    (l : line) :
  check_line_penetration cfg (normalize_candle <$> cs) l
  = check_line_penetration cfg cs l.
Proof.
  destruct (between l cs) as [|b bs] eqn:Hb.
  - rewrite !check_line_penetration_empty; [done..|].
    by rewrite between_normalize, Hb.
  - rewrite !check_line_penetration_unfold
      by (rewrite ?between_normalize, Hb; done).
    rewrite between_normalize, Hb.
    pose proof (penetrating_candles_normalize l (b :: bs)) as Hp.
    destruct (penetrating_candles l (normalize_candle <$> b :: bs)) as [p1|],
             (penetrating_candles l (b :: bs)) as [p2|]; try done.
    injection Hp as Hp. by apply penetration_verdict_snd.
Qed.

Lemma validate_single_line_normalize (cfg : config) (cs : list candle) (l : line) :
  validate_single_line cfg (normalize_candle <$> cs) l
  = validate_single_line cfg cs l.
Proof.
  unfold validate_single_line. by rewrite check_line_penetration_normalize.
Qed.

Lemma keep_valid_normalize (cfg : config) (cs : list candle) (ls : list line)
    (cr : gset (nat * nat)) :
  keep_valid cfg (normalize_candle <$> cs) ls cr = keep_valid cfg cs ls cr.
Proof.
  revert cr. induction ls as [|l ls IH]; intros cr; [done|].
  simpl. rewrite validate_single_line_normalize.
  destruct (validate_single_line cfg cs l) as [[[] ?]|]; by rewrite ?IH.
Qed.

Lemma update_valid_lines_normalize (cfg : config) (st : detector) :
  update_valid_lines cfg (normalize st) = normalize <$> update_valid_lines cfg st.
Proof.
  unfold update_valid_lines, normalize. simpl.
  rewrite keep_valid_normalize.
  destruct (keep_valid cfg (candles_list st) (upper_lines st) _) as [[vu c1]|];
    [|done]. simpl.
  rewrite keep_valid_normalize.
  by destruct (keep_valid cfg (candles_list st) (lower_lines st) c1) as [[vl c2]|].
Qed.

Lemma generate_new_lines_normalize (cfg : config) (n : nat) (st : detector) :
  generate_new_lines cfg n (normalize st)
  = normalize <$> generate_new_lines cfg n st.
Proof.
  unfold generate_new_lines, locate. simpl.
  destruct (match find_pivot n (peaks_list st) with
            | Some p => Some (p, peaks_list st)
            | None => _
            end) as [[np pl]|]; [|done].
  destruct (pair_with n np pl [] (created_line_pairs st)) as [news cr].
  destruct (store_lines news _ _) as [up lo].
  destruct (0 <? length news); [|done].
  apply (update_valid_lines_normalize cfg (set_lines up lo cr st)).
Qed.

Lemma filter_ms_normalize (z : Z) (cs : list candle) :
  filter (λ c, (z <=? cleanup_to_ms (c_timestamp c))%Z) (normalize_candle <$> cs)
  = normalize_candle
      <$> filter (λ c, (z <=? cleanup_to_ms (c_timestamp c))%Z) cs.
Proof.
  rewrite filter_fmap_bool. f_equal.
  apply filter_ext_bool. intros c. by rewrite to_ms_normalize.
Qed.

Lemma cleanup_old_candles_normalize (st : detector) :
  cleanup_old_candles (normalize st) = normalize (cleanup_old_candles st).
Proof.
  destruct st as [pk tr cs n up lo vc cr cc].
  unfold cleanup_old_candles, normalize, oldest_pivot_ts. simpl.
  destruct cs as [|c0 cs0]; [done|].
  pose proof (λ z, filter_ms_normalize z (c0 :: cs0)) as Hf.
  rewrite fmap_cons in Hf |- *.
  destruct pk, tr; simpl; try done; unfold set_candles; simpl; f_equal; apply Hf.
Qed.

Lemma cleanup_old_lines_normalize (removed_ids : list nat) (st : detector) :
  cleanup_old_lines removed_ids (normalize st)
  = normalize <$> cleanup_old_lines removed_ids st.
Proof. by rewrite !cleanup_old_lines_spec. Qed.

Lemma cleanup_old_pivots_normalize (cfg : config) (st : detector) :
  cleanup_old_pivots cfg (normalize st)
  = (λ r, (normalize r.1, r.2)) <$> cleanup_old_pivots cfg st.
Proof.
  unfold cleanup_old_pivots. simpl.
  destruct (evict_list cfg (peaks_list st) []) as [[pk r1]|]; [|done]. simpl.
  destruct (evict_list cfg (troughs_list st) r1) as [[tr r2]|]; [|done]. simpl.
  destruct (0 <? length r2); [|done].
  change (set_pivots pk tr (normalize st)) with (normalize (set_pivots pk tr st)).
  rewrite cleanup_old_lines_normalize.
  destruct (cleanup_old_lines r2 (set_pivots pk tr st)) as [st2|]; [|done].
  simpl. by rewrite cleanup_old_candles_normalize.
Qed.

Lemma ingest_candle_normalize (c : option candle) (st : detector) :
  ingest_candle (normalize_candle <$> c) (normalize st)
  = normalize (ingest_candle c st).
Proof.
  destruct c as [c|]; [|done]. unfold normalize. simpl.
  by rewrite fmap_app.
Qed.

Lemma ingest_pivot_normalize (pv : raw_pivot) (st : detector) :
  ingest_pivot pv (normalize st) = normalize (ingest_pivot pv st).
Proof. unfold ingest_pivot. by destruct (r_type pv). Qed.

(** A call reads candle timestamps through [to_ms] only: on normalised
    inputs it does the same thing. *)
Lemma add_pivot_log_normalize (cfg : config) (st : detector) (rec : zigzag_output) :
  add_pivot_log cfg (normalize st) (normalize_record rec)
  = (λ r, (normalize r.1.1, r.1.2, r.2)) <$> add_pivot_log cfg st rec.
Proof.
  unfold add_pivot_log. simpl. rewrite ingest_candle_normalize.
  destruct (zz_pivot rec) as [pv|]; [|done].
  rewrite ingest_pivot_normalize, cleanup_old_pivots_normalize.
  destruct (cleanup_old_pivots cfg _) as [[st2 rem]|]; [|done]. simpl.
  change (next_pivot_id (normalize (ingest_candle (zz_candle rec) st)))
    with (next_pivot_id (ingest_candle (zz_candle rec) st)).
  rewrite generate_new_lines_normalize.
  by destruct (generate_new_lines cfg _ st2).
Qed.

Lemma add_pivot_normalize (cfg : config) (st : detector) (rec : zigzag_output) :
  add_pivot cfg (normalize st) (normalize_record rec)
  = (λ r, (normalize r.1, r.2)) <$> add_pivot cfg st rec.
Proof.
  unfold add_pivot. rewrite add_pivot_log_normalize.
  by destruct (add_pivot_log cfg st rec) as [[[? ?] ?]|].
Qed.

(** C9: on a value that is neither a number nor parseable, both local
    [to_ms] return 0; a call whose candle carries such a timestamp therefore
    behaves as the same call with timestamp 0: it raises exactly when that
    one does, returns the same id and leaves the same state up to the normal
    form of the candle timestamps. *)
Theorem malformed_timestamp_is_epoch_zero (s : string) :
  to_datetime_ms s = None →
  cleanup_to_ms (PyObj s) = 0%Z
  ∧ penetration_to_ms (PyObj s) = 0%Z
  ∧ ∀ cfg st c pv,
      (λ r, (normalize r.1, r.2))
        <$> add_pivot cfg st (ZigZag (Some (with_timestamp (PyObj s) c)) pv)
      = (λ r, (normalize r.1, r.2))
        <$> add_pivot cfg st (ZigZag (Some (with_timestamp (PyNum 0) c)) pv).
Proof.
  intros Hs. unfold cleanup_to_ms, penetration_to_ms. rewrite Hs.
  split; [done|]. split; [done|]. intros cfg st c pv.
  rewrite <- !add_pivot_normalize. f_equal.
  unfold normalize_record, normalize_candle. simpl. by rewrite Hs.
Qed.

(** *** Candle-only records *)

Lemma run_candle_only (cfg : config) (c : candle) (n : nat) (st : detector) :
  run cfg st (replicate n (ZigZag (Some c) None))
  = Some (set_candles (candles_list st ++ replicate n c) st).
Proof.
  revert st. induction n as [|n IH]; intros st; simpl.
  - rewrite app_nil_r. by destruct st.
  - unfold add_pivot, add_pivot_log. simpl. rewrite IH. simpl.
    by rewrite <- app_assoc.
Qed.

(** No bound that depends on the configuration alone holds for the candle
    list. *)
Lemma candles_unbounded :
  ¬ ∃ B : config → nat, ∀ cfg recs st,
      run cfg init recs = Some st → length (candles_list st) ≤ B cfg.
Proof.
  intros [B HB].
  set (cfg := Config 1 None 5000 (1 # 10) None 2 (3 # 10) 2).
  set (c := Candle (PyNum 0) 0 0 0 0 0).
  pose proof (HB cfg _ _ (run_candle_only cfg c (S (B cfg)) init)) as H.
  simpl in H. rewrite length_replicate in H. lia.
Qed.

(** ** Further properties of the module *)

(** *** [validate_single_line] *)

(** The verdict and the reason agree: a line is accepted exactly with the
    reason ["OK"]. *)
Theorem verdict_matches_reason (cfg : config) (candles : list candle) (l : line)
    (is_valid : bool) (why : reason) :
  validate_single_line cfg candles l = Some (is_valid, why) →
  is_valid = true ↔ why = OK.
Proof.
  unfold validate_single_line.
  destruct (slope_check cfg l) as [r|] eqn:Hs.
  { intros [= <- <-]. unfold slope_check in Hs.
    destruct (max_slope cfg); [|done]. destruct (Qltb _ _); [|done].
    by injection Hs as <-. }
  destruct (Qltb _ _); [by intros [= <- <-]|].
  destruct (check_line_penetration cfg candles l) as [[[] r]|] eqn:Hc;
    [by intros [= <- <-]| |done].
  intros [= <- <-]. split; [done|]. intros ->. exfalso.
  destruct (between l candles) as [|b bs] eqn:Hb.
  { by rewrite check_line_penetration_empty in Hc. }
  rewrite check_line_penetration_unfold in Hc by (by rewrite Hb).
  rewrite Hb in Hc.
  destruct (penetrating_candles l (b :: bs)); [|done]. simpl in Hc.
  destruct (_ <? _)%Z; [done|]. by destruct (List.find _ _).
Qed.

(** A line that fails the slope bound or the spacing is rejected whatever
    the candle window holds: the penetration stage is not run, so it cannot
    raise. *)
Theorem early_rejection_ignores_candles (cfg : config) (l : line)
    (candles candles' : list candle) :
  slope_check cfg l ≠ None
  ∨ num_candles l < min_distance_candles cfg →
  validate_single_line cfg candles l = validate_single_line cfg candles' l
  ∧ ∃ why, validate_single_line cfg candles l = Some (false, why).
Proof.
  unfold validate_single_line. intros H.
  destruct (slope_check cfg l) as [r|]; [eauto|].
  destruct H as [?|H%Qltb_lt]; [done|]. rewrite H. eauto.
Qed.

(** *** [_cleanup_old_candles] *)

Lemma cleanup_old_candles_synced (st : detector) (ts : Q) (c : candle) :
  oldest_pivot_ts st = Some ts → c ∈ candles_list (cleanup_old_candles st) →
  (py_int ts ≤ cleanup_to_ms (c_timestamp c))%Z.
Proof.
  unfold cleanup_old_candles. intros Hts.
  destruct (candles_list st) eqn:E; [by rewrite E; intros ?%elem_of_nil|].
  rewrite Hts. simpl. intros [Hc _]%elem_of_filter_bool. by apply Z.leb_le.
Qed.

Lemma cleanup_old_candles_pivots (st : detector) :
  oldest_pivot_ts (cleanup_old_candles st) = oldest_pivot_ts st.
Proof.
  rewrite <- (cleanup_old_candles_other st) at 2. done.
Qed.

(** After a call that evicted a pivot, no resident candle is older (in
    normalised milliseconds) than the oldest front pivot. *)
Theorem candles_synced_after_eviction (cfg : config) (st st' : detector)
    (rec : zigzag_output) (ret : option nat) (removed_ids : list nat) :
  add_pivot_log cfg st rec = Some (st', ret, removed_ids) →
  removed_ids ≠ [] →
  ∀ ts c, oldest_pivot_ts st' = Some ts → c ∈ candles_list st' →
          (py_int ts ≤ cleanup_to_ms (c_timestamp c))%Z.
Proof.
  unfold add_pivot_log. destruct (zz_pivot rec) as [pv|]; [|by intros [= <- <- <-]].
  destruct (cleanup_old_pivots cfg _) as [[st2 rem]|] eqn:Hc; [|done]. simpl.
  destruct (generate_new_lines cfg _ st2) as [st3|] eqn:Hg; [|done]. simpl.
  intros [= <- <- <-] Hne ts c.
  destruct (generate_new_lines_other _ _ _ _ Hg) as (Hpk & Htr & Hcs & _).
  unfold oldest_pivot_ts. rewrite Hpk, Htr, Hcs. fold (oldest_pivot_ts st2).
  revert Hc. unfold cleanup_old_pivots.
  destruct (evict_list cfg _ []) as [[pk r1]|]; [|done]. simpl.
  destruct (evict_list cfg _ r1) as [[tr r2]|]; [|done]. simpl.
  destruct (0 <? length r2) eqn:Hlen.
  - rewrite cleanup_old_lines_spec. simpl. intros [= <- <-].
    rewrite cleanup_old_candles_pivots. apply cleanup_old_candles_synced.
  - intros [= <- <-]. apply Nat.ltb_ge in Hlen.
    destruct r2; simpl in *; [done|lia].
Qed.

(** *** Edge configurations of [_cleanup_old_pivots] *)

Lemma evict_list_zero_cap_raises (cfg : config) (a : Q) (l : list pivot)
    (removed_ids : list nat) :
  max_pivots cfg = 0%nat → max_age_ms cfg = Some a → l ≠ [] →
  evict_list cfg l removed_ids = None.
Proof.
  intros Hcap Hage Hl. unfold evict_list.
  destruct (0 <? length l) eqn:Hlen.
  - rewrite count_rule_spec, Hcap, Nat.sub_0_r, drop_all. cbv beta iota.
    unfold age_rule. by rewrite Hage.
  - apply Nat.ltb_ge in Hlen. destruct l; [done|simpl in Hlen; lia].
Qed.

(** With [max_pivots = 0] and an age limit, every record that carries a pivot
    makes [add_pivot] raise ([IndexError] on [list[-1]] of the emptied
    list). *)
Theorem zero_cap_with_age_raises (cfg : config) (a : Q) (st : detector)
    (rec : zigzag_output) (pv : raw_pivot) :
  max_pivots cfg = 0%nat → max_age_ms cfg = Some a → zz_pivot rec = Some pv →
  add_pivot cfg st rec = None.
Proof.
  intros Hcap Hage Hpv. unfold add_pivot, add_pivot_log. rewrite Hpv.
  set (st0 := ingest_candle (zz_candle rec) st).
  assert (cleanup_old_pivots cfg (ingest_pivot pv st0) = None) as ->; [|done].
  unfold cleanup_old_pivots, ingest_pivot.
  destruct (r_type pv); simpl.
  - rewrite (evict_list_zero_cap_raises cfg a); [done..|].
    by destruct (peaks_list st0).
  - destruct (evict_list cfg (peaks_list st0) []) as [[pk r1]|]; [|done]. simpl.
    rewrite (evict_list_zero_cap_raises cfg a); [done..|].
    by destruct (troughs_list st0).
Qed.

(** With [max_pivots = 0] and no age limit nothing is ever kept: no call
    raises, both pivot lists and both line lists stay empty, and ids are
    still handed out. *)
Theorem zero_cap_keeps_nothing (cfg : config) (recs : list zigzag_output) :
  max_pivots cfg = 0%nat → max_age_ms cfg = None →
  ∃ st, run cfg init recs = Some st
        ∧ peaks_list st = [] ∧ troughs_list st = []
        ∧ upper_lines st = [] ∧ lower_lines st = []
        ∧ next_pivot_id st = length (stamped 0 recs).
Proof.
  intros Hcap Hage.
  assert (Hgen : ∀ recs st,
    peaks_list st = [] → troughs_list st = [] →
    upper_lines st = [] → lower_lines st = [] →
    ∃ st', run cfg st recs = Some st'
           ∧ peaks_list st' = [] ∧ troughs_list st' = []
           ∧ upper_lines st' = [] ∧ lower_lines st' = []
           ∧ next_pivot_id st'
             = (next_pivot_id st + length (stamped (next_pivot_id st) recs))%nat).
  { clear recs. induction recs as [|rec rest IH]; intros st Hpk Htr Hup Hlo.
    - exists st. simpl. repeat split; try done; lia.
    - simpl. unfold add_pivot, add_pivot_log.
      destruct (ingest_candle_other (zz_candle rec) st)
        as (Hpk0 & Htr0 & Hn0 & Hup0 & Hlo0 & _).
      set (st0 := ingest_candle (zz_candle rec) st) in *.
      rewrite Hpk in Hpk0. rewrite Htr in Htr0. rewrite Hup in Hup0.
      rewrite Hlo in Hlo0.
      destruct (zz_pivot rec) as [pv|]; simpl.
      + assert (∃ st3, (cleanup_old_pivots cfg (ingest_pivot pv st0)
                         ≫= λ '(st2, removed_ids),
                              generate_new_lines cfg (next_pivot_id st0) st2
                              ≫= λ st3, Some (st3, Some (next_pivot_id st0), removed_ids))
                       = Some (st3, Some (next_pivot_id st0), [next_pivot_id st0])
                    ∧ peaks_list st3 = [] ∧ troughs_list st3 = []
                    ∧ upper_lines st3 = [] ∧ lower_lines st3 = []
                    ∧ next_pivot_id st3 = S (next_pivot_id st0))
          as (st3 & -> & Hpk3 & Htr3 & Hup3 & Hlo3 & Hn3).
        { unfold cleanup_old_pivots, ingest_pivot, evict_list, age_rule.
          rewrite Hage, Hcap.
          destruct (r_type pv); simpl; rewrite Hpk0, Htr0; simpl;
            rewrite cleanup_old_lines_spec; simpl; rewrite Hup0, Hlo0; simpl;
            unfold generate_new_lines, locate, cleanup_old_candles; simpl;
            destruct (candles_list st0); simpl; eexists; (split; [reflexivity|done]). }
        simpl. destruct (IH st3 Hpk3 Htr3 Hup3 Hlo3) as (st' & -> & ? & ? & ? & ? & Hn').
        exists st'. repeat split; try done. rewrite Hn', Hn3, Hn0. simpl. lia.
      + destruct (IH st0 Hpk0 Htr0 Hup0 Hlo0) as (st' & -> & ? & ? & ? & ? & Hn').
        exists st'. repeat split; try done. by rewrite Hn', Hn0. }
  destruct (Hgen recs init) as (st & ? & ? & ? & ? & ? & ?); try done.
  exists st. repeat split; done.
Qed.

(** *** [_cleanup_old_lines] *)

(** [_cleanup_old_lines] never raises: its [list.remove] loops keep, in order,
    exactly the lines with no endpoint among the removed ids, and the pair of
    every line they drop leaves [created_line_pairs]; the pivots, the candles
    and the id counter are not touched. *)
Theorem cleanup_old_lines_exact (removed_pivot_ids : list nat) (st : detector) :
  ∃ st', cleanup_old_lines removed_pivot_ids st = Some st'
    ∧ upper_lines st' `sublist_of` upper_lines st
    ∧ lower_lines st' `sublist_of` lower_lines st
    ∧ (∀ l, l ∈ lines st' ↔
            l ∈ lines st ∧ (p_id (l_point1 l) ∉ removed_pivot_ids)
            ∧ (p_id (l_point2 l) ∉ removed_pivot_ids))
    ∧ (∀ pr, pr ∈ created_line_pairs st' ↔
             pr ∈ created_line_pairs st
             ∧ ¬ ∃ l, l ∈ lines st ∧ l_point_ids l = pr
                      ∧ (p_id (l_point1 l) ∈ removed_pivot_ids
                         ∨ p_id (l_point2 l) ∈ removed_pivot_ids))
    ∧ peaks_list st' = peaks_list st ∧ troughs_list st' = troughs_list st
    ∧ candles_list st' = candles_list st
    ∧ next_pivot_id st' = next_pivot_id st.
Proof.
  eexists. split; [apply cleanup_old_lines_spec|]. simpl.
  set (removed := list_to_set removed_pivot_ids : gset nat).
  assert (Ht : ∀ l, touches removed l = true ↔
                    p_id (l_point1 l) ∈ removed_pivot_ids
                    ∨ p_id (l_point2 l) ∈ removed_pivot_ids).
  { intros l. rewrite touches_spec. unfold removed.
    by rewrite !elem_of_list_to_set. }
  split; [apply sublist_filter|]. split; [apply sublist_filter|].
  split; [|split; [|done]].
  - intros l. unfold lines. simpl.
    rewrite !elem_of_app, !elem_of_filter_bool, negb_true_iff.
    rewrite <- not_true_iff_false, Ht. tauto.
  - intros pr. rewrite !elem_of_difference, !elem_of_list_to_set.
    rewrite !list_elem_of_fmap. unfold lines. split.
    + intros [[Hpr Hu] Hl]. split; [done|].
      intros (l & [Hin|Hin]%elem_of_app & <- & Htouch%Ht).
      * apply Hu. exists l. split; [done|]. by apply elem_of_filter_bool.
      * apply Hl. exists l. split; [done|]. by apply elem_of_filter_bool.
    + intros [Hpr Hno]. split; [split; [done|]|].
      * intros (l & -> & [Htouch%Ht Hin]%elem_of_filter_bool).
        apply Hno. exists l. rewrite elem_of_app. auto.
      * intros (l & -> & [Htouch%Ht Hin]%elem_of_filter_bool).
        apply Hno. exists l. rewrite elem_of_app. auto.
Qed.

(** *** Candle timestamps are read through [to_ms] only *)

(** A whole sequence of calls on normalised candle timestamps does what the
    original does: it raises at the same call, returns the same ids, evicts
    the same pivots and ends in the normalised state. *)
Theorem run_log_normalize (cfg : config) (recs : list zigzag_output)
    (st : detector) :
  run_log cfg (normalize st) (normalize_record <$> recs)
  = (λ r, (normalize r.1.1, r.1.2, r.2)) <$> run_log cfg st recs.
Proof.
  revert st. induction recs as [|rec rest IH]; intros st; [done|].
  rewrite fmap_cons. simpl. rewrite add_pivot_log_normalize.
  destruct (add_pivot_log cfg st rec) as [[[st1 ret] rem]|]; [|done]. simpl.
  rewrite IH. by destruct (run_log cfg st1 rest) as [[[? ?] ?]|].
Qed.

(** *** Validity and the candle window *)

Lemma filter_sublist_bool {A} (f : A → bool) (l1 l2 : list A) :
  l1 `sublist_of` l2 → filter f l1 `sublist_of` filter f l2.
Proof.
  induction 1 as [|x l1 l2 _ IH|x l1 l2 _ IH]; [done|..];
    rewrite ?filter_cons_bool; destruct (f x); try done.
  - by apply sublist_skip.
  - by apply sublist_cons.
Qed.

Lemma penetrators_sublist (l : line) (cs' cs : list candle) :
  cs' `sublist_of` cs → penetrators l cs' `sublist_of` penetrators l cs.
Proof. intros H. unfold penetrators, between. by do 2 apply filter_sublist_bool. Qed.

(** When the stage accepts. *)
Lemma check_line_penetration_true_iff (cfg : config) (candles : list candle)
    (l : line) :
  check_line_penetration cfg candles l = Some (true, OK) ↔
  between l candles = []
  ∨ (∀ c, c ∈ penetrators l candles →
          ¬ line_price l (penetration_to_ms (c_timestamp c)) == 0)
    ∧ ¬ penetration_rejects cfg l candles.
Proof.
  destruct (between l candles) as [|b bs] eqn:Hb.
  { rewrite check_line_penetration_empty by done. tauto. }
  split.
  - intros Hc. right.
    assert (Hnz : ∀ c, c ∈ penetrators l candles →
              ¬ line_price l (penetration_to_ms (c_timestamp c)) == 0).
    { intros c Hin Hz.
      assert (check_line_penetration cfg candles l = None) as Hn
        by (apply check_line_penetration_None; eauto).
      congruence. }
    split; [done|].
    rewrite check_line_penetration_unfold in Hc by (by rewrite Hb).
    rewrite penetrating_candles_Some in Hc by done. simpl in Hc.
    fold (penetrators l candles) in Hc. rewrite length_fmap in Hc.
    destruct (_ <? _)%Z eqn:Hcnt; [done|]. apply Z.ltb_ge in Hcnt.
    destruct (List.find _ _) as [pen|] eqn:Hf; [done|].
    intros [?|(c & Hin & Hpct)]; [lia|].
    pose proof (find_none _ _ Hf (c_timestamp c, penetration_magnitude l c)) as Hn.
    simpl in Hn. apply Qltb_lt in Hpct. rewrite Hpct in Hn.
    discriminate Hn. apply list_elem_of_In, list_elem_of_fmap. eauto.
  - intros [?|[Hnz Hno]]; [done|].
    rewrite check_line_penetration_unfold by (by rewrite Hb).
    rewrite penetrating_candles_Some by done. simpl.
    fold (penetrators l candles). rewrite length_fmap.
    destruct (_ <? _)%Z eqn:Hcnt.
    { apply Z.ltb_lt in Hcnt. exfalso. apply Hno. by left. }
    destruct (List.find _ _) as [pen|] eqn:Hf; [|done].
    apply find_some in Hf as [Hin Hpct].
    apply list_elem_of_In, list_elem_of_fmap in Hin as (c & -> & Hc).
    simpl in Hpct. apply Qltb_lt in Hpct.
    exfalso. apply Hno. right. eauto.
Qed.

Lemma check_line_penetration_sublist (cfg : config) (cs' cs : list candle)
    (l : line) :
  cs' `sublist_of` cs →
  check_line_penetration cfg cs l = Some (true, OK) →
  check_line_penetration cfg cs' l = Some (true, OK).
Proof.
  intros Hsub. rewrite !check_line_penetration_true_iff.
  pose proof (penetrators_sublist l _ _ Hsub) as Hp.
  intros [Hb|[Hnz Hno]].
  - left. unfold between in *.
    pose proof (filter_sublist_bool (is_between l) _ _ Hsub) as Hs.
    rewrite Hb in Hs. by apply sublist_nil_r in Hs.
  - right. split.
    + intros c Hc. apply Hnz. by eapply elem_of_sublist.
    + intros [Hcnt|(c & Hc & Hpct)]; apply Hno.
      * left. apply sublist_length in Hp. lia.
      * right. exists c. split; [by eapply elem_of_sublist|done].
Qed.

Lemma check_line_penetration_true_OK (cfg : config) (cs : list candle)
    (l : line) (why : reason) :
  check_line_penetration cfg cs l = Some (true, why) → why = OK.
Proof.
  intros Hc. destruct (between l cs) as [|b bs] eqn:Hb.
  - rewrite check_line_penetration_empty in Hc by done. congruence.
  - rewrite check_line_penetration_unfold in Hc by (by rewrite Hb).
    destruct (penetrating_candles l (between l cs)); [|done]. simpl in Hc.
    destruct (_ <? _)%Z; [done|]. destruct (List.find _ _); congruence.
Qed.

Lemma validate_single_line_sublist (cfg : config) (cs' cs : list candle)
    (l : line) :
  cs' `sublist_of` cs →
  validate_single_line cfg cs l = Some (true, OK) →
  validate_single_line cfg cs' l = Some (true, OK).
Proof.
  intros Hsub. unfold validate_single_line.
  destruct (slope_check cfg l); [done|]. destruct (Qltb _ _); [done|].
  destruct (check_line_penetration cfg cs l) as [[[] why]|] eqn:Hc; [|done..].
  intros _. pose proof (check_line_penetration_true_OK _ _ _ _ Hc) as ->.
  by rewrite (check_line_penetration_sublist _ _ _ _ Hsub Hc).
Qed.

(** Dropping candles from the window never turns an accepted line into a
    rejected one (nor into an error). *)
Theorem fewer_candles_keep_acceptance (cfg : config) (keep : candle → bool)
    (candles : list candle) (l : line) :
  validate_single_line cfg candles l = Some (true, OK) →
  validate_single_line cfg (filter keep candles) l = Some (true, OK).
Proof. apply validate_single_line_sublist, sublist_filter. Qed.

Lemma check_line_penetration_between (cfg : config) (cs cs' : list candle)
    (l : line) :
  between l cs = between l cs' →
  check_line_penetration cfg cs l = check_line_penetration cfg cs' l.
Proof.
  intros Heq. destruct (between l cs) as [|b bs] eqn:Hb.
  - by rewrite !check_line_penetration_empty.
  - rewrite !check_line_penetration_unfold by (rewrite <- ?Heq, ?Hb; done).
    by rewrite <- Heq, Hb.
Qed.

Lemma validate_single_line_outside (cfg : config) (cs : list candle) (c : candle)
    (l : line) :
  is_between l c = false →
  validate_single_line cfg (cs ++ [c]) l = validate_single_line cfg cs l.
Proof.
  intros Hc. unfold validate_single_line.
  rewrite (check_line_penetration_between cfg (cs ++ [c]) cs); [done|].
  unfold between. rewrite filter_app, filter_cons_bool, Hc. simpl.
  by rewrite app_nil_r.
Qed.

Lemma with_candidates_none (n : nat) (st : detector) :
  (candidates n st).1 = [] →
  lines (with_candidates n st) = lines st
  ∧ candles_list (with_candidates n st) = candles_list st.
Proof. unfold with_candidates, lines. intros ->. done. Qed.

Lemma all_valid_cleanup (cfg : config) (st st' : detector) (removed_ids : list nat) :
  all_valid cfg st → cleanup_old_pivots cfg st = Some (st', removed_ids) →
  all_valid cfg st'.
Proof.
  intros Hv Hc.
  apply cleanup_old_pivots_spec in Hc
    as (gone & removed & _ & _ & _ & _ & _ & _ & _ & _ & Hu & Hlo & _ & Hcs).
  intros l Hl. apply (cleaned_lines removed st st') in Hl as [Hl _]; [|done..].
  eapply validate_single_line_sublist; [done|]. by apply Hv.
Qed.

Lemma all_valid_add_pivot (cfg : config) (st st' : detector)
    (rec : zigzag_output) (ret : option nat) :
  all_valid cfg st →
  (∀ c l, zz_candle rec = Some c → l ∈ lines st → is_between l c = false) →
  add_pivot cfg st rec = Some (st', ret) →
  all_valid cfg st'.
Proof.
  intros Hv Hout. unfold add_pivot, add_pivot_log.
  assert (Hv0 : all_valid cfg (ingest_candle (zz_candle rec) st)).
  { destruct (zz_candle rec) as [c|] eqn:Hc; [|done].
    intros l Hl. simpl. rewrite validate_single_line_outside; [by apply Hv|].
    by apply (Hout c). }
  set (st0 := ingest_candle (zz_candle rec) st) in *.
  destruct (zz_pivot rec) as [pv|]; [|by intros [= <- <-]].
  assert (Hv1 : all_valid cfg (ingest_pivot pv st0)).
  { destruct (ingest_pivot_other pv st0) as (_ & Hl1 & _ & Hc1).
    intros l. rewrite Hl1, Hc1. apply Hv0. }
  destruct (cleanup_old_pivots cfg (ingest_pivot pv st0)) as [[st2 rem]|] eqn:Hc;
    [|done]. simpl.
  pose proof (all_valid_cleanup _ _ _ _ Hv1 Hc) as Hv2.
  rewrite generate_new_lines_unfold.
  destruct (candidates (next_pivot_id st0) st2).1 as [|l0 news] eqn:Hcand; simpl.
  - intros [= <- <-].
    destruct (with_candidates_none _ _ Hcand) as [Hl3 Hc3].
    intros l. rewrite Hl3, Hc3. apply Hv2.
  - destruct (update_valid_lines cfg _) as [st3|] eqn:Hu; [|done]. simpl.
    intros [= <- <-] l Hl. by eapply update_valid_lines_valid.
Qed.

(** A call keeps every resident line valid, provided the candle it brings does
    not fall strictly between the endpoints of a line that is resident when
    it arrives. *)
Theorem valid_lines_preserved (cfg : config) (st st' : detector)
    (rec : zigzag_output) (ret : option nat) :
  all_valid cfg st →
  (∀ c l, zz_candle rec = Some c → l ∈ lines st → is_between l c = false) →
  add_pivot cfg st rec = Some (st', ret) →
  all_valid cfg st'.
Proof. apply all_valid_add_pivot. Qed.

(** *** Ids *)

Lemma add_pivot_log_ids (cfg : config) (st st' : detector) (rec : zigzag_output)
    (ret : option nat) (removed_ids : list nat) :
  add_pivot_log cfg st rec = Some (st', ret, removed_ids) →
  ret = (λ _, next_pivot_id st) <$> zz_pivot rec
  ∧ next_pivot_id st'
    = (next_pivot_id st + length (stamped (next_pivot_id st) [rec]))%nat
  ∧ (p_id <$> resident st') ++ removed_ids
    ≡ₚ (p_id <$> resident st) ++ (p_id <$> stamped (next_pivot_id st) [rec]).
Proof.
  unfold add_pivot_log.
  destruct (ingest_candle_other (zz_candle rec) st) as (Hpk & Htr & Hn & _).
  set (st0 := ingest_candle (zz_candle rec) st) in *.
  assert (Hres0 : resident st0 = resident st) by (unfold resident; congruence).
  simpl. destruct (zz_pivot rec) as [pv|]; simpl.
  2: { intros [= <- <- <-]. rewrite Hn, Hres0, !app_nil_r.
       split; [done|]. split; [lia|done]. }
  destruct (ingest_pivot_other pv st0) as (Hn1 & _).
  pose proof (resident_ingest_pivot pv st0) as Hres1.
  destruct (cleanup_old_pivots cfg (ingest_pivot pv st0)) as [[st2 rem]|] eqn:Hc;
    [|done]. simpl.
  apply cleanup_old_pivots_spec in Hc
    as (gone & removed & _ & -> & Hperm & _ & _ & _ & _ & Hn2 & _).
  destruct (generate_new_lines cfg _ st2) as [st3|] eqn:Hg; [|done]. simpl.
  intros [= <- <- <-].
  destruct (generate_new_lines_other _ _ _ _ Hg) as (Hpk3 & Htr3 & _ & Hn3).
  assert (Hres3 : resident st3 = resident st2) by (unfold resident; congruence).
  rewrite Hn3, Hn2, Hn1, Hn, Hres3. split; [done|]. split; [lia|].
  rewrite <- fmap_app, (Permutation_app_comm (resident st2)), <- Hperm, Hres1.
  by rewrite fmap_app, Hres0, Hn.
Qed.

Lemma stamped_cons (n : nat) (rec : zigzag_output) (rest : list zigzag_output) :
  stamped n (rec :: rest)
  = stamped n [rec] ++ stamped (n + length (stamped n [rec])) rest.
Proof.
  simpl. destruct (zz_pivot rec); simpl.
  - by rewrite Nat.add_1_r.
  - by rewrite Nat.add_0_r.
Qed.

Lemma stamped_ids (n : nat) (recs : list zigzag_output) :
  p_id <$> stamped n recs = seq n (length (stamped n recs)).
Proof.
  revert n. induction recs as [|rec rest IH]; intros n; [done|].
  simpl. destruct (zz_pivot rec); simpl; by rewrite IH.
Qed.

Lemma run_log_ids (cfg : config) (recs : list zigzag_output) (st st' : detector)
    (rets : list (option nat)) (evicted : list nat) :
  run_log cfg st recs = Some (st', rets, evicted) →
  rets = returned (next_pivot_id st) recs
  ∧ next_pivot_id st'
    = (next_pivot_id st + length (stamped (next_pivot_id st) recs))%nat
  ∧ (p_id <$> resident st') ++ evicted
    ≡ₚ (p_id <$> resident st) ++ (p_id <$> stamped (next_pivot_id st) recs).
Proof.
  revert st rets evicted. induction recs as [|rec rest IH]; intros st rets ev.
  - intros [= <- <- <-]. simpl. rewrite !app_nil_r. split; [done|]. split; [lia|done].
  - rewrite stamped_cons. intros H0. simpl in H0.
    destruct (add_pivot_log cfg st rec) as [[[st1 ret] rem]|] eqn:Hstep; [|done].
    simpl in H0.
    destruct (run_log cfg st1 rest) as [[[st2 rets2] ev2]|] eqn:Hrun; [|done].
    simpl in H0. injection H0 as <- <- <-.
    destruct (add_pivot_log_ids _ _ _ _ _ _ Hstep) as (Hret & Hn1 & Hp1).
    destruct (IH _ _ _ Hrun) as (Hrets & Hn2 & Hp2).
    rewrite <- Hn1.
    split; [|split].
    + rewrite Hrets, Hret, Hn1. simpl.
      destruct (zz_pivot rec); simpl; [|by rewrite Nat.add_0_r].
      by rewrite Nat.add_1_r.
    + rewrite Hn2, length_app. lia.
    + rewrite fmap_app, (app_assoc (p_id <$> resident st)), <- Hp1.
      rewrite (Permutation_app_comm rem ev2), app_assoc, Hp2.
      rewrite <- !app_assoc. f_equiv. apply Permutation_app_comm.
Qed.

(** The calls of a fresh instance return the ids 0, 1, 2, ... in the order
    of the records that carry a pivot ([None] for the others), and the id
    counter ends at the number of pivots seen. *)
Theorem ids_count_up (cfg : config) (recs : list zigzag_output) (st : detector)
    (rets : list (option nat)) (evicted : list nat) :
  run_log cfg init recs = Some (st, rets, evicted) →
  rets = returned 0 recs ∧ next_pivot_id st = length (stamped 0 recs).
Proof.
  intros (? & ? & _)%run_log_ids. done.
Qed.

(** Every id handed out so far is either the id of a resident pivot or in
    the log of evicted ids, and of exactly one of them once: together they
    are a permutation of [0 .. next_pivot_id - 1]. *)
Theorem ids_resident_or_evicted (cfg : config) (recs : list zigzag_output)
    (st : detector) (rets : list (option nat)) (evicted : list nat) :
  run_log cfg init recs = Some (st, rets, evicted) →
  (p_id <$> peaks_list st ++ troughs_list st) ++ evicted
    ≡ₚ seq 0 (next_pivot_id st).
Proof.
  intros (_ & Hn & Hp)%run_log_ids. simpl in *.
  fold (resident st). by rewrite Hp, Hn, stamped_ids.
Qed.

(** *** The pivot windows *)

(** An invariant of single calls is an invariant of sequences. *)
Lemma run_preserves (cfg : config) (P : detector → Prop) :
  (∀ st rec st' ret, P st → add_pivot cfg st rec = Some (st', ret) → P st') →
  ∀ recs st st', P st → run cfg st recs = Some st' → P st'.
Proof.
  intros Hstep. induction recs as [|rec rest IH]; intros st st' HP; simpl.
  - by intros [= <-].
  - destruct (add_pivot cfg st rec) as [[st1 ret]|] eqn:Ha; [|done]. simpl.
    apply IH. by eapply Hstep.
Qed.

Lemma cleanup_old_candles_lists (st : detector) :
  peaks_list (cleanup_old_candles st) = peaks_list st
  ∧ troughs_list (cleanup_old_candles st) = troughs_list st.
Proof.
  unfold cleanup_old_candles. destruct (candles_list st); [done|].
  by destruct (oldest_pivot_ts st).
Qed.

(** The two eviction passes of [_cleanup_old_pivots], list by list. *)
Lemma cleanup_old_pivots_lists (cfg : config) (st st' : detector)
    (removed_ids : list nat) :
  cleanup_old_pivots cfg st = Some (st', removed_ids) →
  ∃ r1, evict_list cfg (peaks_list st) [] = Some (peaks_list st', r1)
        ∧ evict_list cfg (troughs_list st) r1 = Some (troughs_list st', removed_ids).
Proof.
  unfold cleanup_old_pivots.
  destruct (evict_list cfg (peaks_list st) []) as [[pk r1]|] eqn:E1; [|done].
  simpl.
  destruct (evict_list cfg (troughs_list st) r1) as [[tr r2]|] eqn:E2; [|done].
  simpl. destruct (0 <? length r2).
  - rewrite cleanup_old_lines_spec. simpl. intros [= <- <-]. exists r1.
    by destruct (cleanup_old_candles_lists
                   (set_lines
                      (filter (λ l, negb (touches (list_to_set r2) l)) (upper_lines st))
                      (filter (λ l, negb (touches (list_to_set r2) l)) (lower_lines st))
                      (created_line_pairs st
                         ∖ list_to_set (l_point_ids <$>
                             filter (touches (list_to_set r2)) (upper_lines st))
                         ∖ list_to_set (l_point_ids <$>
                             filter (touches (list_to_set r2)) (lower_lines st)))
                      (set_pivots pk tr st))) as [-> ->].
  - intros [= <- <-]. by exists r1.
Qed.

(** The lists of one pivot-carrying call, list by list. *)
Lemma add_pivot_log_lists (cfg : config) (st st' : detector) (rec : zigzag_output)
    (pv : raw_pivot) (ret : option nat) (removed_ids : list nat) :
  zz_pivot rec = Some pv →
  add_pivot_log cfg st rec = Some (st', ret, removed_ids) →
  ∃ r0 r1,
    evict_list cfg (peaks_list st
                    ++ filter is_peak (stamped (next_pivot_id st) [rec])) []
      = Some (peaks_list st', r0)
    ∧ evict_list cfg (troughs_list st
                      ++ filter is_trough (stamped (next_pivot_id st) [rec])) r0
      = Some (troughs_list st', r1).
Proof.
  intros Hpv. unfold add_pivot_log. rewrite Hpv.
  destruct (ingest_candle_other (zz_candle rec) st) as (Hpk & Htr & Hn & _).
  set (st0 := ingest_candle (zz_candle rec) st) in *.
  destruct (cleanup_old_pivots cfg (ingest_pivot pv st0)) as [[st2 rem]|] eqn:Hc;
    [|done]. simpl.
  destruct (generate_new_lines cfg _ st2) as [st3|] eqn:Hg; [|done]. simpl.
  intros [= <- <- <-].
  destruct (generate_new_lines_other _ _ _ _ Hg) as (-> & -> & _).
  apply cleanup_old_pivots_lists in Hc as (r1 & H1 & H2).
  exists r1, rem. simpl. rewrite Hpv. unfold is_peak, is_trough.
  rewrite !filter_cons_bool. simpl.
  unfold ingest_pivot in H1, H2. rewrite <- Hpk, <- Htr, <- Hn.
  destruct (r_type pv); simpl in *; rewrite ?app_nil_r; done.
Qed.

Lemma add_pivot_log_lists_none (cfg : config) (st st' : detector)
    (rec : zigzag_output) (ret : option nat) (removed_ids : list nat) :
  zz_pivot rec = None →
  add_pivot_log cfg st rec = Some (st', ret, removed_ids) →
  peaks_list st' = peaks_list st ∧ troughs_list st' = troughs_list st.
Proof.
  intros Hpv. unfold add_pivot_log. rewrite Hpv. intros [= <- <- <-].
  by destruct (zz_candle rec).
Qed.

Lemma keep_last_le {A} (cap : nat) (l : list A) :
  length l ≤ cap → keep_last cap l = l.
Proof.
  intros H. unfold keep_last. by replace (length l - cap)%nat with 0%nat by lia.
Qed.

Lemma keep_last_length {A} (cap : nat) (l : list A) :
  length (keep_last cap l) ≤ cap.
Proof. unfold keep_last. rewrite length_drop. lia. Qed.

Lemma keep_last_app {A} (cap : nat) (l k : list A) :
  keep_last cap (keep_last cap l ++ k) = keep_last cap (l ++ k).
Proof.
  unfold keep_last. rewrite !length_app, length_drop.
  rewrite <- (drop_app_le l k) by lia. rewrite drop_drop. f_equal. lia.
Qed.

Lemma evict_list_no_age (cfg : config) (l : list pivot) (removed_ids : list nat) :
  max_age_ms cfg = None →
  ∃ r, evict_list cfg l removed_ids = Some (keep_last (max_pivots cfg) l, r).
Proof.
  intros Hage. unfold evict_list. destruct (0 <? length l) eqn:Hlen.
  - rewrite count_rule_spec. cbv beta iota. unfold age_rule. rewrite Hage. eauto.
  - apply Nat.ltb_ge in Hlen. destruct l; [|simpl in Hlen; lia]. eauto.
Qed.

Lemma run_window (cfg : config) (recs : list zigzag_output) (st st' : detector) :
  max_age_ms cfg = None → bounded cfg st →
  run cfg st recs = Some st' →
  peaks_list st'
    = keep_last (max_pivots cfg)
        (peaks_list st ++ filter is_peak (stamped (next_pivot_id st) recs))
  ∧ troughs_list st'
    = keep_last (max_pivots cfg)
        (troughs_list st ++ filter is_trough (stamped (next_pivot_id st) recs))
  ∧ bounded cfg st'.
Proof.
  intros Hage. revert st. induction recs as [|rec rest IH]; intros st Hb.
  - intros [= <-]. simpl. rewrite !app_nil_r.
    destruct Hb as [? ?]. by rewrite !keep_last_le.
  - rewrite stamped_cons, !filter_app. intros H0. simpl in H0. unfold add_pivot in H0.
    destruct (add_pivot_log cfg st rec) as [[[st1 ret] rem]|] eqn:Hstep; [|done].
    simpl in H0.
    destruct (add_pivot_log_ids _ _ _ _ _ _ Hstep) as (_ & Hn1 & _).
    rewrite <- Hn1.
    assert (Hw : peaks_list st1
                 = keep_last (max_pivots cfg)
                     (peaks_list st ++ filter is_peak (stamped (next_pivot_id st) [rec]))
               ∧ troughs_list st1
                 = keep_last (max_pivots cfg)
                     (troughs_list st
                      ++ filter is_trough (stamped (next_pivot_id st) [rec]))).
    { destruct (zz_pivot rec) as [pv|] eqn:Hpv.
      - destruct (add_pivot_log_lists _ _ _ _ _ _ _ Hpv Hstep) as (r0 & r1 & H1 & H2).
        destruct (evict_list_no_age cfg
                    (peaks_list st ++ filter is_peak (stamped (next_pivot_id st) [rec]))
                    [] Hage) as [r H1'].
        destruct (evict_list_no_age cfg
                    (troughs_list st
                     ++ filter is_trough (stamped (next_pivot_id st) [rec]))
                    r0 Hage) as [r' H2'].
        rewrite H1' in H1. rewrite H2' in H2. by injection H1 as <- _; injection H2 as <- _.
      - destruct (add_pivot_log_lists_none _ _ _ _ _ _ Hpv Hstep) as [-> ->].
        simpl. rewrite Hpv. simpl. rewrite !app_nil_r.
        destruct Hb as [? ?]. by rewrite !keep_last_le. }
    destruct Hw as [Hw1 Hw2].
    assert (Hb1 : bounded cfg st1).
    { split; [rewrite Hw1|rewrite Hw2]; apply keep_last_length. }
    destruct (IH st1 Hb1 H0) as (-> & -> & Hb').
    rewrite Hw1, Hw2, !keep_last_app, <- !app_assoc. done.
Qed.

(** With the age rule off, each pivot list is exactly the last [max_pivots]
    pivots of its type that were fed in, oldest first, with the ids they were
    given and their timestamp and price unchanged. *)
Theorem window_is_last_pivots (cfg : config) (recs : list zigzag_output)
    (st : detector) :
  max_age_ms cfg = None →
  run cfg init recs = Some st →
  peaks_list st = keep_last (max_pivots cfg) (filter is_peak (stamped 0 recs))
  ∧ troughs_list st
    = keep_last (max_pivots cfg) (filter is_trough (stamped 0 recs)).
Proof.
  intros Hage Hrun.
  destruct (run_window cfg recs init st Hage) as (? & ? & _); try done.
  unfold bounded. simpl. lia.
Qed.

Lemma last_filter_bool {A} (f : A → bool) (l : list A) (x : A) :
  last l = Some x → f x = true → last (filter f l) = Some x.
Proof.
  intros [l' ->]%last_Some Hx.
  rewrite filter_app, filter_cons_bool, Hx. apply last_snoc.
Qed.

(** One list after the two rules, with a non-negative age limit: the newest
    pivot stays, and nothing older than the limit before it does. *)
Lemma evict_list_age (cfg : config) (a : Q) (l : list pivot)
    (removed_ids : list nat) (l' : list pivot) (removed_ids' : list nat) :
  max_age_ms cfg = Some a → 0 <= a →
  evict_list cfg l removed_ids = Some (l', removed_ids') →
  ∀ latest p, last l' = Some latest → p ∈ l' →
              p_timestamp latest - a <= p_timestamp p.
Proof.
  intros Hage Ha. unfold evict_list. destruct (0 <? length l) eqn:Hlen.
  2: { intros [= <- <-]. apply Nat.ltb_ge in Hlen.
       destruct l; [|simpl in Hlen; lia]. by intros ? ? _ ?%elem_of_nil. }
  rewrite count_rule_spec. cbv beta iota. unfold age_rule. rewrite Hage.
  set (l1 := drop _ l).
  destruct (py_last l1) as [newest|] eqn:Hlast; [|done]. simpl.
  set (old := λ p : pivot, Qltb (p_timestamp p) (p_timestamp newest - a)).
  rewrite (remove_each_filter pivot_eqb old).
  - simpl. intros [= <- _] latest p Hl Hp.
    assert (Hkeep : negb (old newest) = true).
    { unfold old. apply negb_true_iff, Qltb_ge. lra. }
    rewrite (last_filter_bool (λ x, negb (old x)) l1 newest) in Hl by done.
    injection Hl as <-.
    apply elem_of_filter_bool in Hp as [Hp _].
    by apply negb_true_iff, Qltb_ge in Hp.
  - apply pivot_eqb_refl.
  - intros x y Hxy. unfold old.
    apply Qltb_proper; [by apply pivot_eqb_timestamp|reflexivity].
Qed.

(** With an age limit [a >= 0], after any sequence of calls no resident peak
    is more than [a] older than the newest resident peak, and likewise for
    troughs. *)
Theorem age_window (cfg : config) (a : Q) (recs : list zigzag_output)
    (st : detector) :
  max_age_ms cfg = Some a → 0 <= a →
  run cfg init recs = Some st →
  (∀ latest p, last (peaks_list st) = Some latest → p ∈ peaks_list st →
               p_timestamp latest - a <= p_timestamp p)
  ∧ (∀ latest t, last (troughs_list st) = Some latest → t ∈ troughs_list st →
                 p_timestamp latest - a <= p_timestamp t).
Proof.
  intros Hage Ha.
  apply (run_preserves cfg (λ st,
    (∀ latest p, last (peaks_list st) = Some latest → p ∈ peaks_list st →
                 p_timestamp latest - a <= p_timestamp p)
    ∧ (∀ latest t, last (troughs_list st) = Some latest → t ∈ troughs_list st →
                   p_timestamp latest - a <= p_timestamp t))).
  - clear st. intros st rec st' ret Hst Hstep. unfold add_pivot in Hstep.
    destruct (add_pivot_log cfg st rec) as [[[st1 ret1] rem]|] eqn:Hlog; [|done].
    injection Hstep as <- <-.
    destruct (zz_pivot rec) as [pv|] eqn:Hpv.
    + destruct (add_pivot_log_lists _ _ _ _ _ _ _ Hpv Hlog) as (r0 & r1 & H1 & H2).
      split; eapply evict_list_age; eauto.
    + by destruct (add_pivot_log_lists_none _ _ _ _ _ _ Hpv Hlog) as [-> ->].
  - split; by intros ? ? _ ?%elem_of_nil.
Qed.

(** *** Types of pivots and lines *)

Lemma StronglySorted_sublist {A} (R : A → A → Prop) (l1 l2 : list A) :
  l1 `sublist_of` l2 → StronglySorted R l2 → StronglySorted R l1.
Proof.
  induction 1 as [|x l1 l2 Hs IH|x l1 l2 Hs IH]; [done|..];
    rewrite ?StronglySorted_cons; intros [Hx Hl]; [|by apply IH].
  split; [|by apply IH].
  rewrite Forall_forall in Hx |- *. intros y Hy. apply Hx.
  by eapply elem_of_sublist.
Qed.

Lemma typed_init : typed init.
Proof. split; simpl; try (by intros ? ?%elem_of_nil); constructor. Qed.

Lemma typed_ingest_candle (c : option candle) (st : detector) :
  typed st → typed (ingest_candle c st).
Proof. destruct c; [|done]. by intros []. Qed.

Lemma typed_ingest_pivot (pv : raw_pivot) (st : detector) :
  (∀ p, p ∈ resident st → (p_id p < next_pivot_id st)%nat) →
  typed st → typed (ingest_pivot pv st).
Proof.
  intros Hlt [H1 H2 H3 H4 H5 H6].
  assert (Hsorted : ∀ l, (∀ p, p ∈ l → p ∈ resident st) →
            StronglySorted lt (p_id <$> l) →
            StronglySorted lt (p_id <$> l ++ [Pivot (next_pivot_id st)
                                 (r_timestamp pv) (r_price pv) (r_type pv)])).
  { intros l Hl Hs. rewrite fmap_app. apply StronglySorted_app.
    split; [|split; [done|repeat constructor]].
    intros i j (p & -> & Hp)%list_elem_of_fmap ->%list_elem_of_singleton.
    simpl. by apply Hlt, Hl. }
  unfold ingest_pivot. destruct (r_type pv) eqn:Hty; split; simpl; try done.
  - intros p [?| ->%list_elem_of_singleton]%elem_of_app; auto.
  - apply Hsorted; [|done].
    intros p Hp. unfold resident. rewrite elem_of_app. auto.
  - intros l (? & ? & ?)%H5. rewrite !elem_of_app. auto.
  - intros p [?| ->%list_elem_of_singleton]%elem_of_app; auto.
  - apply Hsorted; [|done].
    intros p Hp. unfold resident. rewrite elem_of_app. auto.
  - intros l (? & ? & ?)%H6. rewrite !elem_of_app. auto.
Qed.

Lemma typed_cleanup_old_pivots (cfg : config) (st st' : detector)
    (removed_ids : list nat) :
  typed st → cleanup_old_pivots cfg st = Some (st', removed_ids) → typed st'.
Proof.
  intros [H1 H2 H3 H4 H5 H6] Hc.
  destruct (cleanup_old_pivots_lists _ _ _ _ Hc) as (r1 & Hpk & Htr).
  apply evict_list_spec in Hpk as (g1 & -> & Hp1 & Hs1 & _).
  apply evict_list_spec in Htr as (g2 & Hrem & Hp2 & Hs2 & _).
  apply cleanup_old_pivots_spec in Hc
    as (_ & removed & -> & _ & _ & _ & _ & _ & _ & _ & Hu & Hl & _).
  assert (Hstay : ∀ (l l' g : list pivot) p,
            l ≡ₚ g ++ l' → (∀ q, q ∈ g → p_id q ∈ removed_ids) →
            p ∈ l → p_id p ∉ (list_to_set removed_ids : gset nat) → p ∈ l').
  { intros l l' g p Hperm Hg Hp Hno.
    rewrite Hperm, elem_of_app in Hp. destruct Hp as [Hp|Hp]; [|done].
    exfalso. apply Hno, elem_of_list_to_set. by apply Hg. }
  assert (Hg1 : ∀ q, q ∈ g1 → p_id q ∈ removed_ids).
  { intros q Hq. rewrite Hrem. simpl. rewrite elem_of_app. left.
    by apply list_elem_of_fmap_2. }
  assert (Hg2 : ∀ q, q ∈ g2 → p_id q ∈ removed_ids).
  { intros q Hq. rewrite Hrem. rewrite elem_of_app. right.
    by apply list_elem_of_fmap_2. }
  split.
  - intros p Hp. apply H1. by eapply elem_of_sublist.
  - intros p Hp. apply H2. by eapply elem_of_sublist.
  - eapply StronglySorted_sublist; [|exact H3]. by apply fmap_sublist.
  - eapply StronglySorted_sublist; [|exact H4]. by apply fmap_sublist.
  - intros l. rewrite Hu, elem_of_filter_bool, negb_true_iff.
    intros [Ht (? & Ha & Hb)%H5]. apply not_true_iff_false in Ht.
    rewrite touches_spec in Ht.
    split; [done|]. split; eapply Hstay; eauto.
  - intros l. rewrite Hl, elem_of_filter_bool, negb_true_iff.
    intros [Ht (? & Ha & Hb)%H6]. apply not_true_iff_false in Ht.
    rewrite touches_spec in Ht.
    split; [done|]. split; eapply Hstay; eauto.
Qed.

Lemma typed_with_candidates (n : nat) (st : detector) :
  typed st → typed (with_candidates n st).
Proof.
  intros [H1 H2 H3 H4 H5 H6]. unfold with_candidates, candidates.
  destruct (locate n st) as [[np pl]|] eqn:Hloc; simpl.
  2: { by rewrite set_lines_id. }
  apply locate_Some in Hloc as (Hnp & _ & Hpl).
  destruct (pair_with n np pl [] (created_line_pairs st)) as [nl cr] eqn:Hpw.
  apply pair_with_spec in Hpw as (news & -> & _ & _ & Hnews). simpl in *.
  rewrite store_lines_spec. simpl.
  assert (Hnew : ∀ l, l ∈ news →
            l_point1 l ∈ pl ∧ l_point2 l ∈ pl
            ∧ l_type l = match p_type (l_point1 l) with
                         | peak => upper | trough => lower end).
  { intros l (old & Hold & _ & Hcl & _)%Hnews.
    by destruct (create_line_inv _ _ _ Hcl) as (-> & -> & _ & ->). }
  split; simpl; try done.
  - intros l [Hl|[Hty Hl]%elem_of_filter_bool]%elem_of_app; [auto|].
    destruct (Hnew l Hl) as (Ha & Hb & Ht).
    destruct (l_type l) eqn:Hlt; [|done]. split; [done|].
    destruct Hpl as [-> | ->]; [done|].
    apply H2 in Ha. rewrite Ha in Ht. done.
  - intros l [Hl|[Hty Hl]%elem_of_filter_bool]%elem_of_app; [auto|].
    destruct (Hnew l Hl) as (Ha & Hb & Ht).
    destruct (l_type l) eqn:Hlt; [done|]. split; [done|].
    destruct Hpl as [-> | ->]; [|done].
    apply H1 in Ha. rewrite Ha in Ht. done.
Qed.

Lemma typed_update_valid_lines (cfg : config) (st st' : detector) :
  typed st → update_valid_lines cfg st = Some st' → typed st'.
Proof.
  intros [H1 H2 H3 H4 H5 H6] (-> & _)%update_valid_lines_spec.
  split; simpl; try done.
  - intros l [_ Hl]%elem_of_filter_bool. auto.
  - intros l [_ Hl]%elem_of_filter_bool. auto.
Qed.

Lemma typed_add_pivot_log (cfg : config) (st st' : detector) (rec : zigzag_output)
    (ret : option nat) (removed_ids : list nat) :
  wf (next_pivot_id st) st → typed st →
  add_pivot_log cfg st rec = Some (st', ret, removed_ids) → typed st'.
Proof.
  intros Hwf Ht. unfold add_pivot_log.
  apply (typed_ingest_candle (zz_candle rec)) in Ht.
  destruct (ingest_candle_other (zz_candle rec) st) as (Hpk & Htr & Hn & _).
  set (st0 := ingest_candle (zz_candle rec) st) in *.
  destruct (zz_pivot rec) as [pv|]; [|by intros [= <- <- <-]].
  apply (typed_ingest_pivot pv) in Ht.
  2: { intros p Hp. rewrite Hn. apply (wf_ids_lt _ _ Hwf).
       unfold resident in *. by rewrite <- Hpk, <- Htr. }
  destruct (cleanup_old_pivots cfg (ingest_pivot pv st0)) as [[st2 rem]|] eqn:Hc;
    [|done]. simpl.
  apply (typed_cleanup_old_pivots _ _ _ _ Ht) in Hc.
  rewrite generate_new_lines_unfold.
  pose proof (typed_with_candidates (next_pivot_id st0) st2 Hc) as Hw.
  destruct (0 <? _).
  - destruct (update_valid_lines cfg _) as [st3|] eqn:Hu; [|done]. simpl.
    intros [= <- <- <-]. by eapply typed_update_valid_lines.
  - simpl. by intros [= <- <- <-].
Qed.

Lemma run_log_typed (cfg : config) (recs : list zigzag_output) (st st' : detector)
    (rets : list (option nat)) (evicted : list nat) :
  wf (next_pivot_id st) st → typed st →
  run_log cfg st recs = Some (st', rets, evicted) → typed st'.
Proof.
  revert st rets evicted.
  induction recs as [|rec rest IH]; intros st rets evicted Hwf Ht; simpl.
  - by intros [= <- <- <-].
  - destruct (add_pivot_log cfg st rec) as [[[st1 ret] rem]|] eqn:Hstep; [|done].
    simpl.
    destruct (run_log cfg st1 rest) as [[[st2 rets2] ev2]|] eqn:Hrun; [|done].
    simpl. intros [= <- <- <-].
    destruct (add_pivot_log_step _ _ _ _ _ _ Hwf Hstep) as (Hwf1 & _).
    apply (IH st1 rets2 ev2 Hwf1); [|done].
    exact (typed_add_pivot_log _ _ _ _ _ _ Hwf Ht Hstep).
Qed.

Lemma run_typed (cfg : config) (recs : list zigzag_output) (st : detector) :
  run cfg init recs = Some st → typed st.
Proof.
  intros (rets & ev & Hrun)%run_Some_log.
  eapply run_log_typed; [apply wf_init|apply typed_init|done].
Qed.

(** After any sequence of calls [peaks_list] holds peaks only and
    [troughs_list] troughs only; an upper line has type [upper] and joins two
    resident peaks, a lower line has type [lower] and joins two resident
    troughs. *)
Theorem lines_join_same_type (cfg : config) (recs : list zigzag_output)
    (st : detector) :
  run cfg init recs = Some st →
  (∀ p, p ∈ peaks_list st → p_type p = peak)
  ∧ (∀ t, t ∈ troughs_list st → p_type t = trough)
  ∧ (∀ l, l ∈ upper_lines st →
          l_type l = upper ∧ l_point1 l ∈ peaks_list st
          ∧ l_point2 l ∈ peaks_list st)
  ∧ (∀ l, l ∈ lower_lines st →
          l_type l = lower ∧ l_point1 l ∈ troughs_list st
          ∧ l_point2 l ∈ troughs_list st).
Proof. intros [H1 H2 _ _ H5 H6]%run_typed. done. Qed.

(** Both pivot lists are in strictly increasing id order: the front element
    is the oldest. *)
Theorem pivot_lists_sorted_by_id (cfg : config) (recs : list zigzag_output)
    (st : detector) :
  run cfg init recs = Some st →
  StronglySorted lt (p_id <$> peaks_list st)
  ∧ StronglySorted lt (p_id <$> troughs_list st).
Proof. intros [_ _ H3 H4 _ _]%run_typed. done. Qed.

(** *** The report of [get_state] *)

Lemma cleanup_old_candles_combinations (st : detector) :
  valid_combinations (cleanup_old_candles st) = valid_combinations st.
Proof.
  unfold cleanup_old_candles. destruct (candles_list st); [done|].
  by destruct (oldest_pivot_ts st).
Qed.

Lemma cleanup_old_pivots_combinations (cfg : config) (st st' : detector)
    (removed_ids : list nat) :
  cleanup_old_pivots cfg st = Some (st', removed_ids) →
  valid_combinations st' = valid_combinations st.
Proof.
  unfold cleanup_old_pivots.
  destruct (evict_list cfg (peaks_list st) []) as [[pk r1]|]; [|done]. simpl.
  destruct (evict_list cfg (troughs_list st) r1) as [[tr r2]|]; [|done]. simpl.
  destruct (0 <? length r2).
  - rewrite cleanup_old_lines_spec. simpl. intros [= <- <-].
    by rewrite cleanup_old_candles_combinations.
  - by intros [= <- <-].
Qed.

Lemma add_pivot_log_combinations (cfg : config) (st st' : detector)
    (rec : zigzag_output) (ret : option nat) (removed_ids : list nat) :
  add_pivot_log cfg st rec = Some (st', ret, removed_ids) →
  valid_combinations st' = valid_combinations st.
Proof.
  unfold add_pivot_log.
  assert (H0 : valid_combinations (ingest_candle (zz_candle rec) st)
               = valid_combinations st) by (by destruct (zz_candle rec)).
  set (st0 := ingest_candle (zz_candle rec) st) in *.
  destruct (zz_pivot rec) as [pv|]; [|by intros [= <- <- <-]].
  assert (H1 : valid_combinations (ingest_pivot pv st0) = valid_combinations st0).
  { unfold ingest_pivot. by destruct (r_type pv). }
  destruct (cleanup_old_pivots cfg (ingest_pivot pv st0)) as [[st2 rem]|] eqn:Hc;
    [|done]. simpl.
  apply cleanup_old_pivots_combinations in Hc.
  rewrite generate_new_lines_unfold.
  destruct (0 <? _).
  - destruct (update_valid_lines cfg _) as [st3|] eqn:Hu; [|done]. simpl.
    intros [= <- <- <-]. apply update_valid_lines_spec in Hu as (-> & _).
    simpl. congruence.
  - simpl. intros [= <- <- <-]. simpl. congruence.
Qed.

(** [valid_combinations] is initialised and reset to the empty list and no
    other code writes it: whatever the calls, the detector holds no
    combination and [get_state] reports [num_combinations = 0]. *)
Theorem combinations_never_filled (cfg : config) (recs : list zigzag_output)
    (st : detector) :
  run cfg init recs = Some st →
  valid_combinations st = [] ∧ gs_num_combinations (get_state st) = 0%nat.
Proof.
  intros Hrun.
  assert (valid_combinations st = []) as H; [|simpl; by rewrite H].
  revert Hrun. apply (run_preserves cfg (λ s, valid_combinations s = [])); [|done].
  intros s rec s' ret Hs. unfold add_pivot.
  destruct (add_pivot_log cfg s rec) as [[[s1 r] rem]|] eqn:Hstep; [|done].
  simpl. intros [= <- <-].
  apply add_pivot_log_combinations in Hstep. congruence.
Qed.

Lemma all_pairs_length (ids : list nat) :
  (2 * length (all_pairs ids) = length ids * (length ids - 1))%nat.
Proof.
  induction ids as [|i rest IH]; [done|].
  simpl all_pairs. rewrite length_app, length_fmap. simpl length. nia.
Qed.

Lemma elem_of_all_pairs_sorted (ids : list nat) (i j : nat) :
  StronglySorted lt ids → i ∈ ids → j ∈ ids → (i < j)%nat →
  (i, j) ∈ all_pairs ids.
Proof.
  induction ids as [|a rest IH]; [by intros _ ?%elem_of_nil|].
  rewrite StronglySorted_cons, Forall_forall. intros [Ha Hs] Hi Hj Hlt.
  simpl. rewrite elem_of_app.
  apply elem_of_cons in Hi as [->|Hi].
  - apply elem_of_cons in Hj as [->|Hj]; [lia|].
    left. by apply list_elem_of_fmap_2.
  - apply elem_of_cons in Hj as [->|Hj].
    + apply Ha in Hi. lia.
    + right. by apply IH.
Qed.

Lemma line_count_le (ls : list line) (ps : list pivot) :
  NoDup (l_point_ids <$> ls) → StronglySorted lt (p_id <$> ps) →
  (∀ l, l ∈ ls →
        (p_id (l_point1 l) < p_id (l_point2 l))%nat
        ∧ l_point_ids l = (p_id (l_point1 l), p_id (l_point2 l))
        ∧ l_point1 l ∈ ps ∧ l_point2 l ∈ ps) →
  (2 * length ls ≤ length ps * (length ps - 1))%nat.
Proof.
  intros Hnd Hs Hl.
  assert (length (l_point_ids <$> ls) ≤ length (all_pairs (p_id <$> ps)))%nat as Hle.
  { apply submseteq_length, NoDup_submseteq; [done|].
    intros pr (l & -> & Hin)%list_elem_of_fmap.
    destruct (Hl l Hin) as (Hlt & -> & H1 & H2).
    apply elem_of_all_pairs_sorted; [done|by apply list_elem_of_fmap_2..|done]. }
  rewrite length_fmap in Hle.
  pose proof (all_pairs_length (p_id <$> ps)) as Hap.
  rewrite length_fmap in Hap. lia.
Qed.

(** What [get_state] reports after any sequence of calls: the listed ids are
    distinct and below [next_pivot_id], the pivot counts respect
    [max_pivots], and [n] pivots of one type carry at most [n (n - 1) / 2]
    lines of that type. *)
Theorem get_state_counts (cfg : config) (recs : list zigzag_output)
    (st : detector) :
  run cfg init recs = Some st →
  Forall (λ i, (i < gs_next_pivot_id (get_state st))%nat)
         (gs_peaks_ids (get_state st) ++ gs_troughs_ids (get_state st))
  ∧ NoDup (gs_peaks_ids (get_state st) ++ gs_troughs_ids (get_state st))
  ∧ (gs_num_peaks (get_state st) ≤ max_pivots cfg)%nat
  ∧ (gs_num_troughs (get_state st) ≤ max_pivots cfg)%nat
  ∧ (2 * gs_num_upper_lines (get_state st)
     ≤ gs_num_peaks (get_state st) * (gs_num_peaks (get_state st) - 1))%nat
  ∧ (2 * gs_num_lower_lines (get_state st)
     ≤ gs_num_troughs (get_state st) * (gs_num_troughs (get_state st) - 1))%nat.
Proof.
  intros Hrun. pose proof (run_typed _ _ _ Hrun) as [_ _ T3 T4 T5 T6].
  apply run_Some_log in Hrun as (rets & ev & Hrun).
  destruct (run_log_invariant _ _ _ _ _ _ wf_init Hrun) as (Hwf & Hb & _).
  destruct Hb as [Hb1 Hb2]; [split; simpl; lia|].
  destruct Hwf as [W1 W2 _ W4 W5 _]. simpl.
  unfold lines in W4, W5. rewrite fmap_app in W5.
  apply NoDup_app in W5 as (W5u & _ & W5l).
  split; [|split; [|split; [|split; [|split]]]]; try done.
  - rewrite <- fmap_app, Forall_forall.
    intros i (p & -> & Hp)%list_elem_of_fmap. by apply W1.
  - by rewrite <- fmap_app.
  - apply line_count_le; [done..|]. intros l Hl.
    destruct (W4 l) as [? ?]; [rewrite elem_of_app; by left|].
    destruct (T5 l Hl) as (_ & ? & ?). done.
  - apply line_count_le; [done..|]. intros l Hl.
    destruct (W4 l) as [? ?]; [rewrite elem_of_app; by right|].
    destruct (T6 l Hl) as (_ & ? & ?). done.
Qed.

(** *** [created_line_pairs] and the lines *)

Lemma pairs_exact_drop (keep drop : line → bool) (st st' : detector) :
  (∀ l, l ∈ lines st → keep l = negb (drop l)) →
  upper_lines st' = filter keep (upper_lines st) →
  lower_lines st' = filter keep (lower_lines st) →
  created_line_pairs st' =
    created_line_pairs st
      ∖ list_to_set (l_point_ids <$> filter drop (upper_lines st))
      ∖ list_to_set (l_point_ids <$> filter drop (lower_lines st)) →
  pairs_exact st → pairs_exact st'.
Proof.
  intros Hk Hu Hl Hc He pr.
  rewrite Hc, !elem_of_difference, !elem_of_list_to_set.
  intros [[Hpr Hn1] Hn2].
  apply He in Hpr as (l & -> & Hin)%list_elem_of_fmap.
  apply list_elem_of_fmap_2. pose proof (Hk l Hin) as Hkl.
  unfold lines in *. rewrite Hu, Hl.
  rewrite elem_of_app in Hin. rewrite elem_of_app, !elem_of_filter_bool.
  destruct (drop l) eqn:Hd.
  - exfalso.
    destruct Hin; [apply Hn1|apply Hn2];
      by apply list_elem_of_fmap_2, elem_of_filter_bool.
  - simpl in Hkl. tauto.
Qed.

Lemma pair_with_created (nid : nat) (np : pivot) (pl : list pivot)
    (nl : list line) (cr : gset (nat * nat)) (nl' : list line)
    (cr' : gset (nat * nat)) :
  pair_with nid np pl nl cr = (nl', cr') →
  ∀ pr, pr ∈ cr' →
    pr ∈ cr ∨ ∃ l old, l ∈ nl' ∧ old ∈ pl ∧ create_line old np = Some l
                       ∧ pr = sorted_pair (p_id old) (p_id np).
Proof.
  revert nl cr. induction pl as [|old pl IH]; intros nl cr.
  - intros [= <- <-] pr Hpr. by left.
  - assert (Hskip : pair_with nid np pl nl cr = (nl', cr') →
      ∀ pr, pr ∈ cr' →
        pr ∈ cr ∨ ∃ l o, l ∈ nl' ∧ o ∈ old :: pl ∧ create_line o np = Some l
                         ∧ pr = sorted_pair (p_id o) (p_id np)).
    { intros Hp pr Hpr.
      destruct (IH _ _ Hp pr Hpr) as [?|(l & o & ? & ? & ? & ?)]; [by left|right].
      exists l, o. split; [done|]. split; [by right|done]. }
    cbn [pair_with]. destruct (p_id old =? nid); [done|].
    destruct (bool_decide _); [done|].
    destruct (create_line old np) as [l0|] eqn:Ecl; [|done].
    intros Hp pr Hpr.
    destruct (IH _ _ Hp pr Hpr)
      as [[->%elem_of_singleton|?]%elem_of_union|(l & o & ? & ? & ? & ?)].
    + right. exists l0, old.
      apply pair_with_spec in Hp as (news & -> & _).
      split; [rewrite !elem_of_app, list_elem_of_singleton; auto|].
      split; [by left|done].
    + by left.
    + right. exists l, o. split; [done|]. split; [by right|done].
Qed.

Lemma pairs_exact_with_candidates (n : nat) (st : detector) :
  (∀ p, p ∈ resident st → (p_id p ≤ n)%nat) →
  pairs_exact st → pairs_exact (with_candidates n st).
Proof.
  intros Hle He. unfold with_candidates, candidates.
  destruct (locate n st) as [[np pl]|] eqn:Hloc; simpl.
  2: { by rewrite set_lines_id. }
  apply locate_Some in Hloc as (Hnp & Hid & Hpl).
  destruct (pair_with n np pl [] (created_line_pairs st)) as [nl cr] eqn:Hpw.
  pose proof (pair_with_created _ _ _ _ _ _ _ Hpw) as Hcr.
  pose proof (store_lines_perm nl (upper_lines st) (lower_lines st)) as Hperm.
  intros pr Hpr. simpl in Hpr. unfold lines. simpl.
  rewrite Hperm, fmap_app, elem_of_app.
  destruct (Hcr pr Hpr) as [Hold|(l & old & Hl & Hold & Hcl & ->)].
  - left. by apply He.
  - right. destruct (create_line_inv _ _ _ Hcl) as (_ & _ & Hids & _).
    apply list_elem_of_fmap. exists l. split; [|done]. rewrite Hids.
    unfold sorted_pair. destruct (p_id np <? p_id old) eqn:E; [|done].
    apply Nat.ltb_lt in E.
    assert (old ∈ resident st) as Hres.
    { unfold resident. rewrite elem_of_app. destruct Hpl as [<-| <-]; auto. }
    apply Hle in Hres. lia.
Qed.

(** The states between the phases of a call that carries a pivot. *)
Lemma add_pivot_log_phases (cfg : config) (st st' : detector) (rec : zigzag_output)
    (pv : raw_pivot) (ret : option nat) (removed_ids : list nat) :
  zz_pivot rec = Some pv →
  add_pivot_log cfg st rec = Some (st', ret, removed_ids) →
  ∃ st2,
    cleanup_old_pivots cfg (ingest_pivot pv (ingest_candle (zz_candle rec) st))
      = Some (st2, removed_ids)
    ∧ generate_new_lines cfg (next_pivot_id st) st2 = Some st'
    ∧ next_pivot_id st2 = S (next_pivot_id st)
    ∧ (wf (next_pivot_id st) st → wf (next_pivot_id st) st2)
    ∧ (wf (next_pivot_id st) st → typed st → typed st2)
    ∧ (pairs_exact st → pairs_exact st2).
Proof.
  intros Hpv. unfold add_pivot_log. rewrite Hpv.
  destruct (ingest_candle_other (zz_candle rec) st)
    as (Hpk & Htr & Hn & Hup & Hlo & Hcr & _).
  set (st0 := ingest_candle (zz_candle rec) st) in *.
  destruct (ingest_pivot_other pv st0) as (Hn1 & Hl1 & Hc1 & _).
  destruct (cleanup_old_pivots cfg (ingest_pivot pv st0)) as [[st2 rem]|] eqn:Hc;
    [|done]. simpl.
  destruct (generate_new_lines cfg (next_pivot_id st0) st2) as [st3|] eqn:Hg;
    [|done]. simpl.
  intros [= <- <- <-]. exists st2. split; [done|]. split; [by rewrite <- Hn|].
  assert (Hwf2 : wf (next_pivot_id st) st → wf (next_pivot_id st) st2).
  { intros Hwf. apply (wf_ingest_candle _ (zz_candle rec)) in Hwf.
    fold st0 in Hwf. rewrite <- Hn in Hwf |- *.
    apply (wf_ingest_pivot pv) in Hwf.
    by eapply wf_cleanup_old_pivots. }
  split; [|split; [done|split]].
  - apply cleanup_old_pivots_spec in Hc
      as (_ & _ & _ & _ & _ & _ & _ & _ & _ & -> & _). congruence.
  - intros Hwf Ht. eapply typed_cleanup_old_pivots; [|exact Hc].
    apply typed_ingest_pivot; [|by apply typed_ingest_candle].
    intros p Hp. rewrite Hn. apply (wf_ids_lt _ _ Hwf).
    unfold resident in *. by rewrite <- Hpk, <- Htr.
  - intros He.
    apply cleanup_old_pivots_spec in Hc
      as (_ & removed & _ & _ & _ & _ & _ & _ & _ & _ & Hu & Hl & Hcr2 & _).
    eapply (pairs_exact_drop _ (touches removed)); [|exact Hu|exact Hl|exact Hcr2|].
    + done.
    + intros pr. rewrite Hl1, Hc1. unfold lines. rewrite Hcr, Hup, Hlo. apply He.
Qed.

Lemma pairs_exact_add_pivot_log (cfg : config) (st st' : detector)
    (rec : zigzag_output) (ret : option nat) (removed_ids : list nat) :
  wf (next_pivot_id st) st → pairs_exact st →
  add_pivot_log cfg st rec = Some (st', ret, removed_ids) → pairs_exact st'.
Proof.
  intros Hwf He Hstep. destruct (zz_pivot rec) as [pv|] eqn:Hpv.
  - destruct (add_pivot_log_phases _ _ _ _ _ _ _ Hpv Hstep)
      as (st2 & _ & Hg & Hn2 & Hwf2 & _ & He2).
    specialize (Hwf2 Hwf). specialize (He2 He).
    rewrite generate_new_lines_unfold in Hg.
    assert (Hw : pairs_exact (with_candidates (next_pivot_id st) st2)).
    { apply pairs_exact_with_candidates; [|done].
      intros p Hp. pose proof (wf_ids_lt _ _ Hwf2 p Hp). lia. }
    destruct (0 <? _); [|by injection Hg as <-].
    apply update_valid_lines_spec in Hg as (-> & Hk).
    by eapply pairs_exact_drop; [exact Hk|..|exact Hw].
  - unfold add_pivot_log in Hstep. rewrite Hpv in Hstep.
    injection Hstep as <- <- <-.
    destruct (ingest_candle_other (zz_candle rec) st)
      as (_ & _ & _ & Hup & Hlo & Hcr & _).
    intros pr. unfold lines. rewrite Hcr, Hup, Hlo. apply He.
Qed.

Lemma run_log_pairs_exact (cfg : config) (recs : list zigzag_output)
    (st st' : detector) (rets : list (option nat)) (evicted : list nat) :
  wf (next_pivot_id st) st → pairs_exact st →
  run_log cfg st recs = Some (st', rets, evicted) → pairs_exact st'.
Proof.
  revert st rets evicted.
  induction recs as [|rec rest IH]; intros st rets evicted Hwf He; simpl.
  - by intros [= <- <- <-].
  - destruct (add_pivot_log cfg st rec) as [[[st1 ret] rem]|] eqn:Hstep; [|done].
    simpl.
    destruct (run_log cfg st1 rest) as [[[st2 rets2] ev2]|] eqn:Hrun; [|done].
    simpl. intros [= <- <- <-].
    destruct (add_pivot_log_step _ _ _ _ _ _ Hwf Hstep) as (Hwf1 & _).
    apply (IH st1 rets2 ev2 Hwf1); [|done].
    exact (pairs_exact_add_pivot_log _ _ _ _ _ _ Hwf He Hstep).
Qed.

Lemma run_invariants (cfg : config) (recs : list zigzag_output) (st : detector) :
  run cfg init recs = Some st →
  wf (next_pivot_id st) st ∧ typed st ∧ pairs_exact st.
Proof.
  intros Hrun. split; [|split; [by eapply run_typed|]];
    apply run_Some_log in Hrun as (rets & ev & Hrun).
  - by destruct (run_log_invariant _ _ _ _ _ _ wf_init Hrun) as (? & _).
  - eapply run_log_pairs_exact; [apply wf_init| |done].
    by intros pr ?%elem_of_empty.
Qed.

(** After any sequence of calls the set [created_line_pairs] holds exactly
    the [point_ids] of the resident lines: a pair leaves the set when its
    line is removed and enters it only with a stored line. *)
Theorem created_pairs_mirror_lines (cfg : config) (recs : list zigzag_output)
    (st : detector) :
  run cfg init recs = Some st →
  created_line_pairs st = list_to_set (l_point_ids <$> lines st).
Proof.
  intros (Hwf & _ & He)%run_invariants.
  apply set_eq. intros pr. rewrite elem_of_list_to_set. split; [apply He|].
  intros (l & -> & Hl)%list_elem_of_fmap. by apply (wf_created _ _ Hwf).
Qed.

(** *** Completeness of the generation *)

Lemma sorted_pair_inj (a b n : nat) :
  sorted_pair a n = sorted_pair b n → a = b.
Proof.
  unfold sorted_pair. destruct (n <? a), (n <? b); congruence.
Qed.

Lemma pair_with_complete (nid : nat) (np : pivot) (pl : list pivot)
    (nl : list line) (cr : gset (nat * nat)) (nl' : list line)
    (cr' : gset (nat * nat)) :
  pair_with nid np pl nl cr = (nl', cr') →
  NoDup (p_id <$> pl) →
  (∀ old, old ∈ pl → sorted_pair (p_id old) (p_id np) ∉ cr) →
  ∀ old l, old ∈ pl → p_id old ≠ nid → create_line old np = Some l → l ∈ nl'.
Proof.
  revert nl cr. induction pl as [|old pl IH]; intros nl cr.
  - intros _ _ _ o l ?%elem_of_nil. done.
  - cbn [pair_with]. rewrite fmap_cons, NoDup_cons.
    intros Hp [Hnew Hnd] Hcr o l Ho Hne Hcl.
    assert (Hcr' : ∀ o', o' ∈ pl → sorted_pair (p_id o') (p_id np) ∉ cr).
    { intros o' Ho'. apply Hcr. by right. }
    destruct (p_id old =? nid) eqn:Eid.
    { apply Nat.eqb_eq in Eid. apply elem_of_cons in Ho as [->|Ho]; [done|].
      by eapply IH. }
    destruct (bool_decide _) eqn:Ecr.
    { apply bool_decide_eq_true in Ecr. exfalso. apply (Hcr old); [by left|done]. }
    destruct (create_line old np) as [l0|] eqn:Ecl0.
    + apply elem_of_cons in Ho as [->|Ho].
      * apply pair_with_spec in Hp as (news & -> & _).
        rewrite !elem_of_app, list_elem_of_singleton. left. right. congruence.
      * eapply (IH _ _ Hp); [done| |exact Ho|done|done].
        intros o' Ho' [Heq%elem_of_singleton|Hin]%elem_of_union.
        -- apply sorted_pair_inj in Heq. apply Hnew. rewrite <- Heq.
           by apply list_elem_of_fmap_2.
        -- by apply (Hcr' o').
    + apply elem_of_cons in Ho as [->|Ho]; [congruence|]. by eapply IH.
Qed.

Lemma find_pivot_NoDup (l : list pivot) (p : pivot) :
  NoDup (p_id <$> l) → p ∈ l → find_pivot (p_id p) l = Some p.
Proof.
  unfold find_pivot. induction l as [|a l IH]; [by intros _ ?%elem_of_nil|].
  rewrite fmap_cons, NoDup_cons. intros [Ha Hnd] Hp. simpl.
  destruct (p_id a =? p_id p) eqn:E.
  - apply Nat.eqb_eq in E. apply elem_of_cons in Hp as [->|Hp]; [done|].
    exfalso. apply Ha. rewrite E. by apply list_elem_of_fmap_2.
  - apply elem_of_cons in Hp as [->|Hp]; [by rewrite Nat.eqb_refl in E|].
    by apply IH.
Qed.

Lemma find_pivot_None (l : list pivot) (i : nat) :
  i ∉ (p_id <$> l) → find_pivot i l = None.
Proof.
  unfold find_pivot. induction l as [|a l IH]; [done|].
  rewrite fmap_cons, not_elem_of_cons. intros [Hne Hi]. simpl.
  destruct (p_id a =? i) eqn:E; [apply Nat.eqb_eq in E; congruence|].
  by apply IH.
Qed.

Lemma locate_resident (st : detector) (np : pivot) :
  NoDup (p_id <$> resident st) → typed st → np ∈ resident st →
  locate (p_id np) st =
    Some (np, match p_type np with
              | peak => peaks_list st | trough => troughs_list st end).
Proof.
  unfold resident. rewrite fmap_app. intros (N1 & N2 & N3)%NoDup_app Ht.
  rewrite elem_of_app. unfold locate. intros [Hp|Hp].
  - rewrite (find_pivot_NoDup _ _ N1 Hp). by rewrite (typed_peaks _ Ht _ Hp).
  - rewrite find_pivot_None.
    2: { intros Hin. apply (N2 _ Hin). by apply list_elem_of_fmap_2. }
    rewrite (find_pivot_NoDup _ _ N3 Hp). by rewrite (typed_troughs _ Ht _ Hp).
Qed.

Lemma NoDup_fmap_elem_inj {A B} (f : A → B) (l : list A) (x y : A) :
  NoDup (f <$> l) → x ∈ l → y ∈ l → f x = f y → x = y.
Proof.
  induction l as [|a l IH]; [by intros _ ?%elem_of_nil|].
  rewrite fmap_cons, NoDup_cons. intros [Ha Hnd] Hx Hy Heq.
  apply elem_of_cons in Hx as [->|Hx]; apply elem_of_cons in Hy as [->|Hy];
    [done|..|by apply IH]; exfalso; apply Ha.
  - rewrite Heq. by apply list_elem_of_fmap_2.
  - rewrite <- Heq. by apply list_elem_of_fmap_2.
Qed.

(** A call that stores a pivot tries it against every pivot of its type that
    is resident after the eviction and has a different timestamp: each such
    pair yields a candidate line.  In particular the duplicate test on
    [created_line_pairs] never skips a pair. *)
Theorem generation_complete (cfg : config) (recs : list zigzag_output)
    (st st' : detector) (rec : zigzag_output) (pv : raw_pivot)
    (ret : option nat) (removed_ids : list nat) (np old : pivot) :
  run cfg init recs = Some st →
  zz_pivot rec = Some pv →
  add_pivot_log cfg st rec = Some (st', ret, removed_ids) →
  np ∈ resident st' → p_id np = next_pivot_id st →
  old ∈ resident st' → p_type old = p_type np →
  ¬ p_timestamp np == p_timestamp old →
  ∃ l, create_line old np = Some l ∧ l ∈ generated cfg st rec.
Proof.
  intros (Hwf & Ht & He)%run_invariants Hpv Hstep Hnp Hid Hold Hty Hts.
  destruct (add_pivot_log_phases _ _ _ _ _ _ _ Hpv Hstep)
    as (st2 & Hc & Hg & Hn2 & Hwf2 & Ht2 & He2).
  specialize (Hwf2 Hwf). specialize (Ht2 Hwf Ht). specialize (He2 He).
  destruct (generate_new_lines_other _ _ _ _ Hg) as (Hpk & Htr & _).
  unfold resident in Hnp, Hold. rewrite Hpk, Htr in Hnp, Hold.
  fold (resident st2) in Hnp, Hold.
  destruct (create_line_Some old np Hts) as (l & Hcl & _).
  exists l. split; [done|].
  destruct (ingest_candle_other (zz_candle rec) st) as (_ & _ & Hn & _).
  unfold generated. rewrite Hpv, Hc, Hn. unfold candidates.
  rewrite <- Hid, (locate_resident st2 np (wf_ids_nodup _ _ Hwf2) Ht2 Hnp).
  set (pl := match p_type np with
             | peak => peaks_list st2 | trough => troughs_list st2 end).
  assert (Hpl : ∀ p, p ∈ pl → p ∈ resident st2).
  { intros p Hp. unfold resident. rewrite elem_of_app. subst pl.
    destruct (p_type np); auto. }
  destruct (pair_with (p_id np) np pl [] (created_line_pairs st2))
    as [nl cr] eqn:Hpw. simpl.
  eapply (pair_with_complete _ _ _ _ _ _ _ Hpw); [| | |..|exact Hcl].
  - pose proof (wf_ids_nodup _ _ Hwf2) as Hnd. unfold resident in Hnd.
    rewrite fmap_app in Hnd. apply NoDup_app in Hnd as (? & _ & ?).
    subst pl. by destruct (p_type np).
  - intros o Ho Hin. apply He2 in Hin as (k & Hk & Hkin)%list_elem_of_fmap.
    destruct (wf_endpoints _ _ Hwf2 k Hkin) as (_ & _ & Hlt).
    destruct (wf_ordered _ _ Hwf2 k Hkin) as (_ & Hids).
    pose proof (wf_ids_lt _ _ Hwf2 o (Hpl o Ho)) as Hle.
    rewrite Hids in Hk. unfold sorted_pair in Hk.
    destruct (p_id np <? p_id o) eqn:E.
    + apply Nat.ltb_lt in E. lia.
    + injection Hk as _ Hk. lia.
  - unfold resident in Hold. rewrite elem_of_app in Hold. subst pl.
    destruct Hold as [Hold|Hold].
    + rewrite <- Hty, (typed_peaks _ Ht2 _ Hold). done.
    + rewrite <- Hty, (typed_troughs _ Ht2 _ Hold). done.
  - intros Heq.
    assert (old = np) as ->; [|by apply Hts].
    by eapply (NoDup_fmap_elem_inj p_id); [apply (wf_ids_nodup _ _ Hwf2)|..].
Qed.

(** *** Resident lines after every call *)

Lemma dated_from_outside (l : line) (c : candle) :
  dated_from (p_timestamp (l_point1 l)) c = true →
  dated_from (p_timestamp (l_point2 l)) c = true →
  is_between l c = false.
Proof.
  unfold dated_from. rewrite !negb_true_iff, !Qltb_ge. intros H1 H2.
  apply not_true_iff_false. rewrite is_between_spec. intros [_ H].
  pose proof (Q.max_lub _ _ _ H1 H2). lra.
Qed.

Lemma resident_after_call (cfg : config) (st st' : detector) (rec : zigzag_output)
    (ret : option nat) (removed_ids : list nat) (p : pivot) :
  add_pivot_log cfg st rec = Some (st', ret, removed_ids) →
  p ∈ resident st' →
  p ∈ resident st
  ∨ ∃ pv, zz_pivot rec = Some pv
          ∧ p = {| p_id := next_pivot_id st; p_timestamp := r_timestamp pv;
                   p_price := r_price pv; p_type := r_type pv |}.
Proof.
  intros Hstep Hp.
  destruct (ingest_candle_other (zz_candle rec) st) as (Hpk & Htr & Hn & _).
  destruct (zz_pivot rec) as [pv|] eqn:Hpv.
  - destruct (add_pivot_log_phases _ _ _ _ _ _ _ Hpv Hstep)
      as (st2 & Hc & Hg & _).
    destruct (generate_new_lines_other _ _ _ _ Hg) as (Hpk' & Htr' & _).
    apply cleanup_old_pivots_spec in Hc as (gone & _ & _ & _ & Hperm & _).
    assert (p ∈ resident (ingest_pivot pv (ingest_candle (zz_candle rec) st)))
      as Hp1.
    { rewrite Hperm, elem_of_app. right. unfold resident in *. congruence. }
    rewrite resident_ingest_pivot, elem_of_app, list_elem_of_singleton in Hp1.
    destruct Hp1 as [Hp1| ->].
    + left. unfold resident in *. by rewrite <- Hpk, <- Htr.
    + right. exists pv. by rewrite Hn.
  - left. destruct (add_pivot_log_lists_none _ _ _ _ _ _ Hpv Hstep) as [H1 H2].
    unfold resident in *. by rewrite <- H1, <- H2.
Qed.

Lemma run_all_valid (cfg : config) (recs : list zigzag_output) (seen : list Q)
    (st st' : detector) :
  wf (next_pivot_id st) st → typed st → all_valid cfg st →
  (∀ p, p ∈ resident st → p_timestamp p ∈ seen) →
  time_ordered_from seen recs = true →
  run cfg st recs = Some st' → all_valid cfg st'.
Proof.
  revert seen st.
  induction recs as [|rec rest IH]; intros seen st Hwf Ht Hv Hseen Hord; simpl.
  - by intros [= <-].
  - simpl in Hord. apply andb_true_iff in Hord as [Hc Hrest].
    destruct (add_pivot cfg st rec) as [[st1 ret]|] eqn:Hcall; [|done]. simpl.
    assert (∃ rem, add_pivot_log cfg st rec = Some (st1, ret, rem))
      as [rem Hstep].
    { unfold add_pivot in Hcall.
      destruct (add_pivot_log cfg st rec) as [[[s r] rem]|]; [|done].
      injection Hcall as <- <-. by exists rem. }
    destruct (add_pivot_log_step _ _ _ _ _ _ Hwf Hstep) as (Hwf1 & _).
    apply (IH (match zz_pivot rec with
               | Some pv => r_timestamp pv :: seen
               | None => seen
               end) st1 Hwf1);
      [exact (typed_add_pivot_log _ _ _ _ _ _ Hwf Ht Hstep)| | |exact Hrest].
    + apply (all_valid_add_pivot cfg st st1 rec ret Hv); [|done].
      intros c l Hcand Hl. rewrite Hcand, forallb_forall in Hc.
      assert (l_point1 l ∈ resident st ∧ l_point2 l ∈ resident st) as [H1 H2].
      { unfold lines, resident in *. rewrite !elem_of_app.
        apply elem_of_app in Hl as [Hl|Hl].
        - destruct (typed_upper _ Ht l Hl) as (_ & ? & ?). auto.
        - destruct (typed_lower _ Ht l Hl) as (_ & ? & ?). auto. }
      apply dated_from_outside; by apply Hc, list_elem_of_In, Hseen.
    + intros p Hp.
      destruct (resident_after_call _ _ _ _ _ _ _ Hstep Hp)
        as [Hold|(pv & -> & ->)].
      * destruct (zz_pivot rec); [right|]; by apply Hseen.
      * by left.
Qed.

(** C1, as the code has it.  After every call on a fresh instance every
    resident line passes the three checks against the current candle window,
    candle-only records and calls without a candidate included, as long as
    the records come in time order: no candle dated before a pivot that an
    earlier record delivered.  Whatever the order and the state, the same
    holds after a call that generated at least one candidate line. *)
Theorem resident_lines_valid (cfg : config) :
  (∀ recs st,
     time_ordered recs = true → run cfg init recs = Some st →
     ∀ l, l ∈ upper_lines st ++ lower_lines st →
          validate_single_line cfg (candles_list st) l = Some (true, OK))
  ∧ (∀ st st' rec ret,
       add_pivot cfg st rec = Some (st', ret) → generated cfg st rec ≠ [] →
       ∀ l, l ∈ upper_lines st' ++ lower_lines st' →
            validate_single_line cfg (candles_list st') l = Some (true, OK)).
Proof.
  split.
  - intros recs st Hord Hrun.
    apply (run_all_valid cfg recs [] init st wf_init typed_init); [..|done|done].
    + by intros l ?%elem_of_nil.
    + by intros p ?%elem_of_nil.
  - intros st st' rec ret. apply all_valid_after_generation.
Qed.

(** *** Keys of the lines that leave *)

Lemma lines_after_call (cfg : config) (st st' : detector) (rec : zigzag_output)
    (ret : option nat) (removed_ids : list nat) (l : line) :
  add_pivot_log cfg st rec = Some (st', ret, removed_ids) →
  l ∈ lines st' → l ∈ lines st ∨ l ∈ generated cfg st rec.
Proof.
  intros Hstep Hl.
  destruct (ingest_candle_other (zz_candle rec) st)
    as (_ & _ & Hn & Hup & Hlo & _).
  destruct (zz_pivot rec) as [pv|] eqn:Hpv.
  - destruct (add_pivot_log_phases _ _ _ _ _ _ _ Hpv Hstep)
      as (st2 & Hc & Hg & _).
    unfold generated. rewrite Hpv, Hc, Hn.
    destruct (ingest_pivot_other pv (ingest_candle (zz_candle rec) st))
      as (_ & Hl1 & _).
    apply cleanup_old_pivots_spec in Hc
      as (_ & removed & _ & _ & _ & _ & _ & _ & _ & _ & Hu & Hlo2 & _).
    assert (Hw : l ∈ lines (with_candidates (next_pivot_id st) st2) →
                 l ∈ lines st ∨ l ∈ (candidates (next_pivot_id st) st2).1).
    { unfold with_candidates, lines at 1. simpl.
      rewrite store_lines_perm, elem_of_app. intros [H|H]; [left|by right].
      apply (cleaned_lines removed _ st2 l Hu Hlo2) in H as [H _].
      rewrite Hl1 in H. unfold lines in *. by rewrite <- Hup, <- Hlo. }
    rewrite generate_new_lines_unfold in Hg. apply Hw.
    destruct (0 <? _); [|by injection Hg as <-].
    apply update_valid_lines_spec in Hg as (-> & _).
    unfold lines in *. simpl in Hl. rewrite elem_of_app in Hl |- *.
    destruct Hl as [[_ ?]%elem_of_filter_bool|[_ ?]%elem_of_filter_bool]; auto.
  - left. unfold add_pivot_log in Hstep. rewrite Hpv in Hstep.
    injection Hstep as <- _ _. unfold lines in *. by rewrite <- Hup, <- Hlo.
Qed.

Lemma generated_spec (cfg : config) (st : detector) (rec : zigzag_output) :
  wf (next_pivot_id st) st →
  ∃ pl np,
    NoDup (p_id <$> pl) ∧ p_id np = next_pivot_id st
    ∧ (∀ p, p ∈ pl → (p_id p ≤ next_pivot_id st)%nat)
    ∧ ∀ l, l ∈ generated cfg st rec →
           ∃ old, old ∈ pl ∧ p_id old ≠ p_id np ∧ create_line old np = Some l.
Proof.
  intros Hwf.
  assert (Hnone : ∃ (pl : list pivot) np,
            NoDup (p_id <$> pl) ∧ p_id np = next_pivot_id st
            ∧ (∀ p, p ∈ pl → (p_id p ≤ next_pivot_id st)%nat)
            ∧ ∀ l : line, l ∈ [] →
                ∃ old, old ∈ pl ∧ p_id old ≠ p_id np ∧ create_line old np = Some l).
  { exists [], (Pivot (next_pivot_id st) 0 0 peak).
    split; [constructor|]. split; [done|].
    split; by intros ? ?%elem_of_nil. }
  unfold generated. destruct (zz_pivot rec) as [pv|]; [|exact Hnone].
  destruct (ingest_candle_other (zz_candle rec) st) as (_ & _ & Hn & _).
  apply (wf_ingest_candle _ (zz_candle rec)) in Hwf.
  set (st0 := ingest_candle (zz_candle rec) st) in *.
  rewrite <- Hn in Hwf. apply (wf_ingest_pivot pv) in Hwf.
  destruct (ingest_pivot_other pv st0) as (Hn1 & _).
  destruct (cleanup_old_pivots cfg (ingest_pivot pv st0)) as [[st2 rem]|] eqn:Hc;
    [|rewrite Hn in *; exact Hnone].
  pose proof (wf_cleanup_old_pivots _ _ _ _ _ Hwf Hc) as Hwf2.
  apply cleanup_old_pivots_spec in Hc
    as (_ & _ & _ & _ & _ & _ & _ & _ & _ & Hn2 & _).
  unfold candidates.
  destruct (locate (next_pivot_id st0) st2) as [[np pl]|] eqn:Hloc;
    [|rewrite Hn in *; exact Hnone].
  apply locate_Some in Hloc as (Hnp & Hid & Hpl).
  destruct (pair_with (next_pivot_id st0) np pl [] (created_line_pairs st2))
    as [nl cr] eqn:Hpw.
  apply pair_with_spec in Hpw as (news & -> & _ & _ & Hnews). simpl.
  exists pl, np. rewrite <- Hn.
  assert (Hres : ∀ p, p ∈ pl → p ∈ resident st2).
  { intros p Hp. unfold resident. rewrite elem_of_app.
    destruct Hpl as [<-| <-]; auto. }
  split; [|split; [done|split]].
  - pose proof (wf_ids_nodup _ _ Hwf2) as Hnd. unfold resident in Hnd.
    rewrite fmap_app in Hnd. apply NoDup_app in Hnd as (? & _ & ?).
    by destruct Hpl as [-> | ->].
  - intros p Hp. pose proof (wf_ids_lt _ _ Hwf2 p (Hres p Hp)). lia.
  - intros l (old & ? & ? & ? & _)%Hnews. exists old. by rewrite Hid.
Qed.

(** C10: every resident line has the older pivot first, its stored
    [point_ids] is the sorted pair that [_generate_new_lines] uses as key, and
    that key is in [created_line_pairs].  A line that leaves in a call, be it
    a resident line or a candidate of that call, dropped with an evicted
    pivot or rejected by the validator, has the same shape, and its key is
    not in [created_line_pairs] after the call. *)
Theorem ordered_endpoints (cfg : config) (recs : list zigzag_output)
    (st : detector) :
  run cfg init recs = Some st →
  (∀ l, l ∈ upper_lines st ++ lower_lines st →
        (p_id (l_point1 l) < p_id (l_point2 l))%nat
        ∧ l_point_ids l = sorted_pair (p_id (l_point1 l)) (p_id (l_point2 l))
        ∧ l_point_ids l ∈ created_line_pairs st)
  ∧ (∀ rec st' ret,
       add_pivot cfg st rec = Some (st', ret) →
       ∀ l, l ∈ upper_lines st ++ lower_lines st ∨ l ∈ generated cfg st rec →
            l ∉ upper_lines st' ++ lower_lines st' →
            (p_id (l_point1 l) < p_id (l_point2 l))%nat
            ∧ l_point_ids l = sorted_pair (p_id (l_point1 l)) (p_id (l_point2 l))
            ∧ l_point_ids l ∉ created_line_pairs st').
Proof.
  intros (Hwf & Ht & He)%run_invariants.
  assert (Hold : ∀ l, l ∈ lines st →
            (p_id (l_point1 l) < p_id (l_point2 l))%nat
            ∧ l_point_ids l = (p_id (l_point1 l), p_id (l_point2 l))
            ∧ l_point_ids l = sorted_pair (p_id (l_point1 l)) (p_id (l_point2 l))
            ∧ (p_id (l_point2 l) < next_pivot_id st)%nat).
  { intros l Hl. destruct (wf_ordered _ _ Hwf l Hl) as [Hlt Hids].
    destruct (wf_endpoints _ _ Hwf l Hl) as (_ & _ & Hb).
    by rewrite Hids, sorted_pair_lt. }
  split.
  { intros l Hl. destruct (Hold l Hl) as (? & _ & ? & _).
    split; [done|]. split; [done|]. by apply (wf_created _ _ Hwf). }
  intros rec st' ret Hcall.
  assert (∃ rem, add_pivot_log cfg st rec = Some (st', ret, rem)) as [rem Hstep].
  { unfold add_pivot in Hcall.
    destruct (add_pivot_log cfg st rec) as [[[s r] rem]|]; [|done].
    injection Hcall as <- <-. by exists rem. }
  pose proof (pairs_exact_add_pivot_log _ _ _ _ _ _ Hwf He Hstep) as He'.
  destruct (generated_spec cfg st rec Hwf) as (pl & np & Hnd & Hid & Hle & Hgen).
  assert (Hnew : ∀ l, l ∈ generated cfg st rec →
            ∃ old, old ∈ pl ∧ create_line old np = Some l
                   ∧ (p_id old < next_pivot_id st)%nat
                   ∧ l_point1 l = old ∧ l_point2 l = np
                   ∧ l_point_ids l = (p_id old, next_pivot_id st)).
  { intros l (old & Hin & Hne & Hcl)%Hgen. exists old.
    destruct (create_line_inv _ _ _ Hcl) as (? & ? & ? & _).
    pose proof (Hle old Hin). rewrite <- Hid.
    split; [done|]. split; [done|]. split; [lia|]. done. }
  assert (Hsame : ∀ l l', (l ∈ lines st ∨ l ∈ generated cfg st rec) →
            (l' ∈ lines st ∨ l' ∈ generated cfg st rec) →
            l_point_ids l' = l_point_ids l → l' = l).
  { intros l l' [Hl|Hl] [Hl'|Hl'] Heq.
    - by eapply (NoDup_fmap_elem_inj l_point_ids); [apply (wf_pairs_nodup _ _ Hwf)|..].
    - destruct (Hold l Hl) as (_ & Hids & _ & Hb).
      destruct (Hnew l' Hl') as (o & _ & _ & _ & _ & _ & Hids').
      rewrite Hids, Hids' in Heq. injection Heq as _ Heq. lia.
    - destruct (Hold l' Hl') as (_ & Hids' & _ & Hb).
      destruct (Hnew l Hl) as (o & _ & _ & _ & _ & _ & Hids).
      rewrite Hids, Hids' in Heq. injection Heq as _ Heq. lia.
    - destruct (Hnew l Hl) as (o & Ho & Hcl & _ & _ & _ & Hids).
      destruct (Hnew l' Hl') as (o' & Ho' & Hcl' & _ & _ & _ & Hids').
      rewrite Hids, Hids' in Heq. injection Heq as Heq.
      assert (o' = o) as -> by (by eapply (NoDup_fmap_elem_inj p_id)).
      congruence. }
  intros l Hl Hgone.
  assert ((p_id (l_point1 l) < p_id (l_point2 l))%nat
          ∧ l_point_ids l = sorted_pair (p_id (l_point1 l)) (p_id (l_point2 l)))
    as [Hlt Hkey].
  { destruct Hl as [Hl|Hl].
    - by destruct (Hold l Hl) as (? & _ & ? & _).
    - destruct (Hnew l Hl) as (o & _ & _ & Ho & -> & -> & ->).
      rewrite Hid. by rewrite sorted_pair_lt. }
  split; [done|]. split; [done|].
  intros (l' & Heq & Hl')%He'%list_elem_of_fmap.
  apply Hgone. fold (lines st').
  assert (l' = l) as <-; [|done].
  apply Hsame; [done| |done]. by eapply lines_after_call.
Qed.

End Detector.

(** ** Concrete runs *)

(** A stand-in for pandas that knows one datetime string. *)
Definition sample_to_datetime_ms (s : string) : option Z :=
  if String.eqb s "2025-01-15 10:30:00" then Some 1736937000000%Z else None.

Definition base_timestamp : Q := 1700000000000.
Definition interval_ms : Q := 15 * 60 * 1000.

(** The configuration of the self-test at the end of the module. *)
Definition test_config : config :=
  {| max_pivots := 5; max_age_ms := None; cfg_H := 5000; cfg_point := 1 # 10;
     max_slope := Some (5 # 10000); min_distance_candles := 2;
     max_penetration_pct := 3 # 10; max_penetrating_candles := 2 |}.

Definition pivot_record (c : option candle) (ts price : Q) (ty : pivot_type)
    : zigzag_output :=
  {| zz_candle := c;
     zz_pivot := Some {| r_timestamp := ts; r_price := price; r_type := ty |} |}.

Definition bar (ts : pyval) (high low : Q) : candle :=
  {| c_timestamp := ts; c_open := low; c_high := high; c_low := low;
     c_close := high; c_volume := 0 |}.

Definition candle_record (c : candle) : zigzag_output :=
  {| zz_candle := Some c; zz_pivot := None |}.

(** *** A candle that arrives after the line it breaks *)

Definition late_candle_records : list zigzag_output :=
  [ pivot_record None base_timestamp 96000 peak;
    pivot_record None (base_timestamp + 4 * interval_ms) 96000 peak;
    candle_record (bar (PyNum (base_timestamp + 2 * interval_ms)) 97000 95000) ].

Definition late_candle_final : detector :=
  Eval vm_compute in
    default init (run sample_to_datetime_ms test_config init late_candle_records).

(** C1 fails as stated: two peaks give an accepted upper line; a candle-only
    record then adds a candle between them, 1.04 percent above the line, and
    the line stays resident although validation now rejects it. *)
Lemma stale_line_after_candle_only :
  run sample_to_datetime_ms test_config init late_candle_records
    = Some late_candle_final
  ∧ ∃ l why,
      l ∈ upper_lines late_candle_final
      ∧ validate_single_line sample_to_datetime_ms test_config
          (candles_list late_candle_final) l = Some (false, why).
Proof.
  split; [vm_compute; reflexivity|].
  eexists _, _. split; [left|]. vm_compute. reflexivity.
Qed.

Definition one_peak : detector :=
  Eval vm_compute in
    default init (run sample_to_datetime_ms test_config init
                    [pivot_record None base_timestamp 96000 peak]).

Definition second_peak : zigzag_output :=
  pivot_record (Some (bar (PyNum (base_timestamp + 2 * interval_ms)) 96100 95000))
               (base_timestamp + 4 * interval_ms) 96000 peak.

Definition two_peaks : detector :=
  Eval vm_compute in
    default init (fst <$> add_pivot sample_to_datetime_ms test_config one_peak second_peak).


(** *** A line on price zero *)

Definition strict_config : config :=
  {| max_pivots := 5; max_age_ms := None; cfg_H := 5000; cfg_point := 1 # 10;
     max_slope := Some (5 # 10000); min_distance_candles := 2;
     max_penetration_pct := 3 # 10; max_penetrating_candles := 0 |}.

Definition zero_line : line :=
  Eval vm_compute in
    default (Line (0, 0)%nat (Pivot 0 0 0 peak) (Pivot 0 0 0 peak) 0 0 upper (0, 0)%nat)
      (create_line (Pivot 0 base_timestamp 0 peak)
                   (Pivot 1 (base_timestamp + 4 * interval_ms) 0 peak)).

Definition above_zero : candle :=
  bar (PyNum (base_timestamp + 2 * interval_ms)) 1 0.

(** C2 fails as stated: the line through two peaks of price 0 has line price
    0 under the candle between them; the candle penetrates (high 1), so with
    [max_penetrating_candles = 0] the rule of the claim rejects, but the
    stage raises [ZeroDivisionError] and gives no verdict; so does the call
    of [add_pivot] that builds this line. *)
Lemma zero_line_price_raises :
  create_line (Pivot 0 base_timestamp 0 peak)
              (Pivot 1 (base_timestamp + 4 * interval_ms) 0 peak) = Some zero_line
  ∧ penetrators sample_to_datetime_ms zero_line [above_zero] = [above_zero]
  ∧ penetration_rejects sample_to_datetime_ms strict_config zero_line [above_zero]
  ∧ check_line_penetration sample_to_datetime_ms strict_config [above_zero] zero_line
    = None
  ∧ run sample_to_datetime_ms strict_config init
      [ candle_record above_zero;
        pivot_record None base_timestamp 0 peak;
        pivot_record None (base_timestamp + 4 * interval_ms) 0 peak ] = None.
Proof.
  split; [vm_compute; reflexivity|]. split; [vm_compute; reflexivity|].
  split; [|split; vm_compute; reflexivity].
  left. vm_compute. reflexivity.
Qed.

Definition flat_line : line :=
  Eval vm_compute in
    default zero_line
      (create_line (Pivot 0 base_timestamp 96000 peak)
                   (Pivot 1 (base_timestamp + 4 * interval_ms) 96000 peak)).

Definition spike : candle :=
  bar (PyNum (base_timestamp + 2 * interval_ms)) 97000 95000.

Lemma penetration_stage_spec_witness :
  ∃ why, check_line_penetration sample_to_datetime_ms test_config [spike] flat_line
         = Some (false, why) ∧ why ≠ OK.
Proof.
  destruct (penetration_stage_spec sample_to_datetime_ms test_config [spike] flat_line)
    as (_ & _ & _ & _ & H).
  apply H.
  - by vm_compute.
  - intros c Hc. change (penetrators sample_to_datetime_ms flat_line [spike])
      with [spike] in Hc. apply list_elem_of_singleton in Hc as ->. by vm_compute.
  - right. exists spike. split; [by left|]. by vm_compute.
Defined.

(** *** Two troughs half a candle apart *)

Definition steep_trough1 : pivot := Pivot 0 base_timestamp 95000 trough.
Definition steep_trough2 : pivot :=
  Pivot 1 (base_timestamp + (1 # 2) * interval_ms) 99000 trough.

(** C3 fails as stated: troughs 450000 ms apart whose slope exceeds
    [max_slope] are rejected by the slope check, which runs first, with the
    slope reason and not the spacing one. *)
Lemma steep_close_troughs_slope_reason :
  Qabs (p_timestamp steep_trough2 - p_timestamp steep_trough1)
    == (1 # 2) * candle_interval_ms
  ∧ min_distance_candles test_config == 2
  ∧ ∃ l, create_line steep_trough1 steep_trough2 = Some l
         ∧ validate_single_line sample_to_datetime_ms test_config [] l
           = Some (false, SlopeTooLarge (l_slope l) (5 # 10000)).
Proof.
  split; [by vm_compute|]. split; [by vm_compute|].
  eexists. split; [vm_compute; reflexivity|]. vm_compute. reflexivity.
Qed.

Definition close_trough1 : pivot :=
  Pivot 2 (base_timestamp + 2 * interval_ms) 94800 trough.
Definition close_trough2 : pivot :=
  Pivot 3 (base_timestamp + (5 # 2) * interval_ms) 94700 trough.

Lemma spacing_rejection_after_slope_witness :
  ∃ l, create_line close_trough1 close_trough2 = Some l ∧ l_type l = lower
       ∧ validate_single_line sample_to_datetime_ms test_config [] l
         = Some (false,
                 match slope_check test_config l with
                 | Some slope_reason => slope_reason
                 | None => TooClose (num_candles l) (min_distance_candles test_config)
                 end).
Proof.
  apply (spacing_rejection_after_slope sample_to_datetime_ms test_config []
           close_trough1 close_trough2); by vm_compute.
Defined.

(** *** Candle-only records *)

Definition narrow_config : config :=
  {| max_pivots := 1; max_age_ms := None; cfg_H := 5000; cfg_point := 1 # 10;
     max_slope := Some (5 # 10000); min_distance_candles := 2;
     max_penetration_pct := 3 # 10; max_penetrating_candles := 2 |}.

Definition tick : zigzag_output :=
  candle_record (bar (PyNum base_timestamp) 96000 95000).

(** C4 fails as stated: with [max_pivots = 1], ten candle-only records leave
    ten candles, and no function of the configuration bounds the candle
    list. *)
Lemma candles_exceed_any_bound :
  (∃ st, run sample_to_datetime_ms narrow_config init (replicate 10 tick) = Some st
         ∧ length (candles_list st) = 10%nat)
  ∧ ¬ ∃ B : config → nat, ∀ cfg recs st,
        run sample_to_datetime_ms cfg init recs = Some st →
        length (candles_list st) ≤ B cfg.
Proof.
  split; [|apply candles_unbounded].
  eexists. split; [apply run_candle_only|]. reflexivity.
Qed.

(** *** A window of two pivots per side *)

Definition sliding_config : config :=
  {| max_pivots := 2; max_age_ms := None; cfg_H := 5000; cfg_point := 1 # 10;
     max_slope := Some (5 # 10000); min_distance_candles := 2;
     max_penetration_pct := 3 # 10; max_penetrating_candles := 2 |}.

Definition at_candle (k : Q) : Q := base_timestamp + k * interval_ms.

Definition sliding_records : list zigzag_output :=
  [ pivot_record (Some (bar (PyNum (at_candle 0)) 96000 95500)) (at_candle 0) 96000 peak;
    pivot_record (Some (bar (PyNum (at_candle 1)) 95400 95000)) (at_candle 1) 95000 trough;
    pivot_record (Some (bar (PyNum (at_candle 3)) 96100 95600)) (at_candle 3) 96100 peak;
    pivot_record (Some (bar (PyNum (at_candle 4)) 95500 95100)) (at_candle 4) 95100 trough;
    pivot_record (Some (bar (PyNum (at_candle 6)) 96200 95700)) (at_candle 6) 96200 peak;
    pivot_record (Some (bar (PyNum (at_candle 7)) 95600 95200)) (at_candle 7) 95200 trough;
    pivot_record (Some (bar (PyNum (at_candle 9)) 96300 95800)) (at_candle 9) 96300 peak ].

Definition sliding_log : detector * list (option nat) * list nat :=
  Eval vm_compute in
    default (init, [], [])
      (run_log sample_to_datetime_ms sliding_config init sliding_records).

Definition sliding_final : detector := sliding_log.1.1.

Lemma bounded_window_witness :
  length (peaks_list sliding_final) ≤ max_pivots sliding_config
  ∧ length (troughs_list sliding_final) ≤ max_pivots sliding_config.
Proof.
  apply (bounded_window sample_to_datetime_ms sliding_config sliding_records).
  vm_compute. reflexivity.
Defined.

Lemma candles_bounded_by_calls_witness :
  length (peaks_list sliding_final) ≤ max_pivots sliding_config
  ∧ length (troughs_list sliding_final) ≤ max_pivots sliding_config
  ∧ length (candles_list sliding_final) ≤ length sliding_records.
Proof.
  apply (candles_bounded_by_calls sample_to_datetime_ms sliding_config).
  vm_compute. reflexivity.
Defined.

Lemma no_duplicate_lines_witness :
  NoDup (endpoint_pair <$> upper_lines sliding_final)
  ∧ NoDup (endpoint_pair <$> lower_lines sliding_final).
Proof.
  apply (no_duplicate_lines sample_to_datetime_ms sliding_config sliding_records).
  vm_compute. reflexivity.
Defined.

Lemma eviction_cascade_witness :
  sliding_log.2 = [0; 1; 2]%nat
  ∧ l_point_ids <$> upper_lines sliding_final ++ lower_lines sliding_final
    = [(4, 6); (3, 5)]%nat
  ∧ Forall (λ l, (p_id (l_point1 l) ∉ sliding_log.2)
                 ∧ (p_id (l_point2 l) ∉ sliding_log.2))
           (upper_lines sliding_final ++ lower_lines sliding_final).
Proof.
  split; [reflexivity|]. split; [reflexivity|].
  apply Forall_forall.
  apply (eviction_cascade sample_to_datetime_ms sliding_config sliding_records
           sliding_final sliding_log.1.2 sliding_log.2).
  vm_compute. reflexivity.
Defined.


Lemma reset_idempotence_witness :
  run_log sample_to_datetime_ms sliding_config (reset sliding_final) sliding_records
  = Some (sliding_final, sliding_log.1.2, sliding_log.2)
  ∧ next_pivot_id (reset sliding_final) = 0%nat
  ∧ ∀ rec st1 ret1 ev1,
      add_pivot_log sample_to_datetime_ms sliding_config (reset sliding_final) rec
        = Some (st1, ret1, ev1) →
      ret1 = (λ _, 0%nat) <$> zz_pivot rec.
Proof.
  apply (reset_idempotence sample_to_datetime_ms sliding_config sliding_records).
  vm_compute. reflexivity.
Defined.

Lemma malformed_timestamp_is_epoch_zero_witness :
  cleanup_to_ms sample_to_datetime_ms (PyObj "not a date") = 0%Z
  ∧ penetration_to_ms sample_to_datetime_ms (PyObj "not a date") = 0%Z
  ∧ ∀ cfg st c pv,
      (λ r, (normalize sample_to_datetime_ms r.1, r.2))
        <$> add_pivot sample_to_datetime_ms cfg st
              (ZigZag (Some (with_timestamp (PyObj "not a date") c)) pv)
      = (λ r, (normalize sample_to_datetime_ms r.1, r.2))
        <$> add_pivot sample_to_datetime_ms cfg st
              (ZigZag (Some (with_timestamp (PyNum 0) c)) pv).
Proof.
  apply (malformed_timestamp_is_epoch_zero sample_to_datetime_ms "not a date").
  reflexivity.
Defined.

(** *** Further runs *)

Lemma verdict_matches_reason_witness :
  ∃ why, validate_single_line sample_to_datetime_ms test_config [spike] flat_line
           = Some (false, why)
         ∧ (false = true ↔ why = OK).
Proof.
  eexists. split; [vm_compute; reflexivity|].
  apply (verdict_matches_reason sample_to_datetime_ms test_config [spike] flat_line).
  vm_compute. reflexivity.
Defined.

Definition steep_line : line :=
  Eval vm_compute in
    default zero_line (create_line steep_trough1 steep_trough2).

Lemma early_rejection_ignores_candles_witness :
  validate_single_line sample_to_datetime_ms test_config [] steep_line
  = validate_single_line sample_to_datetime_ms test_config [spike] steep_line
  ∧ ∃ why, validate_single_line sample_to_datetime_ms test_config [] steep_line
           = Some (false, why).
Proof.
  apply (early_rejection_ignores_candles sample_to_datetime_ms test_config
           steep_line [] [spike]).
  left. by vm_compute.
Defined.

Definition sliding_before : detector :=
  Eval vm_compute in
    default init
      (run sample_to_datetime_ms sliding_config init (take 4 sliding_records)).

Definition fifth_record : zigzag_output :=
  pivot_record (Some (bar (PyNum (at_candle 6)) 96200 95700)) (at_candle 6) 96200 peak.

Definition sliding_after : detector * option nat * list nat :=
  Eval vm_compute in
    default (init, None, [])
      (add_pivot_log sample_to_datetime_ms sliding_config sliding_before
         fifth_record).

Lemma candles_synced_after_eviction_witness :
  sliding_after.2 = [0%nat]
  ∧ oldest_pivot_ts sliding_after.1.1 = Some (at_candle 1)
  ∧ Forall (λ c, (py_int (at_candle 1)
                  ≤ cleanup_to_ms sample_to_datetime_ms (c_timestamp c))%Z)
           (candles_list sliding_after.1.1).
Proof.
  split; [reflexivity|]. split; [vm_compute; reflexivity|].
  apply Forall_forall. intros c.
  apply (candles_synced_after_eviction sample_to_datetime_ms sliding_config
           sliding_before sliding_after.1.1 fifth_record (Some 4%nat) [0%nat]).
  - vm_compute. reflexivity.
  - done.
  - vm_compute. reflexivity.
Defined.

Definition zero_aged_config : config :=
  {| max_pivots := 0; max_age_ms := Some (3 * interval_ms); cfg_H := 5000;
     cfg_point := 1 # 10; max_slope := Some (5 # 10000);
     min_distance_candles := 2; max_penetration_pct := 3 # 10;
     max_penetrating_candles := 2 |}.

Lemma zero_cap_with_age_raises_witness :
  add_pivot sample_to_datetime_ms zero_aged_config init
    (pivot_record None base_timestamp 96000 peak) = None.
Proof.
  eapply (zero_cap_with_age_raises sample_to_datetime_ms zero_aged_config);
    reflexivity.
Defined.

Definition zero_config : config :=
  {| max_pivots := 0; max_age_ms := None; cfg_H := 5000;
     cfg_point := 1 # 10; max_slope := Some (5 # 10000);
     min_distance_candles := 2; max_penetration_pct := 3 # 10;
     max_penetrating_candles := 2 |}.

Lemma zero_cap_keeps_nothing_witness :
  ∃ st, run sample_to_datetime_ms zero_config init sliding_records = Some st
        ∧ peaks_list st = [] ∧ troughs_list st = []
        ∧ upper_lines st = [] ∧ lower_lines st = []
        ∧ next_pivot_id st = length (stamped 0 sliding_records).
Proof.
  apply (zero_cap_keeps_nothing sample_to_datetime_ms zero_config sliding_records);
    reflexivity.
Defined.

Definition mild : candle :=
  bar (PyNum (base_timestamp + 2 * interval_ms)) 96100 95000.
Definition calm : candle :=
  bar (PyNum (base_timestamp + 3 * interval_ms)) 95900 95000.

Lemma fewer_candles_keep_acceptance_witness :
  validate_single_line sample_to_datetime_ms test_config [mild; calm] flat_line
    = Some (true, OK)
  ∧ filter (λ c, Qltb (c_high c) 96000) [mild; calm] = [calm]
  ∧ validate_single_line sample_to_datetime_ms test_config
      (filter (λ c, Qltb (c_high c) 96000) [mild; calm]) flat_line
    = Some (true, OK).
Proof.
  split; [vm_compute; reflexivity|]. split; [vm_compute; reflexivity|].
  apply (fewer_candles_keep_acceptance sample_to_datetime_ms test_config).
  vm_compute. reflexivity.
Defined.

Definition third_peak : zigzag_output :=
  pivot_record (Some (bar (PyNum (base_timestamp + 5 * interval_ms)) 96000 95500))
               (base_timestamp + 8 * interval_ms) 96000 peak.

Definition three_peaks : detector :=
  Eval vm_compute in
    default init
      (fst <$> add_pivot sample_to_datetime_ms test_config two_peaks third_peak).

Lemma valid_lines_preserved_witness :
  length (lines three_peaks) = 3%nat
  ∧ Forall (λ l, validate_single_line sample_to_datetime_ms test_config
                   (candles_list three_peaks) l = Some (true, OK))
           (lines three_peaks).
Proof.
  split; [reflexivity|]. apply Forall_forall.
  apply (valid_lines_preserved sample_to_datetime_ms test_config two_peaks
           three_peaks third_peak (Some 2%nat)).
  - intros l Hl. vm_compute in Hl.
    apply list_elem_of_singleton in Hl as ->. vm_compute. reflexivity.
  - intros c l [= <-] Hl. vm_compute in Hl.
    apply list_elem_of_singleton in Hl as ->. vm_compute. reflexivity.
  - vm_compute. reflexivity.
Defined.

Lemma ids_count_up_witness :
  sliding_log.1.2 = returned 0 sliding_records
  ∧ next_pivot_id sliding_final = length (stamped 0 sliding_records).
Proof.
  apply (ids_count_up sample_to_datetime_ms sliding_config sliding_records
           sliding_final sliding_log.1.2 sliding_log.2).
  vm_compute. reflexivity.
Defined.

Lemma ids_resident_or_evicted_witness :
  (p_id <$> peaks_list sliding_final ++ troughs_list sliding_final) ++ sliding_log.2
    ≡ₚ seq 0 (next_pivot_id sliding_final).
Proof.
  apply (ids_resident_or_evicted sample_to_datetime_ms sliding_config
           sliding_records sliding_final sliding_log.1.2 sliding_log.2).
  vm_compute. reflexivity.
Defined.

Lemma window_is_last_pivots_witness :
  peaks_list sliding_final
  = keep_last (max_pivots sliding_config) (filter is_peak (stamped 0 sliding_records))
  ∧ troughs_list sliding_final
    = keep_last (max_pivots sliding_config)
        (filter is_trough (stamped 0 sliding_records)).
Proof.
  apply (window_is_last_pivots sample_to_datetime_ms sliding_config sliding_records);
    [reflexivity|]. vm_compute. reflexivity.
Defined.

Definition aged_config : config :=
  {| max_pivots := 5; max_age_ms := Some (3 * interval_ms); cfg_H := 5000;
     cfg_point := 1 # 10; max_slope := Some (5 # 10000);
     min_distance_candles := 2; max_penetration_pct := 3 # 10;
     max_penetrating_candles := 2 |}.

Definition aged_final : detector :=
  Eval vm_compute in
    default init (run sample_to_datetime_ms aged_config init sliding_records).

Lemma age_window_witness :
  (p_id <$> peaks_list aged_final, p_id <$> troughs_list aged_final)
    = ([4; 6], [3; 5])%nat
  ∧ (∀ latest p, last (peaks_list aged_final) = Some latest →
                 p ∈ peaks_list aged_final →
                 p_timestamp latest - 3 * interval_ms <= p_timestamp p)
  ∧ (∀ latest t, last (troughs_list aged_final) = Some latest →
                 t ∈ troughs_list aged_final →
                 p_timestamp latest - 3 * interval_ms <= p_timestamp t).
Proof.
  split; [reflexivity|].
  apply (age_window sample_to_datetime_ms aged_config (3 * interval_ms)
           sliding_records aged_final); [reflexivity|by vm_compute|].
  vm_compute. reflexivity.
Defined.

Lemma lines_join_same_type_witness :
  (∀ p, p ∈ peaks_list sliding_final → p_type p = peak)
  ∧ (∀ t, t ∈ troughs_list sliding_final → p_type t = trough)
  ∧ (∀ l, l ∈ upper_lines sliding_final →
          l_type l = upper ∧ l_point1 l ∈ peaks_list sliding_final
          ∧ l_point2 l ∈ peaks_list sliding_final)
  ∧ (∀ l, l ∈ lower_lines sliding_final →
          l_type l = lower ∧ l_point1 l ∈ troughs_list sliding_final
          ∧ l_point2 l ∈ troughs_list sliding_final).
Proof.
  apply (lines_join_same_type sample_to_datetime_ms sliding_config sliding_records).
  vm_compute. reflexivity.
Defined.

Lemma pivot_lists_sorted_by_id_witness :
  StronglySorted lt (p_id <$> peaks_list sliding_final)
  ∧ StronglySorted lt (p_id <$> troughs_list sliding_final).
Proof.
  apply (pivot_lists_sorted_by_id sample_to_datetime_ms sliding_config
           sliding_records).
  vm_compute. reflexivity.
Defined.

Lemma combinations_never_filled_witness :
  valid_combinations sliding_final = []
  ∧ gs_num_combinations (get_state sliding_final) = 0%nat.
Proof.
  apply (combinations_never_filled sample_to_datetime_ms sliding_config
           sliding_records).
  vm_compute. reflexivity.
Defined.

Lemma get_state_counts_witness :
  Forall (λ i, (i < gs_next_pivot_id (get_state sliding_final))%nat)
         (gs_peaks_ids (get_state sliding_final)
          ++ gs_troughs_ids (get_state sliding_final))
  ∧ NoDup (gs_peaks_ids (get_state sliding_final)
           ++ gs_troughs_ids (get_state sliding_final))
  ∧ (gs_num_peaks (get_state sliding_final) ≤ max_pivots sliding_config)%nat
  ∧ (gs_num_troughs (get_state sliding_final) ≤ max_pivots sliding_config)%nat
  ∧ (2 * gs_num_upper_lines (get_state sliding_final)
     ≤ gs_num_peaks (get_state sliding_final)
       * (gs_num_peaks (get_state sliding_final) - 1))%nat
  ∧ (2 * gs_num_lower_lines (get_state sliding_final)
     ≤ gs_num_troughs (get_state sliding_final)
       * (gs_num_troughs (get_state sliding_final) - 1))%nat.
Proof.
  apply (get_state_counts sample_to_datetime_ms sliding_config sliding_records).
  vm_compute. reflexivity.
Defined.

Lemma created_pairs_mirror_lines_witness :
  created_line_pairs sliding_final
  = list_to_set (l_point_ids <$> lines sliding_final).
Proof.
  apply (created_pairs_mirror_lines sample_to_datetime_ms sliding_config
           sliding_records).
  vm_compute. reflexivity.
Defined.

Lemma generation_complete_witness :
  ∃ l, create_line (Pivot 2 (at_candle 3) 96100 peak)
                   (Pivot 4 (at_candle 6) 96200 peak) = Some l
       ∧ l ∈ generated sample_to_datetime_ms sliding_config sliding_before
               fifth_record.
Proof.
  apply (generation_complete sample_to_datetime_ms sliding_config
           (take 4 sliding_records) sliding_before sliding_after.1.1 fifth_record
           {| r_timestamp := at_candle 6; r_price := 96200; r_type := peak |}
           (Some 4%nat) [0%nat]).
  - vm_compute. reflexivity.
  - reflexivity.
  - vm_compute. reflexivity.
  - apply list_elem_of_In. vm_compute. tauto.
  - reflexivity.
  - apply list_elem_of_In. vm_compute. tauto.
  - reflexivity.
  - by vm_compute.
Defined.

(** *** Pivots confirmed one candle late *)

Definition quiet (k : Q) : candle := bar (PyNum (at_candle k)) 95800 95300.

Definition confirmed_records : list zigzag_output :=
  [ candle_record (bar (PyNum (at_candle 0)) 96000 95300);
    pivot_record (Some (quiet 1)) (at_candle 0) 96000 peak;
    candle_record (bar (PyNum (at_candle 2)) 95800 95000);
    pivot_record (Some (quiet 3)) (at_candle 2) 95000 trough;
    candle_record (bar (PyNum (at_candle 4)) 96100 95300);
    pivot_record (Some (quiet 5)) (at_candle 4) 96100 peak;
    candle_record (bar (PyNum (at_candle 6)) 95800 95100);
    pivot_record (Some (quiet 7)) (at_candle 6) 95100 trough;
    candle_record (quiet 8) ].

Definition confirmed_final : detector :=
  Eval vm_compute in
    default init (run sample_to_datetime_ms test_config init confirmed_records).

Lemma resident_lines_valid_witness :
  (time_ordered sample_to_datetime_ms confirmed_records = true
   ∧ l_point_ids <$> upper_lines confirmed_final ++ lower_lines confirmed_final
     = [(0, 2); (1, 3)]%nat
   ∧ Forall (λ l, validate_single_line sample_to_datetime_ms test_config
                    (candles_list confirmed_final) l = Some (true, OK))
            (upper_lines confirmed_final ++ lower_lines confirmed_final))
  ∧ (time_ordered sample_to_datetime_ms late_candle_records = false
     ∧ generated sample_to_datetime_ms test_config one_peak second_peak ≠ []
     ∧ Forall (λ l, validate_single_line sample_to_datetime_ms test_config
                      (candles_list two_peaks) l = Some (true, OK))
              (upper_lines two_peaks ++ lower_lines two_peaks)).
Proof.
  destruct (resident_lines_valid sample_to_datetime_ms test_config) as [Hrun Hcall].
  split.
  - split; [vm_compute; reflexivity|]. split; [vm_compute; reflexivity|].
    apply Forall_forall. apply (Hrun confirmed_records).
    + vm_compute. reflexivity.
    + vm_compute. reflexivity.
  - split; [vm_compute; reflexivity|]. split; [by vm_compute|].
    apply Forall_forall. apply (Hcall one_peak two_peaks second_peak (Some 1%nat)).
    + vm_compute. reflexivity.
    + by vm_compute.
Defined.

(** *** The line of an evicted peak *)

Definition evicted_line : line :=
  Eval vm_compute in default zero_line (head (upper_lines sliding_before)).

Lemma ordered_endpoints_witness :
  Forall (λ l, (p_id (l_point1 l) < p_id (l_point2 l))%nat
               ∧ l_point_ids l = sorted_pair (p_id (l_point1 l)) (p_id (l_point2 l))
               ∧ l_point_ids l ∈ created_line_pairs sliding_before)
         (upper_lines sliding_before ++ lower_lines sliding_before)
  ∧ l_point_ids evicted_line = (0, 2)%nat
  ∧ (p_id (l_point1 evicted_line) < p_id (l_point2 evicted_line))%nat
  ∧ l_point_ids evicted_line
    = sorted_pair (p_id (l_point1 evicted_line)) (p_id (l_point2 evicted_line))
  ∧ l_point_ids evicted_line ∉ created_line_pairs sliding_after.1.1.
Proof.
  destruct (ordered_endpoints sample_to_datetime_ms sliding_config
              (take 4 sliding_records) sliding_before) as [Hres Hgone].
  { vm_compute. reflexivity. }
  split; [by apply Forall_forall|]. split; [reflexivity|].
  apply (Hgone fifth_record sliding_after.1.1 (Some 4%nat)).
  - vm_compute. reflexivity.
  - left. apply list_elem_of_In. vm_compute. tauto.
  - intros Hin. apply (list_elem_of_fmap_2 l_point_ids) in Hin.
    vm_compute in Hin.
    repeat (apply elem_of_cons in Hin as [Hin|Hin]; [discriminate|]).
    by apply elem_of_nil in Hin.
Defined.
